(** * Biblioteca Scott: the live ISBN barcode scanner

  A shallow embedding of the scanning pipeline of [App.jsx]:
  [cleanISBN] / [isValidISBN], the consecutive-read gate kept in
  [lastRef], the crop and binarisation of a captured frame, the camera
  acquisition strategy [getBestVideoStream], and the polling loops of
  [CameraISBNScanner] with their cleanup: first one run of the effect on
  its own, then the mounted component with all the runs of its effect,
  which share its refs.

  JavaScript strings are sequences of UTF-16 code units; numbers are
  IEEE 754 binary64 values; the asynchronous code is a state machine
  driven by the events of the browser's event loop.

  Around the scanner: the string helpers [norm], [splitAuthor] and
  [matches] with the visible list of [App], the query of
  [googleBooksSearch], the handlers and the save of [BookForm], the list
  of [LocationsManager], the focus and zoom of [tryApplyFocus]; the
  Firestore store of [data.js] with its backups; and the IndexedDB
  wrapper with its own. *)

From Stdlib Require Import ZArith NArith List Bool Lia Ascii String.
From Stdlib Require Import Floats.
From stdpp Require Import base gmap sets.
Import ListNotations.

Set Warnings "-inexact-float".

(* ===================================================================== *)
(** ** JavaScript strings *)
(* ===================================================================== *)

Module JS.

(** A string is the list of its UTF-16 code units. *)
Definition code_unit := N.
Definition jsstring := list code_unit.

(** A literal of the source, given by its (Basic Latin) characters. *)
Definition lit (s : string) : jsstring :=
  List.map N_of_ascii (list_ascii_of_string s).

Definition in_range (lo hi c : N) : bool := (lo <=? c)%N && (c <=? hi)%N.

(** [WhiteSpace] and [LineTerminator] of ECMAScript, as [String.prototype.trim]
    uses them: TAB, LF, VT, FF, CR, SP, NBSP, the [Zs] category, LS, PS
    and the byte order mark. *)
Definition is_white_space (c : code_unit) : bool :=
  in_range 9 13 c || (c =? 32)%N || (c =? 160)%N || (c =? 5760)%N
  || in_range 8192 8202 c || (c =? 8232)%N || (c =? 8233)%N
  || (c =? 8239)%N || (c =? 8287)%N || (c =? 12288)%N || (c =? 65279)%N.

Fixpoint trimStart (s : jsstring) : jsstring :=
  match s with
  | c :: r => if is_white_space c then trimStart r else s
  | [] => []
  end.

Definition trimEnd (s : jsstring) : jsstring := rev (trimStart (rev s)).

Definition trim (s : jsstring) : jsstring := trimEnd (trimStart s).

(** [s.replace(/[^...]/g, "")] for a negated character class: the code
    units of the class are kept, every other one is deleted. *)
Definition replace_not_in_class (cls : code_unit -> bool) (s : jsstring)
  : jsstring := List.filter cls s.

(** [toUpperCase] on one code unit of the Basic Latin block.  The source
    only applies it to strings over [0-9Xx]; elsewhere the code unit is
    left as it is. *)
Definition upper (c : code_unit) : code_unit :=
  if in_range 97 122 c then (c - 32)%N else c.

Definition toUpperCase (s : jsstring) : jsstring := List.map upper s.

(** [s.slice(0, n)] for [0 <= n]. *)
Definition slice0 (n : nat) (s : jsstring) : jsstring := firstn n s.

(** Strict equality [===] of two strings. *)
Definition eqb (a b : jsstring) : bool := bool_decide (a = b).

(** A string is truthy when it is not empty. *)
Definition truthy (s : jsstring) : bool :=
  match s with [] => false | _ :: _ => true end.

End JS.

(* ===================================================================== *)
(** ** [norm], [cleanISBN], [isValidISBN] *)
(* ===================================================================== *)

Module Isbn.
Import JS.

(** [function norm(s){ return (s||"").toString().trim(); }] on a string
    argument ([""||""] is [""]). *)
Definition norm (s : jsstring) : jsstring := trim s.

Definition is_digit (c : code_unit) : bool := in_range 48 57 c.

(** The class [[0-9Xx]]. *)
Definition isbn_class (c : code_unit) : bool :=
  is_digit c || (c =? 88)%N || (c =? 120)%N.

(** [function cleanISBN(raw){
      const s = norm(raw).replace(/[^0-9Xx]/g,"").toUpperCase();
      return s.length>13 ? s.slice(0,13) : s; }] *)
Definition cleanISBN (raw : jsstring) : jsstring :=
  let s := toUpperCase (replace_not_in_class isbn_class (norm raw)) in
  if (13 <? length s)%nat then slice0 13 s else s.

(** [function isValidISBN(s){
      const x = cleanISBN(s);
      return x.length===10 || x.length===13; }] *)
Definition isValidISBN (s : jsstring) : bool :=
  let x := cleanISBN s in
  (length x =? 10)%nat || (length x =? 13)%nat.

(** The normalisation as the specification words it: delete everything
    but digits and X/x, uppercase, keep at most 13 characters. *)
Definition normalize_spec (s : jsstring) : jsstring :=
  firstn 13 (List.map upper (List.filter isbn_class s)).

(** A digit or the uppercase letter X. *)
Definition is_isbn_char (c : code_unit) : bool := is_digit c || (c =? 88)%N.

(** The shape the specification asks of a valid string: digits only,
    or digits with one X that stands first or last. *)
Definition digits_with_edge_X (x : jsstring) : bool :=
  forallb is_digit x
  || match x with
     | c :: r => (c =? 88)%N && forallb is_digit r
     | [] => false
     end
  || match rev x with
     | c :: r => (c =? 88)%N && forallb is_digit r
     | [] => false
     end.

(** The validity predicate as the specification words it. *)
Definition isValid_spec (s : jsstring) : bool :=
  let x := cleanISBN s in
  ((length x =? 10)%nat || (length x =? 13)%nat) && digits_with_edge_X x.

End Isbn.

(* ===================================================================== *)
(** ** The consecutive-read gate kept in [lastRef] *)
(* ===================================================================== *)

Module Gate.
Import JS.

(** The object [{ value, hits }] that [lastRef.current] refers to. *)
Record last := { value : jsstring; hits : Z }.

(** [useRef({ value: "", hits: 0 })] *)
Definition initial : last := {| value := []; hits := 0 |}.

(** [const last = lastRef.current;
     if (last.value === cleaned) last.hits += 1;
     else lastRef.current = { value: cleaned, hits: 1 };]

    In the first branch [last] and [lastRef.current] are the same object,
    so the increment is the one [lastRef.current.hits] reads afterwards
    (see [Heap] below for the two references spelled out). *)
Definition bump (l : last) (cleaned : jsstring) : last :=
  if eqb (value l) cleaned
  then {| value := value l; hits := hits l + 1 |}
  else {| value := cleaned; hits := 1 |}.

(** [lastRef.current.hits >= 2] *)
Definition confirmed (l : last) : bool := (2 <=? hits l)%Z.

(** The block both polling loops run on a cleaned decode result:
    [if (cleaned) { ...bump...; if (lastRef.current.hits >= 2) {
       onDetected(cleaned); return; } }].
    The result is the new content of [lastRef.current] and whether
    [onDetected] is called. *)
Definition observe (l : last) (cleaned : jsstring) : last * bool :=
  if truthy cleaned
  then let l' := bump l cleaned in (l', confirmed l')
  else (l, false).

(** The confirmations reported along a sequence of cleaned results. *)
Fixpoint feed (l : last) (cs : list jsstring) : list bool :=
  match cs with
  | [] => []
  | c :: r => let '(l', b) := observe l c in b :: feed l' r
  end.

(** The gate after a sequence of cleaned results. *)
Definition after (l : last) (cs : list jsstring) : last :=
  fold_left (fun l c => fst (observe l c)) cs l.

End Gate.

(** The same block with the two references of the source kept apart:
    objects live in a heap, [lastRef.current] holds an address, and the
    local [last] is a copy of that address. *)
Module Heap.
Import JS Gate.

Definition addr := nat.

Record store := { objects : list last; current : addr }.

Definition deref (st : store) (a : addr) : last :=
  match objects st !! a with Some o => o | None => initial end.

(** [o.hits += 1] through the address [a]. *)
Definition incr_hits (st : store) (a : addr) : store :=
  let o := deref st a in
  {| objects := <[a := {| value := value o; hits := hits o + 1 |}]> (objects st);
     current := current st |}.

(** [lastRef.current = { value: cleaned, hits: 1 }]: a fresh object. *)
Definition set_new (st : store) (cleaned : jsstring) : store :=
  {| objects := objects st ++ [{| value := cleaned; hits := 1 |}];
     current := length (objects st) |}.

Definition observe_ref (st : store) (cleaned : jsstring) : store * bool :=
  if truthy cleaned
  then
    let last := current st in
    let st' := if eqb (value (deref st last)) cleaned
               then incr_hits st last
               else set_new st cleaned in
    (st', (2 <=? hits (deref st' (current st')))%Z)
  else (st, false).

Definition well_formed (st : store) : Prop :=
  (current st < length (objects st))%nat.

End Heap.

(* ===================================================================== *)
(** ** Conditioning a frame: crop and binarisation *)
(* ===================================================================== *)

Module Conditioner.

(** JavaScript numbers are binary64 floating-point values: [float], with
    the kernel's IEEE 754 operations.  A decimal literal of the source is
    the nearest binary64 value, which is how a [float] literal is read. *)

(** The number that holds the integer [z], for [0 <= z < 2^53]. *)
Definition of_int (z : Z) : float := PrimFloat.of_uint63 (Uint63.of_Z z).

(** The integer part of a finite value, rounded toward minus infinity.
    (A shift by a negative amount is a shift to the right.) *)
Definition floor_sf (x : spec_float) : Z :=
  match x with
  | S754_finite s m e => Z.shiftl (if s then Zneg m else Zpos m) e
  | _ => 0
  end.

(** [Math.floor(x)] of a finite [x], as an integer. *)
Definition Math_floor (x : float) : Z := floor_sf (Prim2SF x).

(** The integer part of a finite value, rounded toward zero. *)
Definition trunc_sf (x : spec_float) : Z :=
  match x with
  | S754_finite s m e =>
      let a := Z.shiftl (Zpos m) e in if s then (- a)%Z else a
  | _ => 0
  end.

Definition wrap32 (z : Z) : Z := ((z + 2 ^ 31) mod 2 ^ 32 - 2 ^ 31)%Z.

(** [x | 0]: ToInt32, which truncates toward zero, wraps modulo 2^32 and
    sends NaN and the infinities to 0. *)
Definition to_int32 (x : float) : Z := wrap32 (trunc_sf (Prim2SF x)).

(** The rectangle handed to [getImageData(cx, cy, cw, ch)]. *)
Record rect := { cx : Z; cy : Z; cw : Z; ch : Z }.

(** [const cx = Math.floor(w * 0.10);
     const cy = Math.floor(h * 0.55);
     const cw = Math.floor(w * 0.80);
     const ch = Math.floor(h * 0.30);] *)
Definition crop (w h : Z) : rect :=
  {| cx := Math_floor (of_int w * 0.10)%float;
     cy := Math_floor (of_int h * 0.55)%float;
     cw := Math_floor (of_int w * 0.80)%float;
     ch := Math_floor (of_int h * 0.30)%float |}.

(** [d[i] * 0.299 + d[i + 1] * 0.587 + d[i + 2] * 0.114] *)
Definition luma (r g b : Z) : float :=
  (of_int r * 0.299 + of_int g * 0.587 + of_int b * 0.114)%float.

(** [const g = (...) | 0; const v = g > 160 ? 255 : 0;] *)
Definition binarize_pixel (r g b : Z) : Z :=
  let g := to_int32 (luma r g b) in
  if (160 <? g)%Z then 255%Z else 0%Z.

(** [for (let i = 0; i < d.length; i += 4) {
       const g = ...; const v = ...;
       d[i] = d[i + 1] = d[i + 2] = v; }]
    over the bytes [d] of an [ImageData] (a [Uint8ClampedArray], four
    bytes R, G, B, A per pixel).  The length of such an array is a
    multiple of four; for completeness a shorter last group is treated as
    the loop treats it: a missing channel reads [undefined], the sum is
    NaN, [NaN | 0] is 0, and a write past the end is dropped. *)
Fixpoint binarize (d : list Z) : list Z :=
  match d with
  | r :: g :: b :: a :: rest =>
      let v := binarize_pixel r g b in v :: v :: v :: a :: binarize rest
  | [r; g; b] => let v := binarize_pixel r g b in [v; v; v]
  | [_; _] => [0%Z; 0%Z]
  | [_] => [0%Z]
  | [] => []
  end.

(** The threshold as the specification words it: white when the luma
    [L = 0.299R + 0.587G + 0.114B] is greater than 160, black otherwise. *)
Definition binarize_pixel_spec (r g b : Z) : Z :=
  if (160 <? luma r g b)%float then 255%Z else 0%Z.

(** [f i && f (i+1) && ...] over [n] consecutive integers. *)
Fixpoint all_from (n : nat) (i : Z) (f : Z -> bool) : bool :=
  match n with
  | O => true
  | S k => f i && all_from k (i + 1)%Z f
  end.

(** The crop as the specification words it: the four numbers are exactly
    10%, 55%, 80% and 30% of the width and of the height. *)
Definition percent_of (p whole part : Z) : Prop := (100 * part = p * whole)%Z.

Definition crop_spec (w h : Z) (r : rect) : Prop :=
  percent_of 10 w (cx r) /\ percent_of 55 h (cy r) /\
  percent_of 80 w (cw r) /\ percent_of 30 h (ch r).

Definition gray_ok (n : Z) : bool :=
  (binarize_pixel n n n =? (if 160 <? n then 255 else 0))%Z.

(** Where [m] lies between [q * 2^j] and [(q + 1) * 2^j], as the round and
    sticky bits [r] and [s] of a right shift by [j] record it: on the lower
    bound, below the middle, in the middle, above the middle. *)
Definition located (m q j : Z) (r s : bool) : Prop :=
  let rem := (m - q * 2 ^ j)%Z in
  (0 <= rem < 2 ^ j)%Z /\
  match r, s with
  | false, false => rem = 0%Z
  | false, true => (0 < 2 * rem < 2 ^ j)%Z
  | true, false => (2 * rem = 2 ^ j)%Z
  | true, true => (2 ^ j < 2 * rem)%Z
  end.

End Conditioner.

(* ===================================================================== *)
(** ** Camera acquisition: [pickBestCamera], [getBestVideoStream] *)
(* ===================================================================== *)

Module Acquire.
Import JS.

(** A settled promise. *)
Inductive outcome (A : Type) : Type :=
| Resolved (a : A)
| Rejected (name message : jsstring).
Arguments Resolved {A} a.
Arguments Rejected {A} name message.

(** A [MediaStreamTrack], by identity; a [MediaStream] is the list of its
    tracks ([getTracks()]). *)
Definition track := nat.
Definition stream := list track.

(** [MediaDeviceInfo] *)
Inductive device_kind := audioinput | audiooutput | videoinput.

Record device :=
  { kind : device_kind; label : jsstring; deviceId : jsstring }.

(** The [video] member of the constraints of a [getUserMedia] request, with
    the members the source uses. *)
Record video_constraints :=
  { facingMode_ideal : option jsstring;
    deviceId_exact : option jsstring;
    width_ideal : option Z;
    height_ideal : option Z }.

Inductive video_member :=
| VideoTrue
| VideoConstraints (c : video_constraints).

Record request := { video : video_member; audio : bool }.

(** The browser, as [getBestVideoStream] sees it: the outcome of each
    request it may make, and of the enumeration of the devices. *)
Record media :=
  { getUserMedia : request -> outcome stream;
    enumerateDevices : outcome (list device) }.

(** Case-insensitive comparison of [/.../i] against a pattern of Basic
    Latin letters: both code units are canonicalised by [upper].  (A code
    unit outside Basic Latin never canonicalises into it, so it matches
    none of the letters of the pattern.) *)
Fixpoint prefix_ci (pat s : jsstring) : bool :=
  match pat, s with
  | [], _ => true
  | _ :: _, [] => false
  | a :: pat', c :: s' => (upper a =? upper c)%N && prefix_ci pat' s'
  end.

Fixpoint contains_ci (pat s : jsstring) : bool :=
  prefix_ci pat s
  || match s with
     | [] => false
     | _ :: s' => contains_ci pat s'
     end.

(** [/back|rear|environment/i.test(d.label || "")] *)
Definition back_label (l : jsstring) : bool :=
  contains_ci (lit "back") l || contains_ci (lit "rear") l
  || contains_ci (lit "environment") l.

(** [a || b] on two optional objects. *)
Definition or_else {A} (a b : option A) : option A :=
  match a with Some _ => a | None => b end.

(** [function pickBestCamera(devices) {
       const back = devices.find(d => /back|rear|environment/i.test(d.label || ""));
       return (back || devices[0] || null)?.deviceId || undefined; }]
    [None] is [undefined]. *)
Definition pickBestCamera (devices : list device) : option jsstring :=
  let back := List.find (fun d => back_label (label d)) devices in
  match or_else back (head devices) with
  | Some d => if truthy (deviceId d) then Some (deviceId d) else None
  | None => None
  end.

(** [const ideal = { width: { ideal: 1280 }, height: { ideal: 720 } };] and
    the three requests. *)
Definition environment_request : request :=
  {| video := VideoConstraints
                {| facingMode_ideal := Some (lit "environment");
                   deviceId_exact := None;
                   width_ideal := Some 1280%Z; height_ideal := Some 720%Z |};
     audio := false |}.

Definition device_request (id : jsstring) : request :=
  {| video := VideoConstraints
                {| facingMode_ideal := None;
                   deviceId_exact := Some id;
                   width_ideal := Some 1280%Z; height_ideal := Some 720%Z |};
     audio := false |}.

Definition plain_request : request := {| video := VideoTrue; audio := false |}.

Definition is_videoinput (d : device) : bool :=
  match kind d with videoinput => true | _ => false end.

(** The device the second attempt asks for, if it asks: enumeration must
    succeed and [pickBestCamera] must return an identity. *)
Definition second_choice (m : media) : option jsstring :=
  match enumerateDevices m with
  | Resolved devices => pickBestCamera (List.filter is_videoinput devices)
  | Rejected _ _ => None
  end.

(** [async function getBestVideoStream()]: the requests it makes, in order,
    and how its promise settles.  A rejected first or second attempt is
    caught and the next one is tried; the third is returned as it is. *)
Definition getBestVideoStream (m : media) : list request * outcome stream :=
  match getUserMedia m environment_request with
  | Resolved s => ([environment_request], Resolved s)
  | Rejected _ _ =>
      match second_choice m with
      | Some id =>
          match getUserMedia m (device_request id) with
          | Resolved s => ([environment_request; device_request id], Resolved s)
          | Rejected _ _ =>
              ([environment_request; device_request id; plain_request],
               getUserMedia m plain_request)
          end
      | None =>
          ([environment_request; plain_request], getUserMedia m plain_request)
      end
  end.

(** A request that names a device and gives an orientation hint at once. *)
Definition mixes_hint_and_identity (r : request) : bool :=
  match video r with
  | VideoConstraints c =>
      match facingMode_ideal c, deviceId_exact c with
      | Some _, Some _ => true
      | _, _ => false
      end
  | VideoTrue => false
  end.

End Acquire.

(* ===================================================================== *)
(** ** The scan session: the effect of [CameraISBNScanner] *)
(* ===================================================================== *)

Module Session.
Import JS Isbn Gate Conditioner Acquire.

(** A session is one run of the effect of the component: from the call of
    [start()] to the cleanup that React runs when the component unmounts.
    (The effect depends on [onDetected]; a later run of the effect sets
    [stopRef.current] back to false and is another session: the module
    [Scanner] below puts the runs of one mounted component together.)
    JavaScript runs one turn of the event loop at a time, so the session
    is a state machine: each event resumes the code where it was suspended
    and runs it to its next [await], timer or return. *)

(** Where the asynchronous code of one run of the effect is suspended. *)
Inductive control :=
| AwaitStream    (* await getBestVideoStream() *)
| AwaitPlay      (* await tryApplyFocus(track); await video.play() *)
| NativeTimer    (* setTimeout(loop, 120) is pending *)
| NativeDetect   (* await detector.detect(canvas) *)
| SoftTimer      (* setTimeout(decodeLoop, 120) is pending *)
| SoftDecode     (* await reader.decodeOnceFromVideoElement(video) *)
| Finished.      (* start() and the loops have returned *)

(** The refs of the component, the state of the camera tracks, and the
    point of suspension. *)
Record state :=
  { stopRef : bool;
    streamRef : option stream;
    lastRef : last;
    videoRef : bool;       (* [videoRef.current] is the video element, not null *)
    ended : gset track;    (* the tracks that have been stopped *)
    at_ : control }.

(** The effect has just called [start()]: [stopRef.current = false]. *)
Definition initial : state :=
  {| stopRef := false; streamRef := None; lastRef := Gate.initial;
     videoRef := true; ended := ∅; at_ := AwaitStream |}.

(** [video.videoWidth] and [video.videoHeight] (unsigned). *)
Record frame := { videoWidth : Z; videoHeight : Z }.

(** What the event loop delivers to the session. *)
Inductive event :=
| StreamSettled (m : media)
    (* getBestVideoStream() settles, in the media environment [m] *)
| PlaySettled (r : outcome unit) (barcodeDetector : bool) (f : frame)
    (* video.play() settles; supportsBarcodeDetector() and the video size
       are read in the same turn *)
| Timer (f : frame)
    (* a 120 ms timer fires; the video size is read *)
| DetectSettled (r : outcome (list jsstring))
    (* detector.detect(canvas) settles with the rawValue of each code *)
| DecodeSettled (r : outcome jsstring)
    (* decodeOnceFromVideoElement settles with the text of the result *)
| Cleanup.
    (* React runs the cleanup of the effect: the component unmounts *)

(** What the session does to the outside. *)
Inductive action :=
| DrawImage (f : frame)          (* ctx.drawImage(video, 0, 0, w, h) *)
| Detect (r : rect)              (* detector.detect(canvas), after the crop [r] was binarised *)
| Decode                         (* reader.decodeOnceFromVideoElement(video) *)
| OnDetected (v : jsstring)      (* onDetected(cleaned) *)
| SetTimeout                     (* setTimeout(loop or decodeLoop, 120) *)
| SetError (name message : jsstring)
| StopTrack (t : track).         (* t.stop() *)

Definition goto (s : state) (c : control) : state :=
  {| stopRef := stopRef s; streamRef := streamRef s; lastRef := lastRef s;
     videoRef := videoRef s; ended := ended s; at_ := c |}.

Definition set_last (s : state) (l : last) : state :=
  {| stopRef := stopRef s; streamRef := streamRef s; lastRef := l;
     videoRef := videoRef s; ended := ended s; at_ := at_ s |}.

Definition set_stream (s : state) (st : stream) : state :=
  {| stopRef := stopRef s; streamRef := Some st; lastRef := lastRef s;
     videoRef := videoRef s; ended := ended s; at_ := at_ s |}.

(** [const loop = async () => { if (stopRef.current) return; try { ... } }],
    up to [await detector.detect(canvas)].  Nothing is drawn when the video
    has no size yet; [getImageData] throws when the crop has no width or no
    height, which the [catch {}] absorbs. *)
Definition loop (s : state) (f : frame) : state * list action :=
  if stopRef s then (goto s Finished, [])
  else
    let w := videoWidth f in
    let h := videoHeight f in
    if negb (w =? 0)%Z && negb (h =? 0)%Z then
      let r := crop w h in
      if (cw r =? 0)%Z || (ch r =? 0)%Z
      then (goto s NativeTimer, [DrawImage f; SetTimeout])
      else (goto s NativeDetect, [DrawImage f; Detect r])
    else (goto s NativeTimer, [SetTimeout]).

(** [const decodeLoop = async () => { if (stopRef.current) return; try {
       const result = await reader.decodeOnceFromVideoElement(video); ...] *)
Definition decodeLoop (s : state) : state * list action :=
  if stopRef s then (goto s Finished, [])
  else (goto s SoftDecode, [Decode]).

(** The block of both loops on a cleaned result:
    [if (cleaned) { ...; if (lastRef.current.hits >= 2) {
       onDetected(cleaned); return; } }  ...  setTimeout(loop, 120);] *)
Definition on_cleaned (s : state) (cleaned : jsstring) (again : control)
  : state * list action :=
  let '(l, hit) := observe (lastRef s) cleaned in
  if hit
  then (goto (set_last s l) Finished, [OnDetected cleaned])
  else (goto (set_last s l) again, [SetTimeout]).

(** The rest of [loop], after [await detector.detect(canvas)]:
    [if (codes && codes.length) { const raw = codes[0].rawValue || ""; ... }] *)
Definition loop_resume (s : state) (r : outcome (list jsstring))
  : state * list action :=
  match r with
  | Resolved (raw :: _) => on_cleaned s (cleanISBN raw) NativeTimer
  | Resolved [] => (goto s NativeTimer, [SetTimeout])
  | Rejected _ _ => (goto s NativeTimer, [SetTimeout])
  end.

(** The rest of [decodeLoop], after the [await]; a rejection (no code in
    this attempt, or anything else) is ignored. *)
Definition decodeLoop_resume (s : state) (r : outcome jsstring)
  : state * list action :=
  match r with
  | Resolved text => on_cleaned s (cleanISBN text) SoftTimer
  | Rejected _ _ => (goto s SoftTimer, [SetTimeout])
  end.

(** [return () => { stopRef.current = true;
       try { const s = streamRef.current;
             if (s) s.getTracks().forEach(t => t.stop()); } catch {} };]
    Unmounting also detaches [videoRef]. *)
Definition cleanup (s : state) : state * list action :=
  let tracks := match streamRef s with Some st => st | None => [] end in
  ({| stopRef := true; streamRef := streamRef s; lastRef := lastRef s;
      videoRef := false; ended := ended s ∪ list_to_set tracks;
      at_ := at_ s |},
   List.map StopTrack tracks).

(** [stream = await getBestVideoStream(); streamRef.current = stream;
     const video = videoRef.current; if (!video) return; ...] and the
    [catch (e)] of [start]. *)
Definition start_resume (s : state) (m : media) : state * list action :=
  match snd (getBestVideoStream m) with
  | Resolved st =>
      if videoRef s
      then (goto (set_stream s st) AwaitPlay, [])
      else (goto (set_stream s st) Finished, [])
  | Rejected name message => (goto s Finished, [SetError name message])
  end.

(** After [await video.play()]: the native loop when the platform has a
    [BarcodeDetector], the software decoder otherwise. *)
Definition play_resume (s : state) (r : outcome unit) (native : bool) (f : frame)
  : state * list action :=
  match r with
  | Resolved _ => if native then loop s f else decodeLoop s
  | Rejected name message => (goto s Finished, [SetError name message])
  end.

(** One turn of the event loop.  [None]: the event cannot occur at this
    point (nothing is waiting for it). *)
Definition step (s : state) (e : event) : option (state * list action) :=
  match e, at_ s with
  | Cleanup, _ => Some (cleanup s)
  | StreamSettled m, AwaitStream => Some (start_resume s m)
  | PlaySettled r native f, AwaitPlay => Some (play_resume s r native f)
  | Timer f, NativeTimer => Some (loop s f)
  | Timer _, SoftTimer => Some (decodeLoop s)
  | DetectSettled r, NativeDetect => Some (loop_resume s r)
  | DecodeSettled r, SoftDecode => Some (decodeLoop_resume s r)
  | _, _ => None
  end.

(** A sequence of turns, with everything the session did. *)
Fixpoint run (s : state) (evs : list event) : option (state * list action) :=
  match evs with
  | [] => Some (s, [])
  | e :: rest =>
      match step s e with
      | Some (s', acts) =>
          match run s' rest with
          | Some (s'', acts') => Some (s'', acts ++ acts')
          | None => None
          end
      | None => None
      end
  end.

(** The cleaned value of a decode attempt that produced one. *)
Definition decoded (e : event) : option jsstring :=
  match e with
  | DetectSettled (Resolved (raw :: _)) =>
      if truthy (cleanISBN raw) then Some (cleanISBN raw) else None
  | DecodeSettled (Resolved text) =>
      if truthy (cleanISBN text) then Some (cleanISBN text) else None
  | _ => None
  end.

(** The cleaned values of the successful decode attempts of a run, the most
    recent one first. *)
Fixpoint successes (evs : list event) (before : list jsstring) : list jsstring :=
  match evs with
  | [] => before
  | e :: rest =>
      successes rest (match decoded e with
                      | Some c => c :: before
                      | None => before
                      end)
  end.

(** The gate agrees with the successful decode attempts made so far
    ([hist], the most recent one first): it holds the last value read, and
    [hits >= 2] only when the one before was the same. *)
Definition gate_tracks (l : last) (hist : list jsstring) : Prop :=
  match hist with
  | [] => l = Gate.initial
  | c :: older =>
      value l = c /\ c <> [] /\ (1 <= hits l)%Z /\
      ((2 <= hits l)%Z -> exists older', older = c :: older')
  end.




End Session.

(* ===================================================================== *)
(** ** The mounted scanner: all the runs of the effect *)
(* ===================================================================== *)

Module Scanner.
Import JS Isbn Gate Conditioner Acquire Session.

(** The scan session of the specification lasts from the opening of the
    scanning UI to its close: it is the life of one mounted
    [CameraISBNScanner], which may hold several runs of the effect.  The
    four refs are made once, at the mount (l.134-137).  The
    effect has [onDetected] as its dependency (l.254), and [BookForm] hands
    it a function that is made anew at every render (l.516, l.589): when
    the form renders again while the scanner is open, React runs the
    cleanup of the effect and then the effect again, in one turn.  The new
    run sets [stopRef.current] back to false (l.142) and calls [start()];
    nothing resets [lastRef], and nothing ends the [start()] of the run
    before, whose promise or timer is still pending.  So the runs of the
    effect share the refs of the mount, and each of them is suspended at a
    point of its own. *)
Record state :=
  { stopRef : bool;
    streamRef : option stream;
    lastRef : last;
    videoRef : bool;       (* the component is mounted: [videoRef.current] is the element *)
    ended : gset track;    (* the tracks that have been stopped *)
    runs : list control }. (* where each run of the effect is suspended, the first run first *)

(** The component has mounted and the effect has run for the first time. *)
Definition initial : state :=
  {| stopRef := false; streamRef := None; lastRef := Gate.initial;
     videoRef := true; ended := ∅; runs := [AwaitStream] |}.

(** What the event loop delivers to the mounted component. *)
Inductive event :=
| Resume (i : nat) (e : Session.event)
    (* the promise or the timer that run [i] of the effect waits for *)
| Rerun
    (* [onDetected] has changed: React runs the cleanup, then the effect *)
| Unmount.
    (* the scanner is closed: React runs the cleanup and detaches [videoRef] *)

(** The refs as one run of the effect sees them, and the refs as it leaves
    them. *)
Definition view (s : state) (c : control) : Session.state :=
  {| Session.stopRef := stopRef s; Session.streamRef := streamRef s;
     Session.lastRef := lastRef s; Session.videoRef := videoRef s;
     Session.ended := ended s; at_ := c |}.

Definition back (r : Session.state) (cs : list control) : state :=
  {| stopRef := Session.stopRef r; streamRef := Session.streamRef r;
     lastRef := Session.lastRef r; videoRef := Session.videoRef r;
     ended := Session.ended r; runs := cs |}.

(** Run [i] of the effect is resumed where it is suspended and runs to its
    next [await], timer or return. *)
Definition resume (s : state) (i : nat) (e : Session.event)
  : option (state * list action) :=
  match e with
  | Cleanup => None
  | _ =>
      match runs s !! i with
      | Some c =>
          match Session.step (view s c) e with
          | Some (r, acts) => Some (back r (<[i := at_ r]> (runs s)), acts)
          | None => None
          end
      | None => None
      end
  end.

(** [return () => { stopRef.current = true;
       try { const s = streamRef.current;
             if (s) s.getTracks().forEach(t => t.stop()); } catch {} };] *)
Definition cleanup (s : state) : state * list action :=
  let tracks := match streamRef s with Some st => st | None => [] end in
  ({| stopRef := true; streamRef := streamRef s; lastRef := lastRef s;
      videoRef := videoRef s; ended := ended s ∪ list_to_set tracks;
      runs := runs s |},
   List.map StopTrack tracks).

(** [useEffect(() => { stopRef.current = false; async function start() {...}
                       start(); return ...; }, [onDetected])]:
    one more run of the effect, suspended in [await getBestVideoStream()]. *)
Definition effect (s : state) : state :=
  {| stopRef := false; streamRef := streamRef s; lastRef := lastRef s;
     videoRef := videoRef s; ended := ended s;
     runs := runs s ++ [AwaitStream] |}.

(** React sets [videoRef.current] to null when the component unmounts. *)
Definition detach (s : state) : state :=
  {| stopRef := stopRef s; streamRef := streamRef s; lastRef := lastRef s;
     videoRef := false; ended := ended s; runs := runs s |}.

(** One turn of the event loop.  [None]: the event cannot occur (no run of
    the effect waits for it, or the component has unmounted already). *)
Definition step (s : state) (ev : event) : option (state * list action) :=
  match ev with
  | Resume i e => resume s i e
  | Rerun =>
      if videoRef s
      then let '(s1, acts) := cleanup s in Some (effect s1, acts)
      else None
  | Unmount =>
      if videoRef s
      then let '(s1, acts) := cleanup s in Some (detach s1, acts)
      else None
  end.

(** A sequence of turns, with everything the component did. *)
Fixpoint run (s : state) (evs : list event) : option (state * list action) :=
  match evs with
  | [] => Some (s, [])
  | ev :: rest =>
      match step s ev with
      | Some (s', acts) =>
          match run s' rest with
          | Some (s'', acts') => Some (s'', acts ++ acts')
          | None => None
          end
      | None => None
      end
  end.

(** The cleaned value of a decode attempt that produced one, whichever run
    of the effect made the attempt. *)
Definition decoded (ev : event) : option jsstring :=
  match ev with
  | Resume _ e => Session.decoded e
  | _ => None
  end.

(** The cleaned values of the successful decode attempts of the component,
    the most recent one first. *)
Fixpoint successes (evs : list event) (before : list jsstring) : list jsstring :=
  match evs with
  | [] => before
  | ev :: rest =>
      successes rest (match decoded ev with
                      | Some c => c :: before
                      | None => before
                      end)
  end.







(** The session in which the effect runs once: the events of that run,
    with the cleanup at the unmount. *)
Definition alone (evs : list Session.event) : list event :=
  List.map (fun e => match e with
                     | Cleanup => Unmount
                     | _ => Resume 0 e
                     end) evs.

End Scanner.

(* ===================================================================== *)
(** ** Scenarios and the statements of the specification *)
(* ===================================================================== *)

Module Scenario.
Import JS Isbn Gate Conditioner Acquire Session.

(** A device with one camera, which every request obtains. *)
Definition camera : media :=
  {| getUserMedia := fun _ => Resolved [0%nat];
     enumerateDevices :=
       Resolved [{| kind := videoinput; label := lit "Back Camera";
                    deviceId := lit "cam0" |}] |}.

(** A device on which every request is refused. *)
Definition no_camera : media :=
  {| getUserMedia := fun _ => Rejected (lit "NotAllowedError") (lit "denied");
     enumerateDevices := Resolved [] |}.

(** A laptop: the orientation hint is refused, the only camera has no
    "back" in its label, and asking for it by identity works. *)
Definition webcam : device :=
  {| kind := videoinput; label := lit "FaceTime HD Camera";
     deviceId := lit "cam0" |}.

Definition laptop : media :=
  {| getUserMedia := fun r =>
       if mixes_hint_and_identity r then Rejected (lit "OverconstrainedError") []
       else match video r with
            | VideoConstraints c =>
                match deviceId_exact c with
                | Some _ => Resolved [0%nat]
                | None => Rejected (lit "OverconstrainedError") []
                end
            | VideoTrue => Resolved [1%nat]
            end;
     enumerateDevices :=
       Resolved [{| kind := audioinput; label := lit "Microphone";
                    deviceId := lit "mic0" |}; webcam] |}.

Definition hd : frame := {| videoWidth := 1280; videoHeight := 720 |}.

Definition isbn_a : jsstring := lit "9780131103627".
Definition isbn_b : jsstring := lit "9780000000000".

(** Scenario A: the camera is acquired, the native detector reads the same
    ISBN in two consecutive attempts. *)
Definition scenario_A : list event :=
  [StreamSettled camera; PlaySettled (Resolved tt) true hd;
   DetectSettled (Resolved [isbn_a]); Timer hd;
   DetectSettled (Resolved [isbn_a])].

(** Scenario B: no strategy obtains a camera. *)
Definition scenario_B : list event := [StreamSettled no_camera].

(** Scenario C: the component unmounts after the first decode attempt has
    settled and before the second one starts. *)
Definition scenario_C : list event :=
  [StreamSettled camera; PlaySettled (Resolved tt) true hd;
   DetectSettled (Resolved [isbn_a]); Cleanup; Timer hd].


(** A five-digit code is read twice, by the software decoder. *)
Definition short_code : list event :=
  [StreamSettled camera; PlaySettled (Resolved tt) false hd;
   DecodeSettled (Resolved (lit "12345")); Timer hd;
   DecodeSettled (Resolved (lit "12345"))].


(** The stream of a second request to the same device: another stream,
    with a track of its own. *)
Definition camera_again : media :=
  {| getUserMedia := fun _ => Resolved [1%nat];
     enumerateDevices := enumerateDevices camera |}.

(** The form renders again after the first read: React runs the effect a
    second time, and the second run reads the same ISBN once. *)
Definition read_rerun_read : list Scanner.event :=
  [Scanner.Resume 0 (StreamSettled camera);
   Scanner.Resume 0 (PlaySettled (Resolved tt) true hd);
   Scanner.Resume 0 (DetectSettled (Resolved [isbn_a]));
   Scanner.Rerun;
   Scanner.Resume 1 (StreamSettled camera_again);
   Scanner.Resume 1 (PlaySettled (Resolved tt) true hd);
   Scanner.Resume 1 (DetectSettled (Resolved [isbn_a]))].

(** The form renders again while the timer of the first run is pending;
    the timer fires afterwards. *)
Definition rerun_then_timer : list Scanner.event :=
  [Scanner.Resume 0 (StreamSettled camera);
   Scanner.Resume 0 (PlaySettled (Resolved tt) true hd);
   Scanner.Resume 0 (DetectSettled (Resolved []));
   Scanner.Rerun;
   Scanner.Resume 0 (Timer hd)].


(** The specification on the callback: [onDetected] only receives valid
    ISBN strings. *)
Definition only_valid_detected : Prop :=
  forall evs s acts v,
    Scanner.run Scanner.initial evs = Some (s, acts) ->
    In (OnDetected v) acts -> isValidISBN v = true.


(** The specification on the second strategy: the device asked for by
    identity is a video input whose label matches the pattern. *)
Definition asks_for_back_camera_only (m : media) : Prop :=
  forall id devices,
    In (device_request id) (fst (getBestVideoStream m)) ->
    enumerateDevices m = Resolved devices ->
    exists d, In d devices /\ kind d = videoinput /\ deviceId d = id /\
              back_label (label d) = true.

End Scenario.

(* ===================================================================== *)
(** ** String helpers of [App.jsx] *)
(* ===================================================================== *)

Module Text.
Import JS.

(** [x || ""] for [x] a string or [undefined] ([None]). *)
Definition str (x : option jsstring) : jsstring :=
  match x with Some s => s | None => [] end.

(** A string of white space only; a string that does not start, or does
    not end, with white space. *)
Definition all_white (s : jsstring) : bool := forallb is_white_space s.

Definition starts_clean (s : jsstring) : bool :=
  match s with
  | c :: _ => negb (is_white_space c)
  | [] => true
  end.

Definition ends_clean (s : jsstring) : bool := starts_clean (rev s).

(** [s.startsWith(t)] *)
Fixpoint startsWith (s t : jsstring) : bool :=
  match t, s with
  | [], _ => true
  | _ :: _, [] => false
  | a :: t', c :: s' => (c =? a)%N && startsWith s' t'
  end.

(** [s.includes(t)]: [t] occurs in [s] at some position. *)
Fixpoint includes (s t : jsstring) : bool :=
  startsWith s t
  || match s with
     | [] => false
     | _ :: s' => includes s' t
     end.

(** [s.split(sep)] for a separator of one code unit: the pieces between
    the occurrences of the separator, empty pieces included. *)
Fixpoint split (sep : code_unit) (s : jsstring) : list jsstring :=
  match s with
  | [] => [[]]
  | c :: r =>
      if (c =? sep)%N then [] :: split sep r
      else match split sep r with
           | p :: ps => (c :: p) :: ps
           | [] => [[c]]
           end
  end.

(** [s.split(/\s+/)]: the pieces between the maximal runs of white space
    ([\s] is the set [trim] removes); a run at the start or at the end
    leaves an empty piece there. *)
Fixpoint split_ws (s : jsstring) : list jsstring :=
  match s with
  | [] => [[]]
  | c :: r =>
      if is_white_space c then
        match r with
        | c' :: _ => if is_white_space c' then split_ws r else [] :: split_ws r
        | [] => [] :: split_ws r
        end
      else match split_ws r with
           | p :: ps => (c :: p) :: ps
           | [] => [[c]]
           end
  end.

(** [l.join(sep)] *)
Fixpoint join (sep : jsstring) (l : list jsstring) : jsstring :=
  match l with
  | [] => []
  | [x] => x
  | x :: r => x ++ sep ++ join sep r
  end.

(** [l.filter(Boolean)] on a list of strings. *)
Definition filter_Boolean (l : list jsstring) : list jsstring :=
  List.filter truthy l.

(** The words of a string: [s.split(/\s+/).filter(Boolean)]. *)
Definition words (s : jsstring) : list jsstring := filter_Boolean (split_ws s).

(** [toLowerCase] on the Basic Latin block, for the examples: only the
    letters A to Z are mapped. *)
Definition toLowerCase_basic_latin (s : jsstring) : jsstring :=
  List.map (fun c => if in_range 65 90 c then (c + 32)%N else c) s.

(** A string without white space. *)
Definition no_white (w : jsstring) : bool :=
  forallb (fun c => negb (is_white_space c)) w.

(** A word: not empty, and without white space. *)
Definition is_word (w : jsstring) : bool := truthy w && no_white w.

End Text.

(* ===================================================================== *)
(** ** The catalogue: [splitAuthor], [matches], the visible list *)
(* ===================================================================== *)

Module Catalog.
Import JS Isbn Text.

Record author := { last : jsstring; first : jsstring }.

(** [function splitAuthor(full){
      const s = norm(full);
      if(!s) return {last:"", first:""};
      if(s.includes(",")){
        const [last, first] = s.split(",").map(x=>norm(x));
        return {last, first}; }
      const parts = s.split(/\s+/).filter(Boolean);
      if(parts.length===1) return {last:parts[0], first:""};
      return { last: parts[parts.length-1], first: parts.slice(0,-1).join(" ") }; }]
    ([split] of a string that includes the separator has two pieces at
    least; an element that an array does not have reads as [""] here.) *)
Definition splitAuthor (full : jsstring) : author :=
  let s := norm full in
  if negb (truthy s) then {| last := []; first := [] |}
  else if includes s (lit ",") then
    match List.map norm (split 44%N s) with
    | l :: f :: _ => {| last := l; first := f |}
    | [l] => {| last := l; first := [] |}
    | [] => {| last := []; first := [] |}
    end
  else
    let parts := filter_Boolean (split_ws s) in
    if (length parts =? 1)%nat then {| last := nth 0 parts []; first := [] |}
    else {| last := nth (length parts - 1) parts [];
            first := join (lit " ") (removelast parts) |}.

(** A book object, with the fields the application gives it.  A field
    that the object does not have is [None]. *)
Record book :=
  { id : option jsstring;
    authorLast : option jsstring;
    authorFirst : option jsstring;
    title : option jsstring;
    isbn : option jsstring;
    location : option jsstring;
    archive : option jsstring;
    notes : option jsstring;
    personalCoverDataUrl : option jsstring;
    catalogCoverUrl : option jsstring;
    createdAt : option Z;
    updatedAt : option Z }.

Section Search.

(** [String.prototype.toLowerCase], the case mapping of Unicode. *)
Variable toLowerCase : jsstring -> jsstring.

(** [function normKey(s){ return norm(s).toLowerCase(); }] *)
Definition normKey (s : option jsstring) : jsstring := toLowerCase (norm (str s)).

(** [function matches(book, q){
      if(!q) return true;
      const qq = normKey(q);
      return ( normKey(book.title).includes(qq) || ... ); }] *)
Definition matches (b : book) (q : jsstring) : bool :=
  if negb (truthy q) then true
  else
    let qq := normKey (Some q) in
    includes (normKey (title b)) qq
    || includes (normKey (authorLast b)) qq
    || includes (normKey (authorFirst b)) qq
    || includes (normKey (location b)) qq
    || includes (normKey (archive b)) qq
    || includes (normKey (isbn b)) qq.

(** [b.location===filterLocation] on a field that may be missing. *)
Definition field_is (x : option jsstring) (v : jsstring) : bool :=
  match x with Some s => eqb s v | None => false end.

(** [const visible = useMemo(()=>{
      return books
        .filter(b=>matches(b,query))
        .filter(b=>filterLocation ? b.location===filterLocation : true)
        .filter(b=>filterArchive ? b.archive===filterArchive : true); }, ...)] *)
Definition visible (books : list book) (query filterLocation filterArchive : jsstring)
  : list book :=
  List.filter
    (fun b => if truthy filterArchive then field_is (archive b) filterArchive else true)
    (List.filter
       (fun b => if truthy filterLocation then field_is (location b) filterLocation else true)
       (List.filter (fun b => matches b query) books)).

End Search.

End Catalog.

(* ===================================================================== *)
(** ** Looking a book up: [googleBooksSearch] *)
(* ===================================================================== *)

Module Lookup.
Import JS Isbn Text Catalog.

(** The query of [googleBooksSearch({ isbn, title, author })]:
    [let q = "";
     const is = cleanISBN(isbn||"");
     if(isValidISBN(is)) q = `isbn:${is}`;
     else q = [norm(title), norm(author)].filter(Boolean).join(" ");] *)
Definition query (isbn title author : option jsstring) : jsstring :=
  let is_ := cleanISBN (str isbn) in
  if isValidISBN is_ then lit "isbn:" ++ is_
  else join (lit " ") (filter_Boolean [norm (str title); norm (str author)]).

(** [if(!q) return []; const url = ...; const res = await fetch(url);]
    The request that [googleBooksSearch] sends, by its query; [None] when
    it returns [[]] without sending one. *)
Definition request (isbn title author : option jsstring) : option jsstring :=
  let q := query isbn title author in
  if negb (truthy q) then None else Some q.

End Lookup.

(* ===================================================================== *)
(** ** [BookForm]: scanning, pasting and saving *)
(* ===================================================================== *)

Module Form.
Import JS Isbn Text Catalog Lookup.

(** The state of [BookForm]: the text inputs, the book being edited and
    whether the scanner is open. *)
Record form :=
  { f_authorLast : jsstring;
    f_authorFirst : jsstring;
    f_title : jsstring;
    f_isbn : jsstring;
    f_location : jsstring;
    f_archive : jsstring;
    f_notes : jsstring;
    f_personalCoverDataUrl : jsstring;
    f_catalogCoverUrl : jsstring;
    scannerOpen : bool;
    initial : option book }.

Definition setIsbn (f : form) (v : jsstring) : form :=
  {| f_authorLast := f_authorLast f; f_authorFirst := f_authorFirst f;
     f_title := f_title f; f_isbn := v; f_location := f_location f;
     f_archive := f_archive f; f_notes := f_notes f;
     f_personalCoverDataUrl := f_personalCoverDataUrl f;
     f_catalogCoverUrl := f_catalogCoverUrl f;
     scannerOpen := scannerOpen f; initial := initial f |}.

Definition setScannerOpen (f : form) (o : bool) : form :=
  {| f_authorLast := f_authorLast f; f_authorFirst := f_authorFirst f;
     f_title := f_title f; f_isbn := f_isbn f; f_location := f_location f;
     f_archive := f_archive f; f_notes := f_notes f;
     f_personalCoverDataUrl := f_personalCoverDataUrl f;
     f_catalogCoverUrl := f_catalogCoverUrl f;
     scannerOpen := o; initial := initial f |}.

(** [const author = [authorFirst, authorLast].filter(Boolean).join(" ");] *)
Definition author_of (f : form) : jsstring :=
  join (lit " ") (filter_Boolean [f_authorFirst f; f_authorLast f]).

(** [async function onDetectedISBN(value) {
       setScannerOpen(false);
       const cleaned = cleanISBN(value);
       if (cleaned) {
         setIsbn(cleaned); ...
         const results = await googleBooksSearch({ isbn: cleaned, title, author });
         ... } }]
    up to the request: the form afterwards, and the request sent, if any.
    [title] and [author] are those of the form when the scanner reports. *)
Definition onDetectedISBN (f : form) (value : jsstring) : form * option jsstring :=
  let f1 := setScannerOpen f false in
  let cleaned := cleanISBN value in
  if truthy cleaned
  then (setIsbn f1 cleaned,
        request (Some cleaned) (Some (f_title f)) (Some (author_of f)))
  else (f1, None).

(** [async function searchGoogle(){
       const cleaned = cleanISBN(isbn);
       if (cleaned && cleaned !== isbn) setIsbn(cleaned);
       ...
       const results = await googleBooksSearch({ isbn: cleaned || isbn, title, author });]
    up to the request. *)
Definition searchGoogle (f : form) : form * option jsstring :=
  let cleaned := cleanISBN (f_isbn f) in
  let f1 := if truthy cleaned && negb (eqb cleaned (f_isbn f))
            then setIsbn f cleaned else f in
  (f1,
   request (Some (if truthy cleaned then cleaned else f_isbn f))
           (Some (f_title f)) (Some (author_of f))).

(** [async function pasteISBN(){ ...
       const t = await navigator.clipboard.readText();
       const cleaned = cleanISBN(t);
       if(cleaned) { setIsbn(cleaned); ... } }] for a clipboard that is read. *)
Definition pasteISBN (f : form) (t : jsstring) : form :=
  let cleaned := cleanISBN t in
  if truthy cleaned then setIsbn f cleaned else f.

(** The initial state of the form:
    [useState(initial?.authorLast??"")], ...,
    [useState(initial?.location??(locations[0]||""))], ... *)
Definition field_or (i : option book) (get : book -> option jsstring)
    (dflt : jsstring) : jsstring :=
  match i with
  | Some b => match get b with Some s => s | None => dflt end
  | None => dflt
  end.

Definition BookForm (locations : list jsstring) (i : option book) : form :=
  {| f_authorLast := field_or i authorLast [];
     f_authorFirst := field_or i authorFirst [];
     f_title := field_or i title [];
     f_isbn := field_or i isbn [];
     f_location := field_or i location (nth 0 locations []);
     f_archive := field_or i archive [];
     f_notes := field_or i notes [];
     f_personalCoverDataUrl := field_or i personalCoverDataUrl [];
     f_catalogCoverUrl := field_or i catalogCoverUrl [];
     scannerOpen := false;
     initial := i |}.

(** [const canSave = norm(title).length>0;] *)
Definition canSave (f : form) : bool := (0 <? length (norm (f_title f)))%nat.

(** The object that the click on "Salva" hands to [onSave]:
    [{ ...initial, authorLast:norm(authorLast), ...,
       isbn:cleanISBN(isbn), ...,
       personalCoverDataUrl: personalCoverDataUrl||"", ...,
       createdAt: initial?.createdAt ?? now, updatedAt: now }]
    with [now = Date.now()]. *)
Definition save_payload (f : form) (now : Z) : book :=
  {| id := match initial f with Some b => id b | None => None end;
     authorLast := Some (norm (f_authorLast f));
     authorFirst := Some (norm (f_authorFirst f));
     title := Some (norm (f_title f));
     isbn := Some (cleanISBN (f_isbn f));
     location := Some (norm (f_location f));
     archive := Some (norm (f_archive f));
     notes := Some (norm (f_notes f));
     personalCoverDataUrl := Some (f_personalCoverDataUrl f);
     catalogCoverUrl := Some (f_catalogCoverUrl f);
     createdAt := Some match initial f with
                       | Some b => match createdAt b with
                                   | Some c => c
                                   | None => now
                                   end
                       | None => now
                       end;
     updatedAt := Some now |}.

(** The click, which the button takes when [canSave] holds
    ([disabled={!canSave}]).  [None]: nothing is saved. *)
Definition save_click (f : form) (now : Z) : option book :=
  if canSave f then Some (save_payload f now) else None.

(** A text field that is present and has no white space around it. *)
Definition normalised (x : option jsstring) : Prop :=
  exists s, x = Some s /\ norm s = s.

(** The book [b], modified at the time [now]. *)
Definition touched (b : book) (now : Z) : book :=
  {| id := id b; authorLast := authorLast b; authorFirst := authorFirst b;
     title := title b; isbn := isbn b; location := location b;
     archive := archive b; notes := notes b;
     personalCoverDataUrl := personalCoverDataUrl b;
     catalogCoverUrl := catalogCoverUrl b;
     createdAt := createdAt b; updatedAt := Some now |}.

(** A form filled in by hand, for a new book. *)
Definition a_form : form :=
  {| f_authorLast := lit " Eco"; f_authorFirst := lit "Umberto ";
     f_title := lit "  Il nome della rosa"; f_isbn := lit "978-88-452-7865-5";
     f_location := lit "studio"; f_archive := []; f_notes := [];
     f_personalCoverDataUrl := []; f_catalogCoverUrl := [];
     scannerOpen := false; initial := None |}.

(** [makeId()] of [data.js]:
    [Math.random().toString(16).slice(2) + "-" + Date.now().toString(16)],
    from the two hexadecimal strings. *)
Definition makeId (random clock : jsstring) : jsstring :=
  random ++ lit "-" ++ clock.

(** The book that [saveBook(form)] of [App] hands to [upsertBook]:
    [{ id: form.id || makeId(), authorLast: form.authorLast, ...,
       isbn: form.isbn || "", location: form.location || "", ...,
       createdAt: form.createdAt ?? now, updatedAt: now }]. *)
Definition saveBook (p : book) (fresh : jsstring) (now : Z) : book :=
  {| id := Some (if truthy (str (id p)) then str (id p) else fresh);
     authorLast := authorLast p;
     authorFirst := authorFirst p;
     title := title p;
     isbn := Some (str (isbn p));
     location := Some (str (location p));
     archive := Some (str (archive p));
     notes := Some (str (notes p));
     personalCoverDataUrl := Some (str (personalCoverDataUrl p));
     catalogCoverUrl := Some (str (catalogCoverUrl p));
     createdAt := Some match createdAt p with Some c => c | None => now end;
     updatedAt := Some now |}.

End Form.

(* ===================================================================== *)
(** ** [LocationsManager] *)
(* ===================================================================== *)

Module Locations.
Import JS Isbn.

(** [function add(){
       const v = norm(newLoc);
       if(!v || items.includes(v)) return;
       setItems([...items, v]); setNewLoc(""); }] *)
Definition add (items : list jsstring) (newLoc : jsstring) : list jsstring :=
  let v := norm newLoc in
  if negb (truthy v) || existsb (eqb v) items then items
  else items ++ [v].

(** [function remove(loc){ setItems(items.filter(x=>x!==loc)); }] *)
Definition remove (items : list jsstring) (loc : jsstring) : list jsstring :=
  List.filter (fun x => negb (eqb x loc)) items.

End Locations.

(* ===================================================================== *)
(** ** [tryApplyFocus]: the focus mode and the zoom asked of the camera *)
(* ===================================================================== *)

Module Focus.
Import JS.

(** [caps.zoom]: a range whose bounds may be missing. *)
Record range := { min : option float; max : option float }.

(** [videoTrack.getCapabilities?.() || {}] and
    [videoTrack.getSettings?.() || {}], with the members the source reads:
    [caps.focusMode] when it is an array, [caps.zoom] when it is an object,
    [settings.zoom]. *)
Record capabilities :=
  { focusMode : option (list jsstring); zoom : option range }.

Record settings := { zoom_now : option float }.

(** An element of [adv]: [{ focusMode: m }] or [{ zoom: z }]. *)
Inductive constraint :=
| FocusModeOf (m : jsstring)
| ZoomOf (z : float).

Definition is_pos_zero (x : float) : bool :=
  match classify x with PZero => true | _ => false end.

Definition is_neg_zero (x : float) : bool :=
  match classify x with NZero => true | _ => false end.

(** [Math.max(x, y)]: NaN when an argument is NaN; otherwise the running
    maximum starts at [x] and is replaced by [y] when [y] is [+0] and the
    maximum is [-0], or when [y] is greater. *)
Definition Math_max (x y : float) : float :=
  if is_nan x || is_nan y then nan
  else if is_pos_zero y && is_neg_zero x then y
  else if (x <? y)%float then y else x.

(** [Math.min(x, y)]: the same with [-0] below [+0]. *)
Definition Math_min (x y : float) : float :=
  if is_nan x || is_nan y then nan
  else if is_neg_zero y && is_pos_zero x then y
  else if (y <? x)%float then y else x.

(** [v ?? 1] *)
Definition or_one (v : option float) : float :=
  match v with Some x => x | None => 1%float end.

(** [const zmin = caps.zoom.min ?? 1;
     const zmax = caps.zoom.max ?? 1;
     const z = Math.min(Math.max(1.2, zmin), zmax);] *)
Definition zoom_target (r : range) : float :=
  let zmin := or_one (min r) in
  let zmax := or_one (max r) in
  Math_min (Math_max 1.2%float zmin) zmax.

(** [const adv = [];
     if (caps.focusMode && Array.isArray(caps.focusMode)) {
       if (caps.focusMode.includes("continuous")) adv.push({ focusMode: "continuous" });
       else if (caps.focusMode.includes("auto")) adv.push({ focusMode: "auto" }); }
     if (caps.zoom) { ...
       if (z !== (settings.zoom ?? 1)) adv.push({ zoom: z }); }] *)
Definition advanced (caps : capabilities) (st : settings) : list constraint :=
  match focusMode caps with
  | Some modes =>
      if existsb (eqb (lit "continuous")) modes then [FocusModeOf (lit "continuous")]
      else if existsb (eqb (lit "auto")) modes then [FocusModeOf (lit "auto")]
      else []
  | None => []
  end
  ++ match zoom caps with
     | Some r =>
         let z := zoom_target r in
         if negb (z =? or_one (zoom_now st))%float then [ZoomOf z] else []
     | None => []
     end.

(** [if (adv.length) await videoTrack.applyConstraints({ advanced: adv });]
    The call made, if one is made; what it throws is caught and dropped. *)
Definition tryApplyFocus (caps : capabilities) (st : settings)
  : option (list constraint) :=
  match advanced caps st with
  | [] => None
  | adv => Some adv
  end.

(** A phone camera that zooms from 1 to 5, and one that starts at 2. *)
Definition phone : capabilities :=
  {| focusMode := Some [lit "manual"; lit "continuous"; lit "auto"];
     zoom := Some {| min := Some 1%float; max := Some 5%float |} |}.

Definition tele : capabilities :=
  {| focusMode := Some [lit "auto"];
     zoom := Some {| min := Some 2%float; max := Some 10%float |} |}.

End Focus.

(* ===================================================================== *)
(** ** [data.js]: the books and the locations in Firestore *)
(* ===================================================================== *)

Module Data.
Import JS Text.

Section Documents.

(** The values of the fields of a document, other than [id]. *)
Variable V : Type.

(** A book object, and the data of a book document: its [id], when it has
    one, and its other fields by name.  Identifiers are strings without
    "/", as [makeId] makes them: one segment of a document path. *)
Record book := { id : option jsstring; fields : gmap jsstring V }.

(** The collection [libraries/biblioteca-scott/books], by document
    identifier, and the document [libraries/biblioteca-scott/meta/settings]:
    [None] when it does not exist, otherwise its [locations] when that is
    an array. *)
Record store :=
  { books : gmap jsstring book;
    meta : option (option (list jsstring)) }.

Definition empty : store := {| books := ∅; meta := None |}.

(** [books.sort((a, b) => (a.authorLast || "").localeCompare(b.authorLast || "", "it")
                          || (a.title || "").localeCompare(b.title || "", "it"))]:
    the documents in the order of the Italian collation of author and
    title. *)
Variable sort_it : list book -> list book.

(** [{ id: d.id, ...d.data() }]: the identifier of the document, unless
    the data has an [id] of its own. *)
Definition listed (k : jsstring) (d : book) : book :=
  {| id := Some match id d with Some i => i | None => k end;
     fields := fields d |}.

(** [export async function listBooks()] *)
Definition listBooks (st : store) : list book :=
  sort_it (List.map (fun kd => listed (fst kd) (snd kd)) (map_to_list (books st))).

(** [setDoc(ref, book, { merge: true })] on a document that may exist: the
    fields of [book] are written, the other fields of the document stay.
    The value of a field is taken as a whole; Firestore merges a field that
    holds a map member by member, which is not described here. *)
Definition merge_doc (b : book) (old : option book) : book :=
  {| id := id b;
     fields := fields b ∪ match old with Some d => fields d | None => ∅ end |}.

(** [export async function upsertBook(book) {
       const ref = doc(db, "libraries", LIBRARY_ID, "books", book.id);
       await setDoc(ref, book, { merge: true }); }]
    [doc] throws when [book.id] is missing or empty ([None]).  The
    identifier is taken to be one segment of a document path, as [makeId]
    makes it and as the identifiers that [listBooks] reads are: [doc]
    reads an identifier with a "/" in it as a path of several segments,
    which is not described here. *)
Definition upsertBook (st : store) (b : book) : option store :=
  match id b with
  | Some i =>
      if truthy i
      then Some {| books := <[i := merge_doc b (books st !! i)]> (books st);
                   meta := meta st |}
      else None
  | None => None
  end.

(** [export async function deleteBook(id) {
       const ref = doc(db, "libraries", LIBRARY_ID, "books", id);
       await deleteDoc(ref); }] *)
Definition deleteBook (st : store) (i : option jsstring) : option store :=
  match i with
  | Some i =>
      if truthy i
      then Some {| books := delete i (books st); meta := meta st |}
      else None
  | None => None
  end.

Definition defaults : list jsstring :=
  [lit "salone"; lit "camera matrimoniale"; lit "camera Niki";
   lit "camera Francesco"; lit "camera Cecilia"; lit "studio"].

(** [export async function setLocations(locs) {
       await setDoc(metaDoc(), { locations: locs }, { merge: true }); }] *)
Definition setLocations (st : store) (locs : list jsstring) : store :=
  {| books := books st; meta := Some (Some locs) |}.

(** [export async function getLocations() {
       const snap = await getDoc(ref);
       if (!snap.exists()) {
         const defaults = [...];
         await setDoc(ref, { locations: defaults }, { merge: true });
         return defaults; }
       const data = snap.data();
       const locs = Array.isArray(data.locations) ? data.locations : [];
       return locs.length ? locs : ["salone"]; }]
    The list returned, and the store afterwards. *)
Definition getLocations (st : store) : list jsstring * store :=
  match meta st with
  | None => (defaults, setLocations st defaults)
  | Some data =>
      let locs := match data with Some l => l | None => [] end in
      (match locs with [] => [lit "salone"] | _ :: _ => locs end, st)
  end.

(** The backup object, with the members [importBackupJSON] reads being
    optional, as in a file that was not written by [exportBackupJSON]. *)
Record payload :=
  { version : Z;
    exportedAt : Z;
    libraryId : jsstring;
    locations : option (list jsstring);
    p_books : option (list book) }.

(** [export async function exportBackupJSON() {
       const books = await listBooks();
       const locations = await getLocations();
       return { version: 2, exportedAt: Date.now(), libraryId: LIBRARY_ID,
                locations, books }; }] *)
Definition exportBackupJSON (st : store) (now : Z) : payload * store :=
  let bs := listBooks st in
  let '(locs, st1) := getLocations st in
  ({| version := 2; exportedAt := now; libraryId := lit "biblioteca-scott";
      locations := Some locs; p_books := Some bs |}, st1).

(** [for (const b of existing) await deleteBook(b.id);] *)
Fixpoint delete_each (st : store) (existing : list book) : option store :=
  match existing with
  | [] => Some st
  | b :: rest =>
      match deleteBook st (id b) with
      | Some st' => delete_each st' rest
      | None => None
      end
  end.

(** [for (const b of incoming) { if (!b.id) continue; await upsertBook(b); }] *)
Fixpoint upsert_each (st : store) (incoming : list book) : option store :=
  match incoming with
  | [] => Some st
  | b :: rest =>
      if negb (truthy (str (id b))) then upsert_each st rest
      else match upsertBook st b with
           | Some st' => upsert_each st' rest
           | None => None
           end
  end.

(** [const incoming = payload?.books || [];
     const incomingLocs = payload?.locations || [];] *)
Definition incoming (p : option payload) : list book :=
  match p with
  | Some q => match p_books q with Some l => l | None => [] end
  | None => []
  end.

Definition incomingLocs (p : option payload) : list jsstring :=
  match p with
  | Some q => match locations q with Some l => l | None => [] end
  | None => []
  end.

(** [export async function importBackupJSON(payload, { mode = "merge" } = {}) {
       ...
       if (incomingLocs.length) await setLocations(incomingLocs);
       if (mode === "replace") {
         const existing = await listBooks();
         for (const b of existing) await deleteBook(b.id); }
       for (const b of incoming) { if (!b.id) continue; await upsertBook(b); } }]
    [None]: the promise is rejected. *)
Definition importBackupJSON (p : option payload) (mode : jsstring) (st : store)
  : option store :=
  let st1 := match incomingLocs p with
             | [] => st
             | _ :: _ => setLocations st (incomingLocs p)
             end in
  match (if eqb mode (lit "replace") then delete_each st1 (listBooks st1)
         else Some st1) with
  | Some st2 => upsert_each st2 (incoming p)
  | None => None
  end.

(** [export async function clearAllData() {
       const existing = await listBooks();
       for (const b of existing) await deleteBook(b.id);
       await setLocations(["salone", ...]); }] *)
Definition clearAllData (st : store) : option store :=
  match delete_each st (listBooks st) with
  | Some st1 => Some (setLocations st1 defaults)
  | None => None
  end.

(** Every document carries its own identifier in its [id] field, as the
    documents that [upsertBook] writes do. *)
Definition consistent (st : store) : Prop :=
  forall k d, books st !! k = Some d -> id d = Some k /\ truthy k = true.

(** The document that the writes of [incoming] leave under the identifier
    [k], on top of the document [old]. *)
Fixpoint written_under (k : jsstring) (incoming : list book) (old : option book)
  : option book :=
  match incoming with
  | [] => old
  | b :: rest =>
      match id b with
      | Some i =>
          if truthy i && eqb i k
          then written_under k rest (Some (merge_doc b old))
          else written_under k rest old
      | None => written_under k rest old
      end
  end.

(** The store without its books. *)
Definition wiped (st : store) : store := {| books := ∅; meta := meta st |}.

(** The identifiers of the books of a list that [importBackupJSON] writes. *)
Definition written (incoming : list book) : list jsstring :=
  omap (fun b => match id b with
                 | Some i => if truthy i then Some i else None
                 | None => None
                 end) incoming.

End Documents.

Arguments id {V} b.
Arguments fields {V} b.
Arguments books {V} s.
Arguments meta {V} s.
Arguments empty {V}.
Arguments listed {V} k d.
Arguments listBooks {V} sort_it st.
Arguments merge_doc {V} b old.
Arguments upsertBook {V} st b.
Arguments deleteBook {V} st i.
Arguments setLocations {V} st locs.
Arguments getLocations {V} st.
Arguments version {V} p.
Arguments exportedAt {V} p.
Arguments libraryId {V} p.
Arguments locations {V} p.
Arguments p_books {V} p.
Arguments exportBackupJSON {V} sort_it st now.
Arguments delete_each {V} st existing.
Arguments upsert_each {V} st incoming.
Arguments incoming {V} p.
Arguments incomingLocs {V} p.
Arguments importBackupJSON {V} sort_it p mode st.
Arguments wiped {V} st.
Arguments written_under {V} k incoming old.
Arguments clearAllData {V} sort_it st.
Arguments consistent {V} st.
Arguments written {V} incoming.

(** A store with one book and no settings yet; the documents are listed
    as they come. *)
Definition shelf : store jsstring :=
  {| books := {[ lit "3fa2-18c" :=
                   {| id := Some (lit "3fa2-18c");
                      fields := {[ lit "title" := lit "Il nome della rosa" ]} |} ]};
     meta := None |}.

Definition as_stored (l : list (book jsstring)) : list (book jsstring) := l.

End Data.

(* ===================================================================== *)
(** ** The local database: the IndexedDB wrapper and its backups *)
(* ===================================================================== *)

Module LocalDB.
Import JS Text.

(** [Array.prototype.sort] with a comparator that is consistent: the sort
    is stable, so the result is that of inserting each element, from the
    last to the first, before the first element it does not come after.
    [before a b] is [compare(a, b) <= 0]. *)
Fixpoint insert {A} (before : A -> A -> bool) (x : A) (l : list A) : list A :=
  match l with
  | [] => [x]
  | y :: r => if before x y then x :: l else y :: insert before x r
  end.

Definition sort {A} (before : A -> A -> bool) (l : list A) : list A :=
  foldr (insert before) [] l.

(** Each element of the list comes before, by [R], all those after it. *)
Fixpoint ordered {A} (R : A -> A -> Prop) (l : list A) : Prop :=
  match l with
  | [] => True
  | x :: r => Forall (R x) r /\ ordered R r
  end.

(** [Array.from(new Set(l))]: the first occurrence of each string, in the
    order of the list. *)
Fixpoint Set_from (l : list jsstring) : list jsstring :=
  match l with
  | [] => []
  | x :: r => x :: List.filter (fun y => negb (eqb y x)) (Set_from r)
  end.

(** The order of IndexedDB on string keys: by code units. *)
Fixpoint key_le (a b : jsstring) : bool :=
  match a, b with
  | [], _ => true
  | _ :: _, [] => false
  | x :: a', y :: b' => (x <? y)%N || ((x =? y)%N && key_le a' b')
  end.

Section Records.

(** The members of a book that the wrapper does not read, and blobs. *)
Variable B : Type.
Variable blob : Type.

(** What is stored of a book besides its key [id]: the times, as
    milliseconds, when the book has them, the cover and the rest. *)
Record content :=
  { createdAt : option Z;
    updatedAt : option Z;
    coverBlob : option blob;
    other : B }.

(** A book object. *)
Record book := { id : option jsstring; data : content }.

(** A book of a backup: [{ ...rest, coverDataUrl }]. *)
Record exported :=
  { e_id : option jsstring;
    e_createdAt : option Z;
    e_updatedAt : option Z;
    coverDataUrl : option jsstring;
    e_other : B }.

(** The object store [books], whose key path is [id], so that a book is
    stored under its own [id]; and the value of the record [locations] of
    the object store [meta], when there is one. *)
Record db :=
  { books : gmap jsstring content;
    locations : option (list jsstring) }.

Definition empty : db := {| books := ∅; locations := None |}.

Definition defaults : list jsstring :=
  [lit "Salone"; lit "Camera matrimoniale"; lit "Camera Niki";
   lit "Camera Francesco"; lit "Camera Cecilia"; lit "Studio"].

(** [export async function getLocations()]: [req.result?.value ?? null],
    then [result ?? [ "Salone", ... ]]. *)
Definition getLocations (d : db) : list jsstring :=
  match locations d with Some l => l | None => defaults end.

(** [tx.objectStore(STORES.meta).put({ key: "locations", value: locations })] *)
Definition setLocations (d : db) (l : list jsstring) : db :=
  {| books := books d; locations := Some l |}.

(** [store.getAll()]: the records in the order of their keys. *)
Definition getAll (d : db) : list book :=
  List.map (fun kc => {| id := Some (fst kc); data := snd kc |})
           (sort (fun x y => key_le (fst x) (fst y)) (map_to_list (books d))).

(** [x || 0] on a time. *)
Definition or_zero (t : option Z) : Z := match t with Some z => z | None => 0%Z end.

(** [export async function listBooks()]:
    [return books.sort((a, b) => (b.createdAt || 0) - (a.createdAt || 0));] *)
Definition listBooks (d : db) : list book :=
  sort (fun a b => (or_zero (createdAt (data b)) - or_zero (createdAt (data a)) <=? 0)%Z)
       (getAll d).

(** [export async function getBook(id)]: [req.result ?? null]. *)
Definition getBook (d : db) (i : jsstring) : option book :=
  match books d !! i with
  | Some c => Some {| id := Some i; data := c |}
  | None => None
  end.

(** [export async function upsertBook(book)]:
    [tx.objectStore(STORES.books).put(book)], which throws when the book
    has no [id] ([None]). *)
Definition upsertBook (d : db) (b : book) : option db :=
  match id b with
  | Some i => Some {| books := <[i := data b]> (books d); locations := locations d |}
  | None => None
  end.

(** [export async function deleteBook(id)] *)
Definition deleteBook (d : db) (i : jsstring) : db :=
  {| books := delete i (books d); locations := locations d |}.

(** [export async function clearAllData()]: the object store of the books
    is cleared and the record of the locations deleted. *)
Definition clearAllData (d : db) : db := empty.

(** The backup object, as read from a file: a member that is missing, or
    is not of the kind [importBackupJSON] asks for, is [None]. *)
Record payload :=
  { schemaVersion : option Z;
    p_locations : option (list jsstring);
    p_books : option (list exported) }.

(** How a call of [importBackupJSON] ends. *)
Inductive settled :=
| Fulfilled
| Invalid     (* Error("Backup non valido o schema non supportato.") *)
| Failed.     (* a cover that cannot be fetched, or a book without id *)

(** [async function dataURLToBlob(dataUrl)], for a URL that is not empty:
    [(await fetch(dataUrl)).blob()]; [None] when [fetch] rejects. *)
Variable dataURLToBlob : jsstring -> option blob.

(** [!payload || payload.schemaVersion !== 1 || !Array.isArray(payload.books)],
    negated. *)
Definition valid (p : option payload) : bool :=
  match p with
  | Some q =>
      match schemaVersion q, p_books q with
      | Some 1%Z, Some _ => true
      | _, _ => false
      end
  | None => false
  end.

(** [const locSet = new Set([...currentLocs, ...incomingLocs]
       .map((x) => (x || "").trim()).filter(Boolean));] as an array. *)
Definition merged_locations (currentLocs incomingLocs : list jsstring)
  : list jsstring :=
  Set_from (filter_Boolean (List.map trim (currentLocs ++ incomingLocs))).

(** [const coverBlob = inb.coverDataUrl ? await dataURLToBlob(inb.coverDataUrl) : null;]
    [None]: the promise is rejected. *)
Definition cover_of (inb : exported) : option (option blob) :=
  match coverDataUrl inb with
  | Some u => if truthy u
              then match dataURLToBlob u with
                   | Some bl => Some (Some bl)
                   | None => None
                   end
              else Some None
  | None => Some None
  end.

(** [{ ...rest, coverBlob }] *)
Definition restored (inb : exported) (cover : option blob) : book :=
  {| id := e_id inb;
     data := {| createdAt := e_createdAt inb; updatedAt := e_updatedAt inb;
                coverBlob := cover; other := e_other inb |} |}.

(** [const existing = currentMap.get(rest.id);
     if (mode === "merge" && existing) {
       const exU = existing.updatedAt || 0;
       const inU = rest.updatedAt || 0;
       if (inU <= exU) continue; }] *)
Definition skipped (currentMap : gmap jsstring content) (merge : bool)
    (inb : exported) : bool :=
  match e_id inb with
  | Some i =>
      match currentMap !! i with
      | Some existing =>
          merge && (or_zero (e_updatedAt inb) <=? or_zero (updatedAt existing))%Z
      | None => false
      end
  | None => false
  end.

(** [for (const inb of payload.books) { ...; await upsertBook({ ...rest, coverBlob }); }]
    with the database as it is when the loop ends or fails. *)
Fixpoint import_each (currentMap : gmap jsstring content) (merge : bool)
    (d : db) (l : list exported) : db * settled :=
  match l with
  | [] => (d, Fulfilled)
  | inb :: r =>
      match cover_of inb with
      | None => (d, Failed)
      | Some cover =>
          if skipped currentMap merge inb then import_each currentMap merge d r
          else match upsertBook d (restored inb cover) with
               | Some d' => import_each currentMap merge d' r
               | None => (d, Failed)
               end
      end
  end.

(** [export async function importBackupJSON(payload, { mode = "merge" } = {})].
    [currentMap], the map from the [id] of each stored book to the book,
    is the object store as it is before the loop. *)
Definition importBackupJSON (p : option payload) (mode : jsstring) (d : db)
  : db * settled :=
  if negb (valid p) then (d, Invalid)
  else
    let incomingLocs :=
      match p with
      | Some q => match p_locations q with Some l => l | None => [] end
      | None => []
      end in
    let incoming :=
      match p with
      | Some q => match p_books q with Some l => l | None => [] end
      | None => []
      end in
    let d1 := setLocations d (merged_locations (getLocations d) incomingLocs) in
    import_each (books d1) (eqb mode (lit "merge")) d1 incoming.

(** The identifiers of the books of a backup. *)
Definition ids (l : list exported) : list (option jsstring) := List.map e_id l.

End Records.

Arguments createdAt {B blob} c.
Arguments updatedAt {B blob} c.
Arguments coverBlob {B blob} c.
Arguments other {B blob} c.
Arguments id {B blob} b.
Arguments data {B blob} b.
Arguments e_id {B} e.
Arguments e_createdAt {B} e.
Arguments e_updatedAt {B} e.
Arguments coverDataUrl {B} e.
Arguments e_other {B} e.
Arguments books {B blob} d.
Arguments locations {B blob} d.
Arguments empty {B blob}.
Arguments getLocations {B blob} d.
Arguments setLocations {B blob} d l.
Arguments getAll {B blob} d.
Arguments listBooks {B blob} d.
Arguments getBook {B blob} d i.
Arguments upsertBook {B blob} d b.
Arguments deleteBook {B blob} d i.
Arguments clearAllData {B blob} d.
Arguments schemaVersion {B} p.
Arguments p_locations {B} p.
Arguments p_books {B} p.
Arguments valid {B} p.
Arguments cover_of {B blob} dataURLToBlob inb.
Arguments restored {B blob} inb cover.
Arguments skipped {B blob} currentMap merge inb.
Arguments import_each {B blob} dataURLToBlob currentMap merge d l.
Arguments importBackupJSON {B blob} dataURLToBlob p mode d.
Arguments ids {B} l.

(** A database with one book, written at time 5, and two backups of that
    book: an older one, and one in which the book occurs twice. *)
Definition one_book : db unit jsstring :=
  {| books := {[ lit "b1" := {| createdAt := Some 1%Z; updatedAt := Some 5%Z;
                               coverBlob := None; other := tt |} ]};
     locations := Some [lit "Studio"] |}.

Definition version_of (t : Z) : exported unit :=
  {| e_id := Some (lit "b1"); e_createdAt := Some 1%Z; e_updatedAt := Some t;
     coverDataUrl := None; e_other := tt |}.

Definition backup (l : list (exported unit)) : option (payload unit) :=
  Some {| schemaVersion := Some 1%Z; p_locations := Some [lit " Cantina "; lit "Studio"];
          p_books := Some l |}.

Definition no_fetch (u : jsstring) : option jsstring := Some u.

End LocalDB.

(* ===================================================================== *)
(** ** What a session does, by kind *)
(* ===================================================================== *)

Module Trace.
Import JS Session.


(** What the loop of the native detector does with the camera, and what
    the loop of the software decoder does. *)
Definition is_native (a : action) : bool :=
  match a with DrawImage _ | Detect _ => true | _ => false end.

Definition is_software (a : action) : bool :=
  match a with Decode => true | _ => false end.

Definition none (p : action -> bool) (acts : list action) : bool :=
  forallb (fun a => negb (p a)) acts.

(** The loop that has run so far, by the point where the session is
    suspended: none before [video.play()] has settled, then the one that
    was started. *)
Definition one_loop (c : control) (acts : list action) : bool :=
  match c with
  | AwaitStream | AwaitPlay => none is_native acts && none is_software acts
  | NativeTimer | NativeDetect => none is_software acts
  | SoftTimer | SoftDecode => none is_native acts
  | Finished => none is_software acts || none is_native acts
  end.

End Trace.

(* ===================================================================== *)
(** * Properties *)
(* ===================================================================== *)

(** ** Normalisation and validity of ISBN strings *)

Section IsbnFacts.
Import JS Isbn.

Lemma eqb_eq (a b : jsstring) : eqb a b = true <-> a = b.
Proof. unfold eqb. apply bool_decide_eq_true. Qed.

Lemma eqb_neq (a b : jsstring) : eqb a b = false <-> a <> b.
Proof. unfold eqb. apply bool_decide_eq_false. Qed.

Lemma white_space_not_in_class c : is_white_space c = true -> isbn_class c = false.
Proof.
  unfold is_white_space, isbn_class, is_digit, in_range. intros H.
  repeat rewrite orb_true_iff in H. repeat rewrite andb_true_iff in H.
  repeat rewrite N.leb_le in H. repeat rewrite N.eqb_eq in H.
  repeat rewrite orb_false_iff. repeat rewrite andb_false_iff.
  repeat rewrite N.leb_gt. repeat rewrite N.eqb_neq. lia.
Qed.

Lemma filter_trimStart s :
  List.filter isbn_class (trimStart s) = List.filter isbn_class s.
Proof.
  induction s as [|c r IH]; simpl; [reflexivity|].
  destruct (is_white_space c) eqn:W; [|reflexivity].
  rewrite (white_space_not_in_class _ W). exact IH.
Qed.

Lemma filter_rev {A} (f : A -> bool) l :
  List.filter f (rev l) = rev (List.filter f l).
Proof.
  induction l as [|a l IH]; simpl; [reflexivity|].
  rewrite List.filter_app, IH. simpl. destruct (f a); simpl.
  - reflexivity.
  - rewrite app_nil_r. reflexivity.
Qed.

Lemma filter_trim s : List.filter isbn_class (trim s) = List.filter isbn_class s.
Proof.
  unfold trim, trimEnd.
  rewrite filter_rev, filter_trimStart, filter_rev, rev_involutive.
  apply filter_trimStart.
Qed.

Lemma cleanISBN_unfold s :
  cleanISBN s = firstn 13 (List.map upper (List.filter isbn_class s)).
Proof.
  unfold cleanISBN, norm, toUpperCase, replace_not_in_class, slice0.
  rewrite filter_trim.
  destruct (Nat.ltb_spec 13 (length (List.map upper (List.filter isbn_class s))))
    as [Hlt|Hle]; [reflexivity|].
  symmetry. apply firstn_all2. exact Hle.
Qed.

Lemma upper_class c : isbn_class c = true -> is_isbn_char (upper c) = true.
Proof.
  unfold isbn_class, is_isbn_char, is_digit, upper, in_range. intros H.
  repeat rewrite orb_true_iff in H. repeat rewrite andb_true_iff in H.
  repeat rewrite N.leb_le in H. repeat rewrite N.eqb_eq in H.
  destruct H as [[[H1 H2]|H]|H].
  - replace ((97 <=? c)%N) with false by (symmetry; apply N.leb_gt; lia).
    simpl. apply orb_true_iff. left. apply andb_true_iff.
    split; apply N.leb_le; lia.
  - subst c. reflexivity.
  - subst c. reflexivity.
Qed.

Lemma isbn_char_fixed c :
  is_isbn_char c = true -> isbn_class c = true /\ upper c = c.
Proof.
  unfold isbn_class, is_isbn_char, is_digit, upper, in_range. intros H.
  repeat rewrite orb_true_iff in H. repeat rewrite andb_true_iff in H.
  repeat rewrite N.leb_le in H. repeat rewrite N.eqb_eq in H.
  destruct H as [[H1 H2]|H].
  - replace ((97 <=? c)%N) with false by (symmetry; apply N.leb_gt; lia).
    split; [|reflexivity].
    apply orb_true_iff. left. apply orb_true_iff. left.
    apply andb_true_iff. split; apply N.leb_le; lia.
  - subst c. split; reflexivity.
Qed.

(** Every character of a cleaned string is a digit or an uppercase X. *)
Lemma cleanISBN_chars s : Forall (fun c => is_isbn_char c = true) (cleanISBN s).
Proof.
  rewrite cleanISBN_unfold. apply Forall_take.
  induction s as [|c r IH]; simpl; [constructor|].
  destruct (isbn_class c) eqn:K; [|exact IH].
  simpl. constructor; [apply upper_class; exact K | exact IH].
Qed.

Lemma cleanISBN_length s : (length (cleanISBN s) <= 13)%nat.
Proof. rewrite cleanISBN_unfold. rewrite length_firstn. lia. Qed.

(** A string of at most 13 digits and X's is its own cleaned form. *)
Lemma cleanISBN_fixed x :
  Forall (fun c => is_isbn_char c = true) x -> (length x <= 13)%nat ->
  cleanISBN x = x.
Proof.
  intros Hc Hl. rewrite cleanISBN_unfold.
  assert (E : List.map upper (List.filter isbn_class x) = x).
  { clear Hl. induction Hc as [|c r Hc _ IH]; simpl; [reflexivity|].
    destruct (isbn_char_fixed _ Hc) as [K U]. rewrite K. simpl.
    rewrite U, IH. reflexivity. }
  rewrite E. apply firstn_all2. exact Hl.
Qed.

Lemma cleanISBN_idempotent s : cleanISBN (cleanISBN s) = cleanISBN s.
Proof.
  apply cleanISBN_fixed; [apply cleanISBN_chars | apply cleanISBN_length].
Qed.

(** C5.  [cleanISBN] deletes every character except the decimal digits and
    the letters X and x, uppercases what is left and keeps at most the
    first 13 characters (it agrees with [normalize_spec] on every string),
    and it is idempotent. *)
Theorem cleanISBN_normalizes_and_is_idempotent :
  forall s : jsstring,
    cleanISBN s = normalize_spec s /\
    cleanISBN (cleanISBN s) = cleanISBN s.
Proof.
  intros s. split.
  - apply cleanISBN_unfold.
  - apply cleanISBN_idempotent.
Qed.

Example cleanISBN_hyphenated :
  cleanISBN (lit " 978-0-13-110362-7 ") = lit "9780131103627".
Proof. reflexivity. Qed.

Example cleanISBN_lowercase_x : cleanISBN (lit "0-8044-2957-x") = lit "080442957X".
Proof. reflexivity. Qed.

Example cleanISBN_truncates :
  cleanISBN (lit "97801311036271234") = lit "9780131103627".
Proof. reflexivity. Qed.

Lemma isValidISBN_length s :
  isValidISBN s = true <->
  length (cleanISBN s) = 10%nat \/ length (cleanISBN s) = 13%nat.
Proof.
  unfold isValidISBN. cbv zeta.
  rewrite orb_true_iff, !Nat.eqb_eq. reflexivity.
Qed.

(** C6, as stated, fails: an X in the middle of ten characters is valid for
    the code, which looks at the length only. *)
Lemma isValidISBN_accepts_inner_X :
  ~ (isValidISBN (lit "1X34567890") = true <->
     isValid_spec (lit "1X34567890") = true).
Proof.
  intros [H _]. specialize (H eq_refl). vm_compute in H. discriminate H.
Qed.

(** C6, amended.  [isValidISBN s] holds exactly when the cleaned string has
    length 10 or 13; that string consists of digits and uppercase X's only,
    and neither the number nor the position of the X's is looked at.  The
    shape of the specification is sufficient, not necessary. *)
Theorem isValidISBN_iff_length :
  forall s : jsstring,
    (isValidISBN s = true <->
       length (cleanISBN s) = 10%nat \/ length (cleanISBN s) = 13%nat) /\
    Forall (fun c => is_isbn_char c = true) (cleanISBN s) /\
    (isValid_spec s = true -> isValidISBN s = true).
Proof.
  intros s. split; [apply isValidISBN_length|]. split; [apply cleanISBN_chars|].
  unfold isValid_spec, isValidISBN. cbv zeta.
  rewrite andb_true_iff. tauto.
Qed.

Example isValidISBN_13 : isValidISBN (lit "9780131103627") = true.
Proof. reflexivity. Qed.

Example isValidISBN_short : isValidISBN (lit "12345") = false.
Proof. reflexivity. Qed.

Example isValidISBN_many_X : isValidISBN (lit "XXXXXXXXXX") = true.
Proof. reflexivity. Qed.

End IsbnFacts.

(** ** The gate *)

Section GateFacts.
Import JS Gate.

Lemma truthy_nonempty (c : jsstring) : truthy c = true <-> c <> [].
Proof. destruct c; simpl; split; congruence. Qed.

Lemma observe_empty l : observe l [] = (l, false).
Proof. reflexivity. Qed.

Lemma observe_cons l c r :
  observe l (c :: r) = (bump l (c :: r), confirmed (bump l (c :: r))).
Proof. reflexivity. Qed.

Lemma confirmed_iff l : confirmed l = true <-> (2 <= hits l)%Z.
Proof. unfold confirmed. apply Z.leb_le. Qed.

(** C2.  On a non-empty candidate the gate adds one to [hits] when the
    candidate equals [value], and otherwise stores the candidate with
    [hits = 1]; it reports a confirmation exactly when [hits >= 2]
    afterwards.  From the initial gate, the same ISBN twice confirms on the
    second observation; a different second ISBN does not confirm, and its
    repetition as a third observation does. *)
Theorem gate_observe_transition :
  (forall (l : last) (c : code_unit) (r : jsstring),
      let cand := c :: r in
      fst (observe l cand) =
        (if bool_decide (value l = cand)
         then {| value := value l; hits := hits l + 1 |}
         else {| value := cand; hits := 1 |}) /\
      (snd (observe l cand) = true <-> (2 <= hits (fst (observe l cand)))%Z)) /\
  initial = {| value := lit ""; hits := 0 |} /\
  feed initial [lit "9780131103627"; lit "9780131103627"] = [false; true] /\
  feed initial [lit "9780131103627"; lit "9780000000000"] = [false; false] /\
  feed initial [lit "9780131103627"; lit "9780000000000"; lit "9780000000000"]
    = [false; false; true].
Proof.
  split; [|repeat split; reflexivity].
  intros l c r cand. subst cand. rewrite observe_cons. simpl fst. simpl snd.
  split; [reflexivity | apply confirmed_iff].
Qed.

End GateFacts.

Section HeapFacts.
Import JS Gate Heap.

Lemma deref_set_new st c :
  deref (set_new st c) (current (set_new st c)) = {| value := c; hits := 1 |}.
Proof.
  unfold deref, set_new. simpl.
  rewrite lookup_app_r by lia. rewrite Nat.sub_diag. reflexivity.
Qed.

Lemma deref_incr_hits st :
  well_formed st ->
  deref (incr_hits st (current st)) (current st) =
  {| value := value (deref st (current st));
     hits := hits (deref st (current st)) + 1 |}.
Proof.
  intros W. unfold deref at 1. unfold incr_hits. simpl.
  rewrite list_lookup_insert_eq by exact W. reflexivity.
Qed.

(** The heap version is the pure gate on the object [lastRef.current]
    refers to, and it keeps the reference valid. *)
Lemma observe_ref_refines st c :
  well_formed st ->
  let '(st', b) := observe_ref st c in
  (deref st' (current st'), b) = observe (deref st (current st)) c /\
  well_formed st'.
Proof.
  intros W. unfold observe_ref, observe.
  destruct (truthy c); [|split; [reflexivity|exact W]].
  unfold bump, confirmed.
  destruct (eqb (value (deref st (current st))) c).
  - simpl. rewrite deref_incr_hits by exact W. split; [reflexivity|].
    unfold well_formed, incr_hits. simpl. rewrite length_insert. exact W.
  - rewrite deref_set_new. split; [reflexivity|].
    unfold well_formed, set_new. simpl. rewrite length_app. simpl. lia.
Qed.

End HeapFacts.

(** ** Binary64 arithmetic: the floor of a rounded product *)

Section Binary64Facts.
Import Conditioner.
Open Scope Z_scope.

Lemma iter_pos_nat {A} (f : A -> A) p : forall x,
  SpecFloat.iter_pos f p x = Nat.iter (Pos.to_nat p) f x.
Proof.
  induction p as [p IH|p IH|]; intros x; cbn [SpecFloat.iter_pos].
  - rewrite !IH. rewrite Pos2Nat.inj_xI. 
    rewrite <- Nat.iter_add. rewrite <- Nat.iter_succ_r. f_equal. lia.
  - rewrite !IH. rewrite Pos2Nat.inj_xO. rewrite <- Nat.iter_add. f_equal. lia.
  - reflexivity.
Qed.

Lemma shr_1_nonneg m r s : 0 <= m ->
  shr_1 {| shr_m := m; shr_r := r; shr_s := s |}
  = {| shr_m := m / 2; shr_r := Z.odd m; shr_s := r || s |}.
Proof.
  intros Hm. destruct m as [|p|p]; [reflexivity| |lia].
  destruct p as [p|p|]; simpl shr_1.
  - f_equal. rewrite Pos2Z.inj_xI. rewrite Z.add_comm, Z.mul_comm, Z.div_add by lia. reflexivity.
  - f_equal. rewrite Pos2Z.inj_xO. rewrite Z.mul_comm, Z.div_mul by lia. reflexivity.
  - reflexivity.
Qed.

Lemma shr_iter m : 0 <= m -> forall j : nat,
  let rec := Nat.iter j shr_1 {| shr_m := m; shr_r := false; shr_s := false |} in
  0 <= shr_m rec /\ located m (shr_m rec) (Z.of_nat j) (shr_r rec) (shr_s rec).
Proof.
  intros Hm. induction j as [|j IH].
  - simpl. split; [exact Hm|]. unfold located. simpl. lia.
  - cbn zeta in IH |- *. rewrite Nat.iter_succ.
    destruct (Nat.iter j shr_1 _) as [q r s]. simpl in IH.
    destruct IH as [Hq [Hrem Hloc]].
    rewrite shr_1_nonneg by exact Hq. simpl.
    split; [apply Z.div_pos; lia|].
    unfold located. rewrite Nat2Z.inj_succ, Z.pow_succ_r by lia.
    pose proof (Z.div_mod q 2 ltac:(lia)) as Dq.
    rewrite Zmod_odd in Dq.
    assert (Hp : 0 < 2 ^ Z.of_nat j) by (apply Z.pow_pos_nonneg; lia).
    set (P := 2 ^ Z.of_nat j) in *. set (h := q / 2) in *.
    destruct (Z.odd q), r, s; simpl; nia.
Qed.

Lemma round_located m q j r s :
  0 <= q -> located m q j r s ->
  let Q := round_nearest_even q
             (loc_of_shr_record {| shr_m := q; shr_r := r; shr_s := s |}) in
  q <= Q <= q + 1 /\ - 2 ^ j <= 2 * (Q * 2 ^ j - m) <= 2 ^ j.
Proof.
  intros Hq [Hrem Hloc]. cbv zeta in Hrem.
  set (P := 2 ^ j) in *.
  destruct r, s; simpl; try destruct (Z.even q); nia.
Qed.

Lemma digits2_bounds p :
  2 ^ (Zpos (digits2_pos p) - 1) <= Zpos p < 2 ^ Zpos (digits2_pos p).
Proof.
  induction p as [p IH|p IH|]; cbn [digits2_pos].
  - rewrite Pos2Z.inj_succ. change (Zpos p~1) with (2 * Zpos p + 1).
    replace (Z.succ (Zpos (digits2_pos p)) - 1) with (Z.succ (Zpos (digits2_pos p) - 1)) by lia.
    rewrite !Z.pow_succ_r by lia.
    set (A := 2 ^ (Zpos (digits2_pos p) - 1)) in *.
    set (B := 2 ^ Zpos (digits2_pos p)) in *. clearbody A B. lia.
  - rewrite Pos2Z.inj_succ. change (Zpos p~0) with (2 * Zpos p).
    replace (Z.succ (Zpos (digits2_pos p)) - 1) with (Z.succ (Zpos (digits2_pos p) - 1)) by lia.
    rewrite !Z.pow_succ_r by lia.
    set (A := 2 ^ (Zpos (digits2_pos p) - 1)) in *.
    set (B := 2 ^ Zpos (digits2_pos p)) in *. clearbody A B. lia.
  - simpl. lia.
Qed.

Lemma digits2_unique p k :
  2 ^ (k - 1) <= Zpos p < 2 ^ k -> Zpos (digits2_pos p) = k.
Proof.
  intros [L U]. pose proof (digits2_bounds p) as [L' U'].
  assert (0 < k).
  { destruct (Z.ltb_spec 0 k); [assumption|].
    assert (2 ^ k <= 2 ^ 0) by (destruct (Z.ltb_spec k 0);
      [rewrite Z.pow_neg_r by lia; simpl; lia | apply Z.pow_le_mono_r; lia]).
    simpl in *. lia. }
  destruct (Z.lt_trichotomy (Zpos (digits2_pos p)) k) as [Lt|[Eq|Gt]];
    [|exact Eq|].
  - assert (2 ^ Zpos (digits2_pos p) <= 2 ^ (k - 1))
      by (apply Z.pow_le_mono_r; lia). lia.
  - assert (2 ^ k <= 2 ^ (Zpos (digits2_pos p) - 1))
      by (apply Z.pow_le_mono_r; lia). lia.
Qed.

Lemma fexp_normal k : -1074 <= k - 53 -> fexp 53 1024 k = k - 53.
Proof. unfold fexp, emin. lia. Qed.

(** A mantissa of exactly 53 bits is not rounded. *)
Lemma round_exact (m : positive) e :
  Zpos (digits2_pos m) = 53 -> -1074 <= e <= 971 ->
  binary_round_aux 53 1024 false (Zpos m) e loc_Exact = S754_finite false m e.
Proof.
  intros D He. unfold binary_round_aux, shr_fexp.
  assert (Z0' : fexp 53 1024 (Zdigits2 (Zpos m) + e) - e = 0).
  { cbn [Zdigits2]. rewrite D, fexp_normal by lia. lia. }
  rewrite Z0'. cbn [shr shr_record_of_loc shr_m loc_of_shr_record round_nearest_even].
  rewrite Z0'. cbn [shr shr_record_of_loc shr_m].
  replace (e <=? 1024 - 53) with true by (symmetry; apply Z.leb_le; lia).
  reflexivity.
Qed.

(** Rounding a longer mantissa: the result is [Q * 2^(e+n)] for a [Q] at
    distance at most one half from [m / 2^n]. *)
Lemma round_shift (m : positive) e (p : positive) :
  let n := Zpos p in
  Zpos (digits2_pos m) = n + 53 -> -1074 <= e + n -> e + n + 1 <= 971 ->
  exists M E Q,
    binary_round_aux 53 1024 false (Zpos m) e loc_Exact = S754_finite false M E /\
    Z.shiftl (Zpos M) E = Z.shiftl Q (e + n) /\
    - 2 ^ n <= 2 * (Q * 2 ^ n - Zpos m) <= 2 ^ n.
Proof.
  intros n D Lo Hi. unfold binary_round_aux, shr_fexp.
  assert (S1 : fexp 53 1024 (Zdigits2 (Zpos m) + e) - e = Zpos p).
  { cbn [Zdigits2]. rewrite D, fexp_normal by lia. lia. }
  rewrite S1. cbn [shr shr_record_of_loc]. rewrite iter_pos_nat.
  pose proof (shr_iter (Zpos m) ltac:(lia) (Pos.to_nat p)) as I.
  cbv zeta in I. rewrite positive_nat_Z in I.
  destruct (Nat.iter (Pos.to_nat p) shr_1 _) as [q r s]. cbn [shr_m shr_r shr_s] in I.
  destruct I as [Hq Hloc].
  pose proof (round_located _ _ _ _ _ Hq Hloc) as R. cbv zeta in R.
  cbn [shr_m].
  set (Q := round_nearest_even q
              (loc_of_shr_record {| shr_m := q; shr_r := r; shr_s := s |})) in *.
  destruct R as [RQ Rd]. fold n in Rd, Hloc.
  (* the quotient has 53 bits *)
  pose proof (digits2_bounds m) as Bm. rewrite D in Bm.
  replace (n + 53 - 1) with (n + 52) in Bm by lia.
  rewrite !Z.pow_add_r in Bm by lia.
  destruct Hloc as [Hrem _]. cbv zeta in Hrem.
  assert (Pn : 0 < 2 ^ n) by (apply Z.pow_pos_nonneg; lia).
  assert (Bq : 2 ^ 52 <= q < 2 ^ 53).
  { set (P := 2 ^ n) in *. clearbody P. split; nia. }
  destruct (Z.eq_dec Q 9007199254740992) as [E53|N53].
  - (* the rounding carried into a 54th bit *)
    rewrite E53.
    assert (S2 : fexp 53 1024 (Zdigits2 9007199254740992 + (e + Zpos p))
                 - (e + Zpos p) = 1).
    { change (Zdigits2 9007199254740992) with 54.
      rewrite fexp_normal by (fold n; lia). lia. }
    rewrite S2. cbn.
    replace (e + Zpos p + 1 <=? 1024 - 53) with true
      by (symmetry; apply Z.leb_le; fold n; lia).
    eexists _, _, 9007199254740992. split; [reflexivity|]. split.
    + fold n. change 9007199254740992 with (Z.shiftl 4503599627370496 1).
      rewrite Z.shiftl_shiftl by lia. f_equal. lia.
    + rewrite <- E53. exact Rd.
  - assert (BQ : 2 ^ 52 <= Q < 2 ^ 53) by (change (2 ^ 53) with 9007199254740992 in *; lia).
    destruct Q as [|Qp|Qp] eqn:EQ; try (simpl in BQ; lia).
    assert (S2 : fexp 53 1024 (Zdigits2 (Zpos Qp) + (e + Zpos p)) - (e + Zpos p) = 0).
    { cbn [Zdigits2]. rewrite (digits2_unique Qp 53) by exact BQ.
      rewrite fexp_normal by (fold n; lia). lia. }
    rewrite S2. cbn [shr shr_record_of_loc shr_m].
    replace (e + Zpos p <=? 1024 - 53) with true by (symmetry; apply Z.leb_le; fold n; lia).
    exists Qp, (e + Zpos p), (Zpos Qp). split; [reflexivity|]. split; [reflexivity|].
    exact Rd.
Qed.

Lemma iter_xO_value (w d : positive) :
  Zpos (Pos.iter xO w d) = Zpos w * 2 ^ Zpos d.
Proof.
  induction d as [|d IH] using Pos.peano_ind.
  - cbn [Pos.iter]. change (Zpos w~0) with (2 * Zpos w). change (2 ^ 1) with 2. ring.
  - rewrite Pos.iter_succ, Pos2Z.inj_succ, Z.pow_succ_r by lia.
    change (Zpos (Pos.iter xO w d)~0) with (2 * Zpos (Pos.iter xO w d)).
    rewrite IH. ring.
Qed.

(** The binary64 value of an integer below 2^53: a mantissa of 53 bits. *)
Lemma normalize_int (w : positive) :
  Zpos w < 2 ^ 53 ->
  exists mz d,
    binary_normalize 53 1024 (Zpos w) 0 false = S754_finite false mz (- d) /\
    Zpos mz = Zpos w * 2 ^ d /\ 0 <= d /\
    2 ^ 52 <= Zpos mz < 2 ^ 53.
Proof.
  intros Hw. cbn [binary_normalize]. unfold binary_round.
  pose proof (digits2_bounds w) as Bw.
  set (dw := Zpos (digits2_pos w)) in *.
  assert (Hdw : 1 <= dw <= 53).
  { split; [unfold dw; lia|].
    destruct (Z.leb_spec dw 53) as [L|G]; [exact L|].
    assert (2 ^ 53 <= 2 ^ (dw - 1)) by (apply Z.pow_le_mono_r; lia). lia. }
  rewrite Z.add_0_r, fexp_normal by lia.
  unfold shl_align. rewrite Z.sub_0_r.
  destruct (dw - 53) as [|d'|d'] eqn:E; [|lia|].
  - assert (dw = 53) by lia.
    exists w, 0. rewrite round_exact by (fold dw; lia).
    replace (dw - 1) with 52 in Bw by lia. replace dw with 53 in Bw by lia.
    repeat split; lia.
  - assert (Ed : Zpos d' = 53 - dw) by lia.
    assert (V : Zpos (Pos.iter xO w d') = Zpos w * 2 ^ Zpos d')
      by apply iter_xO_value.
    assert (B : 2 ^ 52 <= Zpos (Pos.iter xO w d') < 2 ^ 53).
    { rewrite V.
      assert (E52 : 2 ^ 52 = 2 ^ (dw - 1) * 2 ^ Zpos d')
        by (rewrite <- Z.pow_add_r by lia; f_equal; lia).
      assert (E53 : 2 ^ 53 = 2 ^ dw * 2 ^ Zpos d')
        by (rewrite <- Z.pow_add_r by lia; f_equal; lia).
      rewrite E52, E53.
      assert (0 < 2 ^ Zpos d') by (apply Z.pow_pos_nonneg; lia).
      split; [apply Z.mul_le_mono_nonneg_r; lia
             | apply Z.mul_lt_mono_pos_r; lia]. }
    exists (Pos.iter xO w d'), (Zpos d').
    rewrite round_exact; [| apply digits2_unique; exact B | lia].
    change (Z.neg d') with (- Zpos d').
    repeat split; try lia; try exact V.
Qed.

(** The product of an integer below 2^32 and a constant in [2^-4, 1):
    its floor is [Q / T], where [Q * V] is within [V / 2] of the exact
    product of the integer and the mantissa of the constant. *)
Lemma product_rounded (w mz mc : positive) d ec :
  Zpos w < 2 ^ 32 ->
  Zpos mz = Zpos w * 2 ^ d -> 0 <= d -> 2 ^ 52 <= Zpos mz < 2 ^ 53 ->
  2 ^ 52 <= Zpos mc < 2 ^ 53 -> -56 <= ec <= -53 ->
  exists Q V T,
    floor_sf (SFmul 53 1024 (S754_finite false mz (- d))
                            (S754_finite false mc ec)) = Q / T /\
    0 < V /\ 0 < T /\ V * T = 2 ^ (- ec) /\
    - V <= 2 * (Q * V - Zpos w * Zpos mc) <= V /\
    V * 2 ^ 52 <= Zpos w * Zpos mc < V * 2 ^ 53.
Proof.
  intros Hw Emz Hd Bmz Bmc Hec.
  assert (Pd : 0 < 2 ^ d) by (apply Z.pow_pos_nonneg; lia).
  assert (Hd52 : d <= 52).
  { destruct (Z.leb_spec d 52) as [L|G]; [exact L|].
    assert (2 ^ 53 <= 2 ^ d) by (apply Z.pow_le_mono_r; lia). nia. }
  assert (Hd21 : 21 <= d).
  { destruct (Z.leb_spec 21 d) as [L|G]; [exact L|].
    assert (2 ^ d <= 2 ^ 20) by (apply Z.pow_le_mono_r; lia).
    change (2 ^ 20) with 1048576 in *. change (2 ^ 32) with 4294967296 in *.
    change (2 ^ 52) with 4503599627370496 in *. nia. }
  cbn [SFmul xorb].
  set (m := (mz * mc)%positive).
  assert (Em : Zpos m = Zpos mz * Zpos mc) by reflexivity.
  assert (Bm : 2 ^ 104 <= Zpos m < 2 ^ 106).
  { rewrite Em. change (2 ^ 104) with (2 ^ 52 * 2 ^ 52).
    change (2 ^ 106) with (2 ^ 53 * 2 ^ 53).
    split; [apply Z.mul_le_mono_nonneg; lia | apply Z.mul_lt_mono_nonneg; lia]. }
  pose proof (digits2_bounds m) as BD.
  set (D := Zpos (digits2_pos m)) in *.
  assert (HD : D = 105 \/ D = 106).
  { assert (104 < D).
    { destruct (Z.ltb_spec 104 D) as [L|G]; [exact L|].
      assert (2 ^ D <= 2 ^ 104) by (apply Z.pow_le_mono_r; unfold D; lia). lia. }
    assert (D - 1 < 106).
    { destruct (Z.ltb_spec (D - 1) 106) as [L|G]; [exact L|].
      assert (2 ^ 106 <= 2 ^ (D - 1)) by (apply Z.pow_le_mono_r; lia). lia. }
    lia. }
  assert (Hp : exists p, Zpos p = D - 53).
  { destruct (D - 53) as [|p|p] eqn:E; try lia. exists p. reflexivity. }
  destruct Hp as [p Ep].
  destruct (round_shift m (- d + ec) p) as (M & E & Q & R1 & R2 & R3).
  { fold D. lia. }
  { lia. }
  { lia. }
  set (n := Zpos p) in *.
  rewrite R1. cbn [floor_sf]. rewrite R2.
  rewrite Z.shiftl_div_pow2 by lia.
  exists Q, (2 ^ (n - d)), (2 ^ (- (- d + ec + n))).
  assert (PV : 0 < 2 ^ (n - d)) by (apply Z.pow_pos_nonneg; lia).
  assert (En : 2 ^ n = 2 ^ d * 2 ^ (n - d))
    by (rewrite <- Z.pow_add_r by lia; f_equal; lia).
  split; [reflexivity|]. split; [exact PV|].
  split; [apply Z.pow_pos_nonneg; lia|].
  split; [rewrite <- Z.pow_add_r by lia; f_equal; lia|].
  assert (EB : 2 ^ (D - 1) = 2 ^ d * 2 ^ (n - d) * 2 ^ 52 /\
               2 ^ D = 2 ^ d * 2 ^ (n - d) * 2 ^ 53).
  { rewrite <- En, <- !Z.pow_add_r by lia. split; f_equal; lia. }
  destruct EB as [EB1 EB2]. rewrite EB1, EB2 in BD.
  rewrite En, Em, Emz in R3. rewrite Em, Emz in BD.
  set (V := 2 ^ (n - d)) in *. set (P := 2 ^ d) in *.
  clearbody V P. clear - R3 BD Pd PV. nia.
Qed.

Lemma floor_from_bounds Q V T A k :
  0 < V -> 0 < T -> V * T = A ->
  k * A - V < Q * V -> Q * V < (k + 1) * A ->
  Q / T = k.
Proof.
  intros PV PT EA L U. subst A.
  assert (L' : k * T - 1 < Q) by nia.
  assert (U' : Q < (k + 1) * T) by nia.
  symmetry. apply (Z.div_unique Q T k (Q - T * k)); lia.
Qed.

Ltac floor_of_product mc ec A :=
  let w := fresh "w" in
  let Hw := fresh "Hw" in
  intros w Hw;
  destruct w as [|p|p]; [vm_compute; reflexivity| |lia];
  unfold Math_floor, of_int;
  rewrite mul_spec, of_uint63_spec, Uint63.of_Z_spec;
  rewrite Z.mod_small
    by (change Uint63.wB with 9223372036854775808;
        change (2 ^ 32) with 4294967296 in Hw; lia);
  unfold SF64mul; change FloatOps.prec with 53; change FloatOps.emax with 1024;
  let mz := fresh "mz" in
  let d := fresh "d" in
  let N1 := fresh "N1" in
  let N2 := fresh "N2" in
  let N3 := fresh "N3" in
  let N4 := fresh "N4" in
  destruct (normalize_int p) as (mz & d & N1 & N2 & N3 & N4);
  [change (2 ^ 32) with 4294967296 in Hw;
   change (2 ^ 53) with 9007199254740992; lia|];
  rewrite N1;
  match goal with
  | |- context [Prim2SF ?c] =>
      replace (Prim2SF c) with (S754_finite false mc ec)
        by (vm_compute; reflexivity)
  end;
  let Q := fresh "Q" in
  let V := fresh "V" in
  let T := fresh "T" in
  let F := fresh "F" in
  let PV := fresh "PV" in
  let PT := fresh "PT" in
  let EA := fresh "EA" in
  let R := fresh "R" in
  let B := fresh "B" in
  destruct (product_rounded p mz mc d ec)
    as (Q & V & T & F & PV & PT & EA & R & B);
  [lia | exact N2 | exact N3 | exact N4
   | change (2 ^ 52) with 4503599627370496;
     change (2 ^ 53) with 9007199254740992; lia
   | lia |];
  rewrite F;
  change (2 ^ (- ec)) with A in EA;
  change (2 ^ 52) with 4503599627370496 in B;
  change (2 ^ 53) with 9007199254740992 in B;
  change (2 ^ 32) with 4294967296 in Hw;
  apply (floor_from_bounds Q V T A); [exact PV | exact PT | exact EA | |];
  match goal with
  | |- context [?a * Zpos p / 100] =>
      pose proof (Z.mul_div_le (a * Zpos p) 100 ltac:(lia));
      pose proof (Z.mul_succ_div_gt (a * Zpos p) 100 ltac:(lia));
      set (k := a * Zpos p / 100) in *
  end;
  set (QV := Q * V) in *; clearbody QV; lia.

Lemma floor_tenth :
  forall w, 0 <= w < 2 ^ 32 -> Math_floor (of_int w * 0.10)%float = 10 * w / 100.
Proof. floor_of_product 7205759403792794%positive (-56) 72057594037927936. Qed.

Lemma floor_55_percent :
  forall h, 0 <= h < 2 ^ 32 -> Math_floor (of_int h * 0.55)%float = 55 * h / 100.
Proof. floor_of_product 4953959590107546%positive (-53) 9007199254740992. Qed.

Lemma floor_80_percent :
  forall w, 0 <= w < 2 ^ 32 -> Math_floor (of_int w * 0.80)%float = 80 * w / 100.
Proof. floor_of_product 7205759403792794%positive (-53) 9007199254740992. Qed.

Lemma floor_30_percent :
  forall h, 0 <= h < 2 ^ 32 -> Math_floor (of_int h * 0.30)%float = 30 * h / 100.
Proof. floor_of_product 5404319552844595%positive (-54) 18014398509481984. Qed.

End Binary64Facts.

(** ** Crop and binarisation *)

Section ConditionerFacts.
Import Conditioner.

Lemma all_from_spec (f : Z -> bool) n i :
  all_from n i f = true ->
  forall z, (i <= z < i + Z.of_nat n)%Z -> f z = true.
Proof.
  revert i. induction n as [|n IH]; intros i H z Hz; [lia|].
  simpl in H. apply andb_true_iff in H. destruct H as [H0 H1].
  destruct (Z.eq_dec z i) as [->|Hne]; [exact H0|].
  apply (IH (i + 1)%Z H1). lia.
Qed.

Lemma gray_checked : all_from 256 0 gray_ok = true.
Proof. vm_compute. reflexivity. Qed.

(** C8, as stated, fails: the code rounds each percentage down to a whole
    pixel, so a 15 x 15 frame is cropped at (1, 8) with size (12, 4), not
    at (1.5, 8.25) with size (12, 4.5). *)
Lemma crop_rounds_down :
  crop 15 15 = {| cx := 1; cy := 8; cw := 12; ch := 4 |} /\
  ~ crop_spec 15 15 (crop 15 15).
Proof.
  split; [vm_compute; reflexivity|].
  intros [H _]. vm_compute in H. discriminate H.
Qed.

(** C8, amended.  For a frame of width [w] and height [h] (unsigned 32-bit
    numbers, as [videoWidth] and [videoHeight] are) the crop rectangle has
    its top-left corner at (10% of w, 55% of h) and the size (80% of w, 30%
    of h), each rounded down to a whole number of pixels; a 1000 x 800
    frame is cropped at (100, 440) with size (800, 240), where the
    percentages are exact. *)
Theorem crop_is_floor_of_percentages :
  forall w h : Z,
    (0 <= w < 2 ^ 32)%Z -> (0 <= h < 2 ^ 32)%Z ->
    crop w h = {| cx := (10 * w / 100)%Z; cy := (55 * h / 100)%Z;
                  cw := (80 * w / 100)%Z; ch := (30 * h / 100)%Z |} /\
    crop 1000 800 = {| cx := 100; cy := 440; cw := 800; ch := 240 |} /\
    crop_spec 1000 800 (crop 1000 800).
Proof.
  intros w h Hw Hh. split.
  - unfold crop.
    rewrite (floor_tenth w Hw), (floor_80_percent w Hw),
      (floor_55_percent h Hh), (floor_30_percent h Hh).
    reflexivity.
  - split; [vm_compute; reflexivity|].
    unfold crop_spec, percent_of. vm_compute. repeat split; reflexivity.
Qed.

Lemma crop_is_floor_of_percentages_witness :
  crop 1280 720 = {| cx := (10 * 1280 / 100)%Z; cy := (55 * 720 / 100)%Z;
                     cw := (80 * 1280 / 100)%Z; ch := (30 * 720 / 100)%Z |} /\
  crop 1000 800 = {| cx := 100; cy := 440; cw := 800; ch := 240 |} /\
  crop_spec 1000 800 (crop 1000 800).
Proof.
  apply (crop_is_floor_of_percentages 1280 720); vm_compute; split; congruence.
Defined.

Lemma binarize_length_bounded n :
  forall d : list Z, (length d <= n)%nat -> length (binarize d) = length d.
Proof.
  induction n as [|n IH]; intros d H;
    destruct d as [|r [|g [|b [|a rest]]]]; try reflexivity;
    simpl in H; try lia.
  change (binarize (r :: g :: b :: a :: rest))
    with (binarize_pixel r g b :: binarize_pixel r g b
          :: binarize_pixel r g b :: a :: binarize rest).
  simpl. rewrite IH by lia. reflexivity.
Qed.

Lemma binarize_length d : length (binarize d) = length d.
Proof. apply (binarize_length_bounded (length d)). lia. Qed.

Lemma binarize_pixel_values r g b :
  binarize_pixel r g b = 255%Z \/ binarize_pixel r g b = 0%Z.
Proof. unfold binarize_pixel. destruct (160 <? _)%Z; auto. Qed.

(** C7, as stated, fails: the luma is truncated to an integer before the
    comparison, so a pixel whose luma lies strictly between 160 and 161 is
    black although its luma is greater than 160. *)
Lemma binarize_truncates_luma :
  (160 <? luma 161 160 160)%float = true /\
  binarize [161; 160; 160; 255]%Z = [0; 0; 0; 255]%Z /\
  binarize_pixel 161 160 160 <> binarize_pixel_spec 161 160 160.
Proof. vm_compute. repeat split; try reflexivity. discriminate. Qed.

(** C7, amended.  For every pixel of the cropped data, the three colour
    channels are set to 255 when the luma [0.299R + 0.587G + 0.114B],
    computed in binary64 and truncated to an integer, is greater than 160,
    and to 0 otherwise; the alpha channel is kept, and so is the length of
    the data.  A grey pixel of level 161 has luma 161 and becomes white,
    one of level 160 has luma 160 and becomes black. *)
Theorem binarize_threshold :
  forall (d : list Z) (k : nat) (r g b a : Z),
    d !! (4 * k)%nat = Some r -> d !! (4 * k + 1)%nat = Some g ->
    d !! (4 * k + 2)%nat = Some b -> d !! (4 * k + 3)%nat = Some a ->
    let v := if (160 <? to_int32 (luma r g b))%Z then 255%Z else 0%Z in
    binarize d !! (4 * k)%nat = Some v /\
    binarize d !! (4 * k + 1)%nat = Some v /\
    binarize d !! (4 * k + 2)%nat = Some v /\
    binarize d !! (4 * k + 3)%nat = Some a /\
    length (binarize d) = length d /\
    to_int32 (luma 161 161 161) = 161%Z /\
    binarize [161; 161; 161; 255]%Z = [255; 255; 255; 255]%Z /\
    to_int32 (luma 160 160 160) = 160%Z /\
    binarize [160; 160; 160; 255]%Z = [0; 0; 0; 255]%Z.
Proof.
  intros d k r g b a H0 H1 H2 H3 v.
  enough (binarize d !! (4 * k)%nat = Some v /\
          binarize d !! (4 * k + 1)%nat = Some v /\
          binarize d !! (4 * k + 2)%nat = Some v /\
          binarize d !! (4 * k + 3)%nat = Some a) as (E0 & E1 & E2 & E3).
  { repeat split; try assumption; try apply binarize_length;
      vm_compute; reflexivity. }
  subst v. revert d r g b a H0 H1 H2 H3.
  induction k as [|k IH]; intros d r g b a H0 H1 H2 H3.
  - destruct d as [|r' [|g' [|b' [|a' rest]]]]; try discriminate.
    simpl in H0, H1, H2, H3.
    injection H0 as ->. injection H1 as ->. injection H2 as ->. injection H3 as ->.
    repeat split; vm_compute; reflexivity.
  - replace (4 * S k)%nat with (S (S (S (S (4 * k))))) in * by lia.
    destruct d as [|r' [|g' [|b' [|a' rest]]]];
      simpl in H0, H1, H2, H3; try discriminate.
    destruct (IH rest r g b a H0 H1 H2 H3) as (E0 & E1 & E2 & E3).
    change (binarize (r' :: g' :: b' :: a' :: rest))
      with (binarize_pixel r' g' b' :: binarize_pixel r' g' b'
            :: binarize_pixel r' g' b' :: a' :: binarize rest).
    simpl. repeat split; assumption.
Qed.

Lemma binarize_threshold_witness :
  let d := [10; 10; 10; 255; 161; 160; 160; 7]%Z in
  let v := if (160 <? to_int32 (luma 161 160 160))%Z then 255%Z else 0%Z in
  binarize d !! 4%nat = Some v /\
  binarize d !! 5%nat = Some v /\
  binarize d !! 6%nat = Some v /\
  binarize d !! 7%nat = Some 7%Z /\
  length (binarize d) = length d /\
  to_int32 (luma 161 161 161) = 161%Z /\
  binarize [161; 161; 161; 255]%Z = [255; 255; 255; 255]%Z /\
  to_int32 (luma 160 160 160) = 160%Z /\
  binarize [160; 160; 160; 255]%Z = [0; 0; 0; 255]%Z.
Proof.
  exact (binarize_threshold [10; 10; 10; 255; 161; 160; 160; 7]%Z 1
           161 160 160 7 eq_refl eq_refl eq_refl eq_refl).
Defined.

(** Grey levels above 160 become white, the others black (the computed
    luma of a grey level [n] is [n] or just below it, and never crosses the
    threshold). *)
Lemma binarize_gray n :
  (0 <= n < 256)%Z ->
  binarize_pixel n n n = if (160 <? n)%Z then 255%Z else 0%Z.
Proof.
  intros H. pose proof (all_from_spec _ _ _ gray_checked n ltac:(simpl; lia)) as G.
  unfold gray_ok in G. apply Z.eqb_eq in G. exact G.
Qed.

(** The rounding of the binary64 sum is visible: this pixel has the exact
    luma 161 (299*11 + 587*251 + 114*91 = 161000), the computed sum lies
    just below 161, and the pixel is black. *)
Example binarize_rounding :
  (299 * 11 + 587 * 251 + 114 * 91 = 161000)%Z /\
  (luma 11 251 91 <? 161)%float = true /\
  binarize_pixel 11 251 91 = 0%Z.
Proof. vm_compute. repeat split; reflexivity. Qed.

End ConditionerFacts.

(** ** The scan session *)

Section SessionFacts.
Import JS Isbn Gate Conditioner Acquire Session Scenario.

(** Case analysis on one turn: [H : step s e = Some (s', acts)] is replaced
    by the equations of the branch taken. *)
Ltac split_matches H :=
  repeat match type of H with
         | context [match ?x with _ => _ end] =>
             destruct x eqn:?; try discriminate H
         | context [if ?x then _ else _] =>
             destruct x eqn:?; try discriminate H
         end.


Lemma run_cons s e rest s'' acts'' :
  run s (e :: rest) = Some (s'', acts'') <->
  exists s' acts acts',
    step s e = Some (s', acts) /\ run s' rest = Some (s'', acts') /\
    acts'' = acts ++ acts'.
Proof.
  simpl. split.
  - destruct (step s e) as [[s' acts]|]; [|discriminate].
    destruct (run s' rest) as [[s2 acts']|] eqn:E; [|discriminate].
    intros H. injection H as <- <-. exists s', acts, acts'.
    repeat split; [exact E].
  - intros (s' & acts & acts' & -> & -> & ->). reflexivity.
Qed.


(** The gate inside the session. *)

Lemma observe_tracks l c hist :
  gate_tracks l hist ->
  gate_tracks (fst (observe l c)) (if truthy c then c :: hist else hist) /\
  (snd (observe l c) = true ->
   truthy c = true /\ exists older, hist = c :: older).
Proof.
  intros G. destruct c as [|x r]; [split; [exact G|discriminate]|].
  change (observe l (x :: r))
    with (bump l (x :: r), confirmed (bump l (x :: r))).
  cbn [fst snd truthy]. unfold bump.
  destruct (eqb (value l) (x :: r)) eqn:E.
  - apply eqb_eq in E. destruct hist as [|c older].
    + simpl in G. subst l. discriminate E.
    + destruct G as (V & Hc & H1 & H2). rewrite V in E. subst c. split.
      * simpl. repeat split; try assumption; try lia; try discriminate.
        intros _. exists older. rewrite E. reflexivity.
      * intros _. split; [reflexivity|]. exists older. rewrite E. reflexivity.
  - split.
    + simpl. repeat split; try discriminate; try lia.
    + unfold confirmed. simpl. discriminate.
Qed.

Lemma on_cleaned_gate s c again s' acts hist :
  gate_tracks (lastRef s) hist ->
  on_cleaned s c again = (s', acts) ->
  gate_tracks (lastRef s') (if truthy c then c :: hist else hist) /\
  forall v, In (OnDetected v) acts ->
            acts = [OnDetected v] /\ at_ s' = Finished /\ v = c /\
            truthy c = true /\ exists older, hist = c :: older.
Proof.
  intros G H. unfold on_cleaned in H.
  destruct (observe_tracks _ c _ G) as [G' Hit].
  destruct (observe (lastRef s) c) as [l hit]. simpl in G', Hit.
  destruct hit; injection H as <- <-; (split; [exact G'|]); intros v Hv.
  - destruct Hv as [Hv|[]]. injection Hv as <-.
    destruct (Hit eq_refl) as [T O]. auto.
  - destruct Hv as [Hv|[]]. discriminate Hv.
Qed.

Lemma step_gate s e s' acts hist :
  gate_tracks (lastRef s) hist ->
  step s e = Some (s', acts) ->
  gate_tracks (lastRef s') (successes [e] hist) /\
  forall v, In (OnDetected v) acts ->
            acts = [OnDetected v] /\ at_ s' = Finished /\
            decoded e = Some v /\ exists older, hist = v :: older.
Proof.
  intros G H. unfold step in H.
  assert (Q : forall (tracks : list track) v,
             ~ In (OnDetected v) (List.map StopTrack tracks)).
  { intros tracks v Hv. apply in_map_iff in Hv.
    destruct Hv as (t & Hv & _). discriminate Hv. }
  destruct e as [m|r native f|f|r|r|]; destruct (at_ s) eqn:A;
    try discriminate H; injection H as H; simpl successes;
    [ | | | | destruct r as [[|raw codes]|name message]
            | destruct r as [text|name message] | .. ].
  all: try (unfold cleanup, start_resume, play_resume, loop, decodeLoop,
            loop_resume, decodeLoop_resume in H; cbv zeta in H;
            split_matches H; simplify_eq; simpl;
            (split; [exact G|]); intros v Hv; simpl in Hv;
            repeat (destruct Hv as [Hv|Hv]; [discriminate Hv|]);
            try contradiction; exfalso; exact (Q _ _ Hv)).
  - unfold loop_resume in H.
    destruct (on_cleaned_gate _ _ _ _ _ _ G H) as [G' D].
    unfold decoded. destruct (truthy (cleanISBN raw)) eqn:T.
    + split; [exact G'|]. intros v Hv.
      destruct (D v Hv) as (E1 & E2 & -> & _ & O). auto.
    + split; [exact G'|]. intros v Hv.
      destruct (D v Hv) as (_ & _ & _ & T' & _). congruence.
  - unfold decodeLoop_resume in H.
    destruct (on_cleaned_gate _ _ _ _ _ _ G H) as [G' D].
    unfold decoded. destruct (truthy (cleanISBN text)) eqn:T.
    + split; [exact G'|]. intros v Hv.
      destruct (D v Hv) as (E1 & E2 & -> & _ & O). auto.
    + split; [exact G'|]. intros v Hv.
      destruct (D v Hv) as (_ & _ & _ & T' & _). congruence.
Qed.

Lemma successes_app evs1 evs2 hist :
  successes (evs1 ++ evs2) hist = successes evs2 (successes evs1 hist).
Proof.
  revert hist. induction evs1 as [|e evs1 IH]; intros hist; [reflexivity|].
  simpl. apply IH.
Qed.

(** Every call of [onDetected] happens in the turn of a decode attempt
    that produced the value, right after a successful attempt that produced
    the same value. *)
Lemma run_gate evs :
  forall s s' acts hist,
    gate_tracks (lastRef s) hist ->
    run s evs = Some (s', acts) ->
    gate_tracks (lastRef s') (successes evs hist) /\
    forall v, In (OnDetected v) acts ->
      exists evs1 e evs2 s1 acts1 s2 older,
        evs = evs1 ++ e :: evs2 /\
        run s evs1 = Some (s1, acts1) /\
        step s1 e = Some (s2, [OnDetected v]) /\
        decoded e = Some v /\
        successes evs1 hist = v :: older.
Proof.
  induction evs as [|e evs IH]; intros s s' acts hist G H.
  - injection H as <- <-. split; [exact G|]. intros v [].
  - apply run_cons in H. destruct H as (s1 & a1 & a2 & Hs & Hr & ->).
    destruct (step_gate _ _ _ _ _ G Hs) as [G1 D1].
    destruct (IH _ _ _ _ G1 Hr) as [G2 D2].
    split; [exact G2|]. intros v Hv. apply in_app_or in Hv.
    destruct Hv as [Hv|Hv].
    + destruct (D1 v Hv) as (-> & _ & Dec & older & ->).
      exists [], e, evs, s, [], s1, older. repeat split; assumption.
    + destruct (D2 v Hv)
        as (evs1 & e' & evs2 & s3 & acts3 & s4 & older & -> & R & S & Dec & Su).
      exists (e :: evs1), e', evs2, s3, (a1 ++ acts3), s4, older.
      repeat split; try assumption.
      apply run_cons. exists s1, a1, acts3. repeat split; assumption.
Qed.

Lemma decoded_clean e v :
  decoded e = Some v ->
  v <> [] /\ cleanISBN v = v /\ (length v <= 13)%nat /\
  Forall (fun c => is_isbn_char c = true) v.
Proof.
  assert (K : forall raw, truthy (cleanISBN raw) = true ->
                          cleanISBN raw <> [] /\
                          cleanISBN (cleanISBN raw) = cleanISBN raw /\
                          (length (cleanISBN raw) <= 13)%nat /\
                          Forall (fun c => is_isbn_char c = true) (cleanISBN raw)).
  { intros raw T. split; [apply truthy_nonempty; exact T|].
    split; [apply cleanISBN_idempotent|].
    split; [apply cleanISBN_length | apply cleanISBN_chars]. }
  destruct e as [m|r native f|f|r|r|]; try discriminate;
    destruct r as [x|name message]; try discriminate; simpl.
  - destruct x as [|raw codes]; [discriminate|].
    destruct (truthy (cleanISBN raw)) eqn:T; [|discriminate].
    intros E. injection E as <-. apply K. exact T.
  - destruct (truthy (cleanISBN x)) eqn:T; [|discriminate].
    intros E. injection E as <-. apply K. exact T.
Qed.

Lemma feed_empty l n :
  feed l (repeat [] n) = repeat false n /\ after l (repeat [] n) = l.
Proof.
  induction n as [|n [IH1 IH2]]; [split; reflexivity|].
  split; simpl.
  - f_equal. exact IH1.
  - exact IH2.
Qed.

Lemma initial_tracks : gate_tracks (lastRef initial) [].
Proof. reflexivity. Qed.

(** What a call of [onDetected] implies, for every run of a session. *)
Lemma detected_twice evs s acts v :
  run initial evs = Some (s, acts) ->
  In (OnDetected v) acts ->
  exists evs1 e evs2 s1 acts1 s2 older,
    evs = evs1 ++ e :: evs2 /\
    run initial evs1 = Some (s1, acts1) /\
    step s1 e = Some (s2, [OnDetected v]) /\
    decoded e = Some v /\
    successes (evs1 ++ [e]) [] = v :: v :: older.
Proof.
  intros H Hv.
  destruct (run_gate evs _ _ _ _ initial_tracks H) as [_ D].
  destruct (D v Hv)
    as (evs1 & e & evs2 & s1 & acts1 & s2 & older & E & R & S & Dec & Su).
  exists evs1, e, evs2, s1, acts1, s2, older.
  repeat split; try assumption.
  rewrite successes_app, Su. simpl. rewrite Dec. reflexivity.
Qed.

(** At most one call: after [onDetected] the session has finished, and
    only the cleanup can still run. *)
Lemma finished_only_cleanup s e s' acts :
  at_ s = Finished -> step s e = Some (s', acts) ->
  e = Cleanup /\ at_ s' = Finished.
Proof.
  intros A H. unfold step in H. rewrite A in H.
  destruct e; try discriminate H. split; [reflexivity|].
  injection H as <- _. exact A.
Qed.

End SessionFacts.

(** ** The mounted scanner *)

Section ScannerFacts.
Import JS Isbn Gate Conditioner Acquire Session Scenario Scanner.


Lemma scan_cons s ev rest s'' acts'' :
  run s (ev :: rest) = Some (s'', acts'') <->
  exists s' acts acts',
    step s ev = Some (s', acts) /\ run s' rest = Some (s'', acts') /\
    acts'' = acts ++ acts'.
Proof.
  simpl. split.
  - destruct (step s ev) as [[s' acts]|]; [|discriminate].
    destruct (run s' rest) as [[s2 acts']|] eqn:E; [|discriminate].
    intros H. injection H as <- <-. exists s', acts, acts'.
    repeat split; [exact E].
  - intros (s' & acts & acts' & -> & -> & ->). reflexivity.
Qed.

(** A resumed run is a turn of that run on the refs of the component. *)
Lemma resume_inv s i e s' acts :
  resume s i e = Some (s', acts) ->
  e <> Cleanup /\
  exists c r,
    runs s !! i = Some c /\ Session.step (view s c) e = Some (r, acts) /\
    s' = back r (<[i := at_ r]> (runs s)).
Proof.
  unfold resume. intros H.
  destruct e as [m|p native f|f|d|d|]; try discriminate H;
    (split; [discriminate|]);
    destruct (runs s !! i) as [c|]; try discriminate H;
    match type of H with
    | context [Session.step ?x ?y] =>
        destruct (Session.step x y) as [[r a]|] eqn:E; try discriminate H
    end;
    injection H as <- <-; exists c, r; auto.
Qed.



(** *** The gate, over all the runs *)

Lemma scanner_step_gate s ev s' acts hist :
  gate_tracks (lastRef s) hist ->
  step s ev = Some (s', acts) ->
  gate_tracks (lastRef s') (successes [ev] hist) /\
  forall v, In (OnDetected v) acts ->
            acts = [OnDetected v] /\ decoded ev = Some v /\
            exists older, hist = v :: older.
Proof.
  intros G H.
  assert (Q : forall (tracks : list track) v,
             ~ In (OnDetected v) (List.map StopTrack tracks)).
  { intros tracks v Hv. apply in_map_iff in Hv.
    destruct Hv as (t & Hv & _). discriminate Hv. }
  destruct ev as [i e| |]; cbn [step] in H.
  - apply resume_inv in H. destruct H as (Ne & c & r & L & St & ->).
    destruct (step_gate (view s c) e r acts hist G St) as [G' D].
    split; [exact G'|]. intros v Hv.
    destruct (D v Hv) as (E1 & _ & E2 & E3). auto.
  - destruct (videoRef s); [|discriminate H]. injection H as <- <-.
    split; [exact G|]. intros v Hv. exfalso. exact (Q _ _ Hv).
  - destruct (videoRef s); [|discriminate H]. injection H as <- <-.
    split; [exact G|]. intros v Hv. exfalso. exact (Q _ _ Hv).
Qed.

Lemma scanner_successes_app evs1 evs2 hist :
  successes (evs1 ++ evs2) hist = successes evs2 (successes evs1 hist).
Proof.
  revert hist. induction evs1 as [|e evs1 IH]; intros hist; [reflexivity|].
  simpl. apply IH.
Qed.

(** Every call of [onDetected] is made in the turn of a decode attempt
    that produced the value, and the successful attempt before it, of
    whichever run, produced the same value. *)
Lemma scanner_run_gate evs :
  forall s s' acts hist,
    gate_tracks (lastRef s) hist ->
    run s evs = Some (s', acts) ->
    gate_tracks (lastRef s') (successes evs hist) /\
    forall v, In (OnDetected v) acts ->
      exists evs1 ev evs2 s1 acts1 s2 older,
        evs = evs1 ++ ev :: evs2 /\
        run s evs1 = Some (s1, acts1) /\
        step s1 ev = Some (s2, [OnDetected v]) /\
        decoded ev = Some v /\
        successes evs1 hist = v :: older.
Proof.
  induction evs as [|e evs IH]; intros s s' acts hist G H.
  - injection H as <- <-. split; [exact G|]. intros v [].
  - apply scan_cons in H. destruct H as (s1 & a1 & a2 & Hs & Hr & ->).
    destruct (scanner_step_gate _ _ _ _ _ G Hs) as [G1 D1].
    destruct (IH _ _ _ _ G1 Hr) as [G2 D2].
    split; [exact G2|]. intros v Hv. apply in_app_or in Hv.
    destruct Hv as [Hv|Hv].
    + destruct (D1 v Hv) as (-> & Dec & older & ->).
      exists [], e, evs, s, [], s1, older. repeat split; assumption.
    + destruct (D2 v Hv)
        as (evs1 & e' & evs2 & s3 & acts3 & s4 & older & -> & R & S & Dec & Su).
      exists (e :: evs1), e', evs2, s3, (a1 ++ acts3), s4, older.
      repeat split; try assumption.
      apply scan_cons. exists s1, a1, acts3. repeat split; assumption.
Qed.

Lemma scanner_decoded ev v :
  decoded ev = Some v -> exists i e, ev = Resume i e /\ Session.decoded e = Some v.
Proof. destruct ev as [i e| |]; try discriminate. intros H. eauto. Qed.

(** What a call of [onDetected] implies, in the life of a mounted scanner. *)
Lemma scanner_detected_twice evs s acts v :
  run initial evs = Some (s, acts) ->
  In (OnDetected v) acts ->
  exists evs1 i e evs2 s1 acts1 s2 older,
    evs = evs1 ++ Resume i e :: evs2 /\
    run initial evs1 = Some (s1, acts1) /\
    step s1 (Resume i e) = Some (s2, [OnDetected v]) /\
    Session.decoded e = Some v /\
    successes (evs1 ++ [Resume i e]) [] = v :: v :: older.
Proof.
  intros H Hv.
  destruct (scanner_run_gate evs initial s acts [] eq_refl H) as [_ D].
  destruct (D v Hv)
    as (evs1 & ev & evs2 & s1 & acts1 & s2 & older & E & R & S & Dec & Su).
  destruct (scanner_decoded _ _ Dec) as (i & e & -> & Dec').
  exists evs1, i, e, evs2, s1, acts1, s2, older.
  repeat split; try assumption.
  rewrite scanner_successes_app, Su. simpl. rewrite Dec'. reflexivity.
Qed.

(** C1, as stated, fails: the gate asks for a non-empty cleaned string, not
    for a length of 10 or 13; "12345" read twice in a row is handed to
    [onDetected]. *)
Lemma short_code_is_detected : ~ only_valid_detected.
Proof.
  intros V.
  assert (R : exists s,
             run initial (alone short_code)
             = Some (s, [Decode; SetTimeout; Decode; OnDetected (lit "12345")])).
  { eexists. vm_compute. reflexivity. }
  destruct R as [s R].
  assert (D : isValidISBN (lit "12345") = true).
  { apply (V _ _ _ _ R). right. right. right. left. reflexivity. }
  discriminate D.
Qed.

(** C1, amended.  An empty cleaned candidate leaves the gate as it is and
    is never confirmed, however often it is observed.  In the life of a
    mounted scanner, whichever runs of the effect it holds, [onDetected] is
    only called with a non-empty normalised string, in the turn of a decode
    attempt that produced it, and the successful attempt made last before
    it, by the same or by an earlier run of the effect, produced the same
    string.  (The length of the string is not looked at.) *)
Theorem detected_is_nonempty_and_repeated :
  forall evs s acts v,
    run initial evs = Some (s, acts) ->
    In (OnDetected v) acts ->
    v <> [] /\ cleanISBN v = v /\
    (exists evs1 i e evs2 older,
        evs = evs1 ++ Resume i e :: evs2 /\ Session.decoded e = Some v /\
        successes (evs1 ++ [Resume i e]) [] = v :: v :: older) /\
    (forall l, observe l [] = (l, false)) /\
    (forall l n, feed l (repeat [] n) = repeat false n /\
                 after l (repeat [] n) = l).
Proof.
  intros evs s acts v H Hv.
  destruct (scanner_detected_twice _ _ _ _ H Hv)
    as (evs1 & i & e & evs2 & s1 & acts1 & s2 & older & E & R & S & Dec & Su).
  destruct (decoded_clean _ _ Dec) as (Ne & Cl & _ & _).
  split; [exact Ne|]. split; [exact Cl|]. split.
  - exists evs1, i, e, evs2, older. repeat split; assumption.
  - split; [reflexivity | apply feed_empty].
Qed.

Lemma detected_is_nonempty_and_repeated_witness :
  isbn_a <> [] /\ cleanISBN isbn_a = isbn_a /\
  (exists evs1 i e evs2 older,
      read_rerun_read = evs1 ++ Resume i e :: evs2 /\
      Session.decoded e = Some isbn_a /\
      successes (evs1 ++ [Resume i e]) [] = isbn_a :: isbn_a :: older) /\
  (forall l, observe l [] = (l, false)) /\
  (forall l n, feed l (repeat [] n) = repeat false n /\
               after l (repeat [] n) = l).
Proof.
  apply (detected_is_nonempty_and_repeated read_rerun_read
           (match run initial read_rerun_read with
            | Some (s, _) => s
            | None => initial
            end)
           [DrawImage hd; Detect (crop 1280 720); SetTimeout;
            StopTrack 0%nat;
            DrawImage hd; Detect (crop 1280 720); OnDetected isbn_a]
           isbn_a).
  - vm_compute. reflexivity.
  - do 6 right. left. reflexivity.
Defined.

(** The count of successful attempts is kept for the whole life of the
    mounted scanner: when React runs the effect again after one read, the
    first read of the new run is the second of the two, and the new run
    calls [onDetected] after a single attempt of its own. *)
Example second_run_detects_at_once :
  exists s,
    run initial read_rerun_read
    = Some (s, [DrawImage hd; Detect (crop 1280 720); SetTimeout;
                StopTrack 0%nat;
                DrawImage hd; Detect (crop 1280 720); OnDetected isbn_a]) /\
    runs s = [NativeTimer; Finished] /\
    successes read_rerun_read [] = [isbn_a; isbn_a].
Proof.
  eexists. split; [vm_compute; reflexivity|]. split; reflexivity.
Qed.

(** C10.  The string handed to [onDetected] is not empty, has at most 13
    characters, all of them digits or uppercase X, and is the cleaned value
    of the two most recent successful decode attempts (those that produced
    a non-empty cleaned value) of the mounted scanner, in whichever runs of
    its effect they were made: the call is made in the turn of the second
    of them.  Its length may differ from 10 and 13: the software decoder
    reading "12345" twice hands "12345" over. *)
Theorem detected_value_shape :
  forall evs s acts v,
    run initial evs = Some (s, acts) ->
    In (OnDetected v) acts ->
    v <> [] /\ (length v <= 13)%nat /\
    Forall (fun c => is_isbn_char c = true) v /\
    (exists evs1 i e evs2 s1 acts1 s2 older,
        evs = evs1 ++ Resume i e :: evs2 /\
        run initial evs1 = Some (s1, acts1) /\
        step s1 (Resume i e) = Some (s2, [OnDetected v]) /\
        Session.decoded e = Some v /\
        successes (evs1 ++ [Resume i e]) [] = v :: v :: older) /\
    (exists s5,
        run initial (alone short_code)
        = Some (s5, [Decode; SetTimeout; Decode; OnDetected (lit "12345")]) /\
        length (lit "12345") = 5%nat /\ isValidISBN (lit "12345") = false).
Proof.
  intros evs s acts v H Hv.
  pose proof (scanner_detected_twice _ _ _ _ H Hv) as T.
  destruct T
    as (evs1 & i & e & evs2 & s1 & acts1 & s2 & older & E & R & S & Dec & Su).
  destruct (decoded_clean _ _ Dec) as (Ne & _ & Len & Ch).
  split; [exact Ne|]. split; [exact Len|]. split; [exact Ch|]. split.
  - exists evs1, i, e, evs2, s1, acts1, s2, older. repeat split; assumption.
  - eexists. split; [vm_compute; reflexivity|]. split; reflexivity.
Qed.

Lemma detected_value_shape_witness :
  lit "12345" <> [] /\ (length (lit "12345") <= 13)%nat /\
  Forall (fun c => is_isbn_char c = true) (lit "12345") /\
  (exists evs1 i e evs2 s1 acts1 s2 older,
      alone short_code = evs1 ++ Resume i e :: evs2 /\
      run initial evs1 = Some (s1, acts1) /\
      step s1 (Resume i e) = Some (s2, [OnDetected (lit "12345")]) /\
      Session.decoded e = Some (lit "12345") /\
      successes (evs1 ++ [Resume i e]) [] = lit "12345" :: lit "12345" :: older) /\
  (exists s5,
      run initial (alone short_code)
      = Some (s5, [Decode; SetTimeout; Decode; OnDetected (lit "12345")]) /\
      length (lit "12345") = 5%nat /\ isValidISBN (lit "12345") = false).
Proof.
  apply (detected_value_shape (alone short_code)
           (match run initial (alone short_code) with
            | Some (s, _) => s
            | None => initial
            end)
           [Decode; SetTimeout; Decode; OnDetected (lit "12345")]
           (lit "12345")).
  - vm_compute. reflexivity.
  - do 3 right. left. reflexivity.
Defined.

(** *** The flag *)








(** It fails after a second run of the effect as well: the cleanup of the
    first run sets the flag and stops the track, the second run clears the
    flag in the same turn, and when the timer of the first run fires its
    loop finds the flag cleared and draws the next frame. *)
Example rerun_revives_the_loop :
  exists s,
    run initial rerun_then_timer
    = Some (s, [DrawImage hd; Detect (crop 1280 720); SetTimeout;
                StopTrack 0%nat;
                DrawImage hd; Detect (crop 1280 720)]) /\
    stopRef s = false /\ runs s = [NativeDetect; AwaitStream] /\
    0%nat ∈ ended s.
Proof.
  eexists. split; [vm_compute; reflexivity|].
  split; [reflexivity|]. split; [reflexivity|]. vm_compute. reflexivity.
Qed.



(** *** The teardown *)

Lemma cleanup_again s : fst (cleanup (fst (cleanup s))) = fst (cleanup s).
Proof.
  unfold cleanup. cbn. f_equal.
  rewrite <- (assoc_L (∪)), (idemp_L (∪)). reflexivity.
Qed.








(** The same happens to the stream of a run that React has replaced by a
    later run before the stream arrived: it takes the place of the stream
    of the later run in [streamRef], and the cleanup at the unmount stops
    the one it finds there. *)
Example replaced_run_keeps_its_stream :
  exists s acts,
    run initial [Rerun; Resume 1 (StreamSettled camera_again);
                 Resume 0 (StreamSettled camera); Unmount]
    = Some (s, acts) /\
    acts = [StopTrack 0%nat] /\ streamRef s = Some [0%nat] /\
    1%nat ∉ ended s.
Proof.
  eexists. eexists. split; [vm_compute; reflexivity|].
  split; [reflexivity|]. split; [reflexivity|].
  vm_compute. intros E. discriminate E.
Qed.



(** Scenario A: the ISBN read twice is handed over once and the loop ends
    without a further timer; the track is stopped when the scanner is
    closed. *)
Example scenario_A_detects :
  exists s,
    run initial (alone (scenario_A ++ [Cleanup]))
    = Some (s, [DrawImage hd; Detect (crop 1280 720); SetTimeout;
                DrawImage hd; Detect (crop 1280 720); OnDetected isbn_a;
                StopTrack 0%nat]) /\
    runs s = [Finished] /\ 0%nat ∈ ended s.
Proof.
  eexists. split; [vm_compute; reflexivity|]. split; [reflexivity|].
  vm_compute. reflexivity.
Qed.

(** Scenario B: no camera, no stream held, the error is shown, nothing is
    detected; the cleanup then has no track to stop. *)
Example scenario_B_fails :
  exists s,
    run initial (alone (scenario_B ++ [Cleanup]))
    = Some (s, [SetError (lit "NotAllowedError") (lit "denied")]) /\
    runs s = [Finished] /\ streamRef s = None /\ ended s = ∅.
Proof.
  eexists. split; [vm_compute; reflexivity|]. repeat split; reflexivity.
Qed.

(** Scenario C: after the unmount the timer of the second iteration fires
    and the loop returns at once; the track was stopped by the cleanup. *)
Example scenario_C_cancels :
  exists s,
    run initial (alone scenario_C)
    = Some (s, [DrawImage hd; Detect (crop 1280 720); SetTimeout;
                StopTrack 0%nat]) /\
    runs s = [Finished] /\ 0%nat ∈ ended s.
Proof.
  eexists. split; [vm_compute; reflexivity|]. split; [reflexivity|].
  vm_compute. reflexivity.
Qed.

End ScannerFacts.

(** ** Camera acquisition *)

Section AcquireFacts.
Import JS Acquire Scenario.

Lemma prefix_ci_spec pat :
  forall s,
    prefix_ci pat s = true <->
    exists mid post, s = mid ++ post /\ toUpperCase mid = toUpperCase pat.
Proof.
  induction pat as [|a pat IH]; intros s.
  - split.
    + intros _. exists [], s. split; reflexivity.
    + intros _. destruct s; reflexivity.
  - destruct s as [|c s].
    + split; [discriminate|].
      intros (mid & post & E & U). symmetry in E.
      apply app_eq_nil in E. destruct E as [-> _]. discriminate U.
    + simpl. rewrite andb_true_iff, N.eqb_eq, IH. split.
      * intros (Ec & mid & post & -> & U).
        exists (c :: mid), post. split; [reflexivity|].
        unfold toUpperCase in *. simpl. congruence.
      * intros (mid & post & E & U).
        destruct mid as [|c' mid]; [discriminate U|].
        injection E as <- ->. unfold toUpperCase in U. simpl in U.
        injection U as Uc U. split; [congruence|].
        exists mid, post. split; [reflexivity | exact U].
Qed.

(** [contains_ci pat s]: some substring of [s] is [pat] up to the case of
    its letters. *)
Lemma contains_ci_spec pat :
  forall s,
    contains_ci pat s = true <->
    exists pre mid post,
      s = pre ++ mid ++ post /\ toUpperCase mid = toUpperCase pat.
Proof.
  induction s as [|c s IH].
  - simpl. rewrite orb_false_r, prefix_ci_spec. split.
    + intros (mid & post & E & U). exists [], mid, post. auto.
    + intros (pre & mid & post & E & U).
      destruct pre; [|discriminate E]. exists mid, post. auto.
  - simpl. rewrite orb_true_iff, prefix_ci_spec, IH. split.
    + intros [(mid & post & E & U)|(pre & mid & post & E & U)].
      * exists [], mid, post. auto.
      * exists (c :: pre), mid, post. split; [simpl; congruence | exact U].
    + intros (pre & mid & post & E & U). destruct pre as [|c' pre].
      * left. exists mid, post. auto.
      * right. injection E as _ E. exists pre, mid, post. auto.
Qed.

Lemma back_label_spec l :
  back_label l = true <->
  exists word pre mid post,
    In word [lit "back"; lit "rear"; lit "environment"] /\
    l = pre ++ mid ++ post /\ toUpperCase mid = toUpperCase word.
Proof.
  unfold back_label. rewrite !orb_true_iff, !contains_ci_spec. split.
  - intros [[(pre & mid & post & E & U)|(pre & mid & post & E & U)]
           |(pre & mid & post & E & U)].
    + exists (lit "back"), pre, mid, post. simpl. auto.
    + exists (lit "rear"), pre, mid, post. simpl. auto.
    + exists (lit "environment"), pre, mid, post. simpl. auto 6.
  - intros (word & pre & mid & post & [<-|[<-|[<-|[]]]] & E & U).
    + left. left. exists pre, mid, post. auto.
    + left. right. exists pre, mid, post. auto.
    + right. exists pre, mid, post. auto.
Qed.

Example back_label_examples :
  back_label (lit "Back Camera") = true /\
  back_label (lit "camera2 0, facing BACK") = true /\
  back_label (lit "Rear Dual Wide Camera") = true /\
  back_label (lit "Facing Environment") = true /\
  back_label (lit "FaceTime HD Camera") = false /\
  back_label (lit "") = false.
Proof. vm_compute. repeat split; reflexivity. Qed.

(** The device [pickBestCamera] returns: the first one whose label matches
    the pattern, or the first one of the list when no label matches; its
    identity is not empty. *)
Lemma pickBestCamera_spec devices id :
  pickBestCamera devices = Some id ->
  exists d,
    In d devices /\ deviceId d = id /\ id <> [] /\
    (List.find (fun d => back_label (label d)) devices = Some d \/
     (List.find (fun d => back_label (label d)) devices = None /\
      head devices = Some d)).
Proof.
  unfold pickBestCamera.
  destruct (List.find _ devices) as [d|] eqn:F; simpl.
  - destruct (truthy (deviceId d)) eqn:T; [|discriminate].
    intros E. injection E as <-. exists d.
    pose proof (find_some _ _ F) as [I _].
    split; [exact I|]. split; [reflexivity|].
    split; [apply truthy_nonempty; exact T|]. left. reflexivity.
  - destruct devices as [|d rest]; [discriminate|]. simpl.
    destruct (truthy (deviceId d)) eqn:T; [|discriminate].
    intros E. injection E as <-. exists d.
    split; [left; reflexivity|]. split; [reflexivity|].
    split; [apply truthy_nonempty; exact T|]. right. split; reflexivity.
Qed.

Lemma second_choice_spec m id :
  second_choice m = Some id ->
  exists devices d,
    enumerateDevices m = Resolved devices /\
    In d devices /\ kind d = videoinput /\ deviceId d = id /\ id <> [] /\
    let inputs := List.filter is_videoinput devices in
    (List.find (fun d => back_label (label d)) inputs = Some d \/
     (List.find (fun d => back_label (label d)) inputs = None /\
      head inputs = Some d)).
Proof.
  unfold second_choice. destruct (enumerateDevices m) as [devices|]; [|discriminate].
  intros P. apply pickBestCamera_spec in P.
  destruct P as (d & I & E & Ne & W).
  apply List.filter_In in I. destruct I as [I K].
  exists devices, d. repeat split; auto.
  unfold is_videoinput in K. destruct (kind d); try discriminate K. reflexivity.
Qed.

(** The second strategy is tried exactly when the devices can be
    enumerated and the video input that [pickBestCamera] chooses has an
    identity that is not empty. *)
Lemma second_choice_iff m id :
  second_choice m = Some id <->
  exists devices d,
    enumerateDevices m = Resolved devices /\
    In d devices /\ kind d = videoinput /\ deviceId d = id /\ id <> [] /\
    let inputs := List.filter is_videoinput devices in
    (List.find (fun d => back_label (label d)) inputs = Some d \/
     (List.find (fun d => back_label (label d)) inputs = None /\
      head inputs = Some d)).
Proof.
  split; [apply second_choice_spec|].
  intros (devices & d & E & _ & _ & <- & Ne & W).
  unfold second_choice. rewrite E. unfold pickBestCamera.
  assert (T : truthy (deviceId d) = true).
  { destruct (deviceId d); [contradiction | reflexivity]. }
  cbv zeta in W. destruct W as [F|[F H]]; rewrite F; cbn [or_else].
  - rewrite T. reflexivity.
  - rewrite H, T. reflexivity.
Qed.

(** C9, as stated, fails: when no label matches the pattern, the second
    strategy asks for the first video input by identity. *)
Lemma first_device_is_asked_for :
  getBestVideoStream laptop
  = ([environment_request; device_request (lit "cam0")], Resolved [0%nat]) /\
  back_label (label webcam) = false /\
  ~ asks_for_back_camera_only laptop.
Proof.
  split; [vm_compute; reflexivity|]. split; [vm_compute; reflexivity|].
  intros Q.
  destruct (Q (lit "cam0") _ ltac:(right; left; reflexivity) eq_refl)
    as (d & I & K & _ & B).
  destruct I as [<-|[<-|[]]].
  - discriminate K.
  - vm_compute in B. discriminate B.
Qed.

(** The pieces of a list of requests that is known. *)
Ltac pieces E :=
  match type of E with
  | [] = ?e ++ _ :: _ => destruct e; discriminate E
  | _ :: _ = ?e ++ _ :: _ =>
      destruct e as [|? e]; cbn [app] in E;
      [injection E as <- <- | injection E as <- E; pieces E]
  end.

(** C9, amended.  [getBestVideoStream] makes at most three requests, in
    this order.  (1) It always asks for the environment facing camera, as
    an ideal orientation hint with the ideal size 1280 x 720.  (2) When the
    devices can be enumerated, it asks for the video input chosen by
    [pickBestCamera] -- the first whose label contains back, rear or
    environment in any case, or else the first video input -- by its exact
    identity, with the ideal size and without the orientation hint; this
    request is left out when the enumeration fails, when there is no video
    input, or when the identity is empty.  (3) It asks for any camera, with
    no constraints.  A request that is rejected is followed by the next
    one, and a request that succeeds is the last: the promise settles as
    the last request made does, so it is rejected exactly when every
    request made was rejected, the third among them, and then with the
    error of the third. *)
Theorem getBestVideoStream_strategy :
  forall m : media,
    let calls := fst (getBestVideoStream m) in
    let result := snd (getBestVideoStream m) in
    (exists rest,
        calls = environment_request :: rest /\
        (rest = [] \/ rest = [plain_request] \/
         exists id, second_choice m = Some id /\
                    (rest = [device_request id] \/
                     rest = [device_request id; plain_request]))) /\
    (forall earlier r later,
        calls = earlier ++ r :: later ->
        (later = [] <->
         (exists st, getUserMedia m r = Resolved st) \/ r = plain_request) /\
        (forall r' later', later = r' :: later' ->
           (exists name message, getUserMedia m r = Rejected name message) /\
           ((r = environment_request /\
             r' = match second_choice m with
                  | Some id => device_request id
                  | None => plain_request
                  end) \/
            (exists id, r = device_request id /\ r' = plain_request)))) /\
    (exists earlier final,
        calls = earlier ++ [final] /\ result = getUserMedia m final) /\
    (forall id,
        second_choice m = Some id <->
        exists devices d,
          enumerateDevices m = Resolved devices /\
          In d devices /\ kind d = videoinput /\ deviceId d = id /\ id <> [] /\
          let inputs := List.filter is_videoinput devices in
          (List.find (fun d => back_label (label d)) inputs = Some d \/
           (List.find (fun d => back_label (label d)) inputs = None /\
            head inputs = Some d))) /\
    (forall r, In r calls -> mixes_hint_and_identity r = false) /\
    (forall name message,
        result = Rejected name message <->
        (forall r, In r calls ->
                   exists name' message', getUserMedia m r = Rejected name' message') /\
        In plain_request calls /\
        getUserMedia m plain_request = Rejected name message).
Proof.
  intros m calls result. subst calls result. unfold getBestVideoStream.
  destruct (getUserMedia m environment_request) as [st1|n1 m1] eqn:E1;
    [|destruct (second_choice m) as [id|] eqn:E2;
      [destruct (getUserMedia m (device_request id)) as [st2|n2 m2] eqn:E3|]];
    cbn [fst snd].
  all: split; [eexists; split; [reflexivity|]; eauto 10|].
  all: split;
    [intros earlier r later E; pieces E;
     (split;
      [split; intros H;
       first [reflexivity | discriminate H
             | left; eexists; eassumption | right; reflexivity
             | destruct H as [[st H]|H]; [congruence | discriminate H]]
      |intros r' later' L;
       first [discriminate L
             | injection L as <- <-;
               split; [eauto|];
               first [left; split; reflexivity
                     | right; eexists; split; reflexivity]]])|].
  all: split;
    [first [exists [], environment_request; split; [reflexivity|]; congruence
           |exists [environment_request], (device_request id);
            split; [reflexivity|]; congruence
           |exists [environment_request; device_request id], plain_request;
            split; reflexivity
           |exists [environment_request], plain_request; split; reflexivity]|].
  all: split; [intros id'; try rewrite <- E2; apply second_choice_iff|].
  all: split;
    [intros r I; cbn in I;
     repeat (destruct I as [<-|I]; [reflexivity|]); contradiction|].
  all: intros name message; split;
    [intros R;
     first [discriminate R
           | split; [intros r I; cbn in I;
                     repeat (destruct I as [<-|I]; [eauto|]); contradiction|];
             split; [cbn; auto|exact R]]
    |intros (A & I & R);
     first [exact R
           |destruct (A environment_request) as (? & ? & ?);
            [left; reflexivity | congruence]
           |destruct (A (device_request id)) as (? & ? & ?);
            [right; left; reflexivity | congruence]]].
Qed.

(** The three requests, spelled out. *)
Example requests_spelled_out :
  video environment_request
  = VideoConstraints {| facingMode_ideal := Some (lit "environment");
                        deviceId_exact := None;
                        width_ideal := Some 1280%Z;
                        height_ideal := Some 720%Z |} /\
  (forall id, video (device_request id)
              = VideoConstraints {| facingMode_ideal := None;
                                    deviceId_exact := Some id;
                                    width_ideal := Some 1280%Z;
                                    height_ideal := Some 720%Z |}) /\
  plain_request = {| video := VideoTrue; audio := false |}.
Proof. repeat split; reflexivity. Qed.

(** With a camera behind every request the first strategy is the only one
    tried; with none, the second is left out (there is no device) and the
    error of the third is the result; on a laptop whose only camera is
    refused the orientation hint, the second request gets the stream. *)
Example acquisition_examples :
  getBestVideoStream camera = ([environment_request], Resolved [0%nat]) /\
  getBestVideoStream no_camera
  = ([environment_request; plain_request],
     Rejected (lit "NotAllowedError") (lit "denied")) /\
  getBestVideoStream laptop
  = ([environment_request; device_request (lit "cam0")], Resolved [0%nat]).
Proof. vm_compute. repeat split; reflexivity. Qed.

End AcquireFacts.

(** ** White space, substrings and pieces *)

Section TextFacts.
Import JS Isbn Text.

Lemma startsWith_spec s : forall t,
  startsWith s t = true <-> exists b, s = t ++ b.
Proof.
  induction s as [|c s IH]; intros [|a t]; simpl.
  - split; [exists []; reflexivity | reflexivity].
  - split; [discriminate | intros [b E]; discriminate E].
  - split; [exists (c :: s); reflexivity | reflexivity].
  - rewrite andb_true_iff, N.eqb_eq, IH. split.
    + intros [-> [b ->]]. exists b. reflexivity.
    + intros [b E]. injection E as -> ->. split; [reflexivity | exists b; reflexivity].
Qed.

Lemma includes_spec s t :
  includes s t = true <-> exists a b, s = a ++ t ++ b.
Proof.
  induction s as [|c s IH]; cbn [includes].
  - rewrite orb_false_r, startsWith_spec. split.
    + intros [b E]. exists [], b. exact E.
    + intros (a & b & E). destruct a; [exists b; exact E | discriminate E].
  - rewrite orb_true_iff, startsWith_spec, IH. split.
    + intros [[b E] | (a & b & E)].
      * exists [], b. exact E.
      * exists (c :: a), b. simpl. rewrite E. reflexivity.
    + intros (a & b & E). destruct a as [|c' a]; simpl in E.
      * left. exists b. exact E.
      * right. injection E as -> ->. exists a, b. reflexivity.
Qed.

Lemma includes_empty s : includes s [] = true.
Proof. apply includes_spec. exists [], s. reflexivity. Qed.

Lemma includes_trans s t u :
  includes s t = true -> includes t u = true -> includes s u = true.
Proof.
  rewrite !includes_spec. intros (a & b & ->) (a' & b' & ->).
  exists (a ++ a'), (b' ++ b). rewrite <- !app_assoc. reflexivity.
Qed.

Lemma includes_unit s c : includes s [c] = true <-> In c s.
Proof.
  rewrite includes_spec. split.
  - intros (a & b & ->). apply in_app_iff. right. left. reflexivity.
  - intros H. apply in_split in H. destruct H as (a & b & ->).
    exists a, b. reflexivity.
Qed.

(** *** [trim] *)

Lemma trimStart_split s :
  exists a, s = a ++ trimStart s /\ all_white a = true /\
            starts_clean (trimStart s) = true.
Proof.
  induction s as [|c s (a & E & A & C)]; simpl.
  - exists []. repeat split.
  - destruct (is_white_space c) eqn:W.
    + exists (c :: a). simpl. rewrite W, A. repeat split; [|exact C].
      f_equal. exact E.
    + exists []. simpl. rewrite W. repeat split.
Qed.

Lemma trimStart_white a s : all_white a = true -> trimStart (a ++ s) = trimStart s.
Proof.
  induction a as [|c a IH]; simpl; [reflexivity|].
  intros H. apply andb_true_iff in H. destruct H as [W A]. rewrite W. auto.
Qed.

Lemma trimStart_all_white a : all_white a = true -> trimStart a = [].
Proof.
  intros A. rewrite <- (app_nil_r a). rewrite trimStart_white by exact A. reflexivity.
Qed.

Lemma trimStart_clean s : starts_clean s = true -> trimStart s = s.
Proof.
  destruct s as [|c s]; simpl; [reflexivity|].
  intros H. apply negb_true_iff in H. rewrite H. reflexivity.
Qed.

Lemma all_white_rev a : all_white (rev a) = all_white a.
Proof.
  unfold all_white. induction a as [|c a IH]; simpl; [reflexivity|].
  rewrite forallb_app, IH. simpl. rewrite andb_true_r. apply andb_comm.
Qed.

Lemma trimEnd_split s :
  exists b, s = trimEnd s ++ b /\ all_white b = true /\
            ends_clean (trimEnd s) = true.
Proof.
  destruct (trimStart_split (rev s)) as (a & E & A & C).
  exists (rev a). unfold trimEnd, ends_clean. rewrite rev_involutive.
  repeat split; [|rewrite all_white_rev; exact A | exact C].
  rewrite <- rev_app_distr, <- E, rev_involutive. reflexivity.
Qed.

Lemma trimEnd_white s b : all_white b = true -> trimEnd (s ++ b) = trimEnd s.
Proof.
  intros B. unfold trimEnd. rewrite rev_app_distr, trimStart_white; [reflexivity|].
  rewrite all_white_rev. exact B.
Qed.

Lemma trimEnd_all_white b : all_white b = true -> trimEnd b = [].
Proof.
  intros B. unfold trimEnd. rewrite trimStart_all_white; [reflexivity|].
  rewrite all_white_rev. exact B.
Qed.

Lemma trimEnd_clean s : ends_clean s = true -> trimEnd s = s.
Proof.
  intros H. unfold trimEnd. rewrite trimStart_clean by exact H.
  apply rev_involutive.
Qed.

Lemma starts_clean_app t u :
  t <> [] -> starts_clean t = true -> starts_clean (t ++ u) = true.
Proof. destruct t; [congruence | auto]. Qed.

Lemma ends_clean_app a t :
  t <> [] -> ends_clean t = true -> ends_clean (a ++ t) = true.
Proof.
  intros N E. unfold ends_clean in *. rewrite rev_app_distr.
  apply starts_clean_app; [|exact E].
  intros R. apply N. rewrite <- (rev_involutive t), R. reflexivity.
Qed.

Lemma starts_clean_prefix t u :
  starts_clean (t ++ u) = true -> t <> [] -> starts_clean t = true.
Proof. destruct t; [congruence | auto]. Qed.

(** The middle of a string between two runs of white space, when it
    neither starts nor ends with white space, is what [trim] returns. *)
Lemma trim_unique a t b :
  all_white a = true -> all_white b = true ->
  starts_clean t = true -> ends_clean t = true ->
  trim (a ++ t ++ b) = t.
Proof.
  intros A B S E. unfold trim. rewrite trimStart_white by exact A.
  destruct t as [|c t].
  - simpl. rewrite trimStart_all_white by exact B. reflexivity.
  - rewrite trimStart_clean by (apply starts_clean_app; [discriminate | exact S]).
    rewrite trimEnd_white by exact B. apply trimEnd_clean. exact E.
Qed.

Lemma trim_split s :
  exists a b, s = a ++ trim s ++ b /\ all_white a = true /\ all_white b = true /\
              starts_clean (trim s) = true /\ ends_clean (trim s) = true.
Proof.
  destruct (trimStart_split s) as (a & E & A & C).
  destruct (trimEnd_split (trimStart s)) as (b & E' & B & C').
  exists a, b. fold (trim s) in E', C'. rewrite <- E'.
  repeat split; try assumption.
  destruct (trim s) as [|c r] eqn:T; [reflexivity|].
  apply (starts_clean_prefix _ b); [|discriminate].
  rewrite <- E'. exact C.
Qed.

Lemma trim_clean s :
  starts_clean s = true -> ends_clean s = true -> trim s = s.
Proof.
  intros S E. unfold trim. rewrite trimStart_clean by exact S.
  apply trimEnd_clean. exact E.
Qed.

Lemma trim_idempotent s : trim (trim s) = trim s.
Proof.
  destruct (trim_split s) as (a & b & _ & _ & _ & S & E).
  apply trim_clean; assumption.
Qed.

Lemma trim_trimStart s : trim (trimStart s) = trim s.
Proof.
  destruct (trimStart_split s) as (a & E & A & _).
  rewrite E at 2. unfold trim. rewrite (trimStart_white a) by exact A.
  reflexivity.
Qed.

Lemma trim_trimEnd s : trim (trimEnd s) = trim s.
Proof.
  destruct (trim_split s) as (a & b & E & A & B & S & C).
  destruct (trim s) as [|c t] eqn:T.
  - simpl in E. rewrite E. rewrite trimEnd_all_white; [reflexivity|].
    unfold all_white in *. rewrite forallb_app, A, B. reflexivity.
  - rewrite E at 1. rewrite app_assoc, trimEnd_white by exact B.
    rewrite trimEnd_clean by (apply ends_clean_app; [discriminate | exact C]).
    rewrite <- (app_nil_r (a ++ c :: t)), <- app_assoc.
    apply trim_unique; auto.
Qed.

(** X1.  [norm] removes a run of white space at each end of the string and
    nothing else: what is left neither starts nor ends with white space,
    and [norm] leaves it as it is. *)
Theorem norm_strips_surrounding_white_space :
  forall s,
    (exists a b, s = a ++ norm s ++ b /\
                 all_white a = true /\ all_white b = true) /\
    starts_clean (norm s) = true /\ ends_clean (norm s) = true /\
    norm (norm s) = norm s.
Proof.
  intros s. unfold norm.
  destruct (trim_split s) as (a & b & E & A & B & S & C).
  split; [exists a, b; auto|].
  split; [exact S|]. split; [exact C|]. apply trim_idempotent.
Qed.

Example norm_example :
  norm (lit "  Il nome della rosa ") = lit "Il nome della rosa".
Proof. reflexivity. Qed.

End TextFacts.

(** ** [splitAuthor] *)

Section AuthorFacts.
Import JS Isbn Text Catalog.

Lemma split_ws_cons s : exists p ps, split_ws s = p :: ps.
Proof.
  induction s as [|c s (p & ps & E)]; simpl; [eauto|].
  rewrite E. destruct (is_white_space c); [|eauto].
  destruct s as [|c' s]; [eauto|].
  destruct (is_white_space c'); eauto.
Qed.

Lemma split_ws_white c r :
  is_white_space c = true ->
  split_ws (c :: r)
  = match r with
    | c' :: _ => if is_white_space c' then split_ws r else [] :: split_ws r
    | [] => [] :: split_ws r
    end.
Proof. intros W. simpl. rewrite W. reflexivity. Qed.

(** After a white space the first piece is empty. *)
Lemma split_ws_white_head r : forall c,
  is_white_space c = true ->
  exists T, split_ws (c :: r) = [] :: T /\ filter_Boolean T = words r.
Proof.
  induction r as [|c' r IH]; intros c W.
  - exists [[]]. simpl. rewrite W. split; reflexivity.
  - rewrite split_ws_white by exact W.
    destruct (is_white_space c') eqn:W'.
    + destruct (IH c' W') as (T & E & F). exists T. split; [exact E|].
      unfold words. rewrite E. reflexivity.
    + exists (split_ws (c' :: r)). split; reflexivity.
Qed.

Lemma words_white_cons c r : is_white_space c = true -> words (c :: r) = words r.
Proof.
  intros W. destruct (split_ws_white_head r c W) as (T & E & F).
  unfold words at 1. rewrite E. simpl. exact F.
Qed.

Lemma words_white a s : all_white a = true -> words (a ++ s) = words s.
Proof.
  induction a as [|c a IH]; simpl; [reflexivity|].
  intros H. apply andb_true_iff in H. destruct H as [W A].
  rewrite words_white_cons by exact W. auto.
Qed.

Lemma split_ws_step c r p ps :
  is_white_space c = false -> split_ws r = p :: ps ->
  split_ws (c :: r) = (c :: p) :: ps.
Proof. intros W E. cbn [split_ws]. rewrite W, E. reflexivity. Qed.

Lemma split_ws_all_white b :
  all_white b = true -> exists ps, split_ws b = [] :: ps /\ filter_Boolean ps = [].
Proof.
  destruct b as [|c b]; [exists []; split; reflexivity|].
  simpl. intros H. apply andb_true_iff in H. destruct H as [W B].
  destruct (split_ws_white_head b c W) as (T & E & F).
  exists T. split; [exact E|]. rewrite F.
  rewrite <- (app_nil_r b), words_white by exact B. reflexivity.
Qed.

(** White space at the end adds empty pieces only. *)
Lemma split_ws_app_white b : all_white b = true -> forall t,
  exists p ps ps', split_ws t = p :: ps /\ split_ws (t ++ b) = p :: ps' /\
                   filter_Boolean ps = filter_Boolean ps'.
Proof.
  intros B. induction t as [|c t (p & ps & ps' & E & E' & F)].
  - destruct (split_ws_all_white b B) as (ps' & E' & F').
    exists [], [], ps'. simpl. rewrite F'. auto.
  - destruct (is_white_space c) eqn:W.
    + destruct (split_ws_white_head t c W) as (T & ET & FT).
      destruct (split_ws_white_head (t ++ b) c W) as (T' & ET' & FT').
      exists [], T, T'. simpl app. rewrite ET, ET'. repeat split.
      rewrite FT, FT'. unfold words. rewrite E, E'. simpl.
      destruct (truthy p); [f_equal|]; exact F.
    + exists (c :: p), ps, ps'. simpl app.
      rewrite (split_ws_step c t p ps W E), (split_ws_step c (t ++ b) p ps' W E').
      auto.
Qed.

Lemma words_app_white t b : all_white b = true -> words (t ++ b) = words t.
Proof.
  intros B. destruct (split_ws_app_white b B t) as (p & ps & ps' & E & E' & F).
  unfold words. rewrite E, E'. simpl.
  destruct (truthy p); [f_equal|]; symmetry; exact F.
Qed.

Lemma words_trim s : words (trim s) = words s.
Proof.
  destruct (trim_split s) as (a & b & E & A & B & _).
  rewrite E at 2. rewrite words_white by exact A.
  rewrite words_app_white by exact B. reflexivity.
Qed.

Lemma split_ws_pieces s : Forall (fun p => no_white p = true) (split_ws s).
Proof.
  induction s as [|c s IH]; simpl; [repeat constructor|].
  destruct (is_white_space c) eqn:W.
  - destruct s as [|c' s]; [repeat constructor|].
    destruct (is_white_space c'); [exact IH | constructor; [reflexivity | exact IH]].
  - destruct (split_ws s) as [|p ps]; [repeat constructor; simpl; rewrite W; reflexivity|].
    inversion IH as [|? ? Hp Hps]; subst. constructor; [|exact Hps].
    simpl. rewrite W. exact Hp.
Qed.

Lemma words_are_words s : Forall (fun w => is_word w = true) (words s).
Proof.
  unfold words, filter_Boolean. apply List.Forall_forall. intros w H.
  apply filter_In in H. destruct H as [H T].
  unfold is_word. rewrite T. simpl.
  exact (proj1 (List.Forall_forall _ _) (split_ws_pieces s) w H).
Qed.

Lemma split_ws_word_sep x c rest :
  no_white x = true -> is_white_space c = true ->
  exists T, split_ws (x ++ c :: rest) = x :: T /\ filter_Boolean T = words rest.
Proof.
  intros N W. induction x as [|d x IH].
  - apply split_ws_white_head. exact W.
  - simpl in N. apply andb_true_iff in N. destruct N as [D N].
    apply negb_true_iff in D. destruct (IH N) as (T & E & F).
    exists T. split; [|exact F]. simpl app. apply split_ws_step; assumption.
Qed.

Lemma words_word_sep x c rest :
  is_word x = true -> is_white_space c = true ->
  words (x ++ c :: rest) = x :: words rest.
Proof.
  intros X W. apply andb_true_iff in X. destruct X as [T N].
  destruct (split_ws_word_sep x c rest N W) as (T' & E & F).
  unfold words. rewrite E. simpl. rewrite T. f_equal. exact F.
Qed.

Lemma split_ws_no_white x : no_white x = true -> split_ws x = [x].
Proof.
  induction x as [|d x IH]; [reflexivity|].
  simpl. intros N. apply andb_true_iff in N. destruct N as [D N].
  apply negb_true_iff in D. rewrite D, (IH N). reflexivity.
Qed.

Lemma words_word x : is_word x = true -> words x = [x].
Proof.
  intros X. apply andb_true_iff in X. destruct X as [T N].
  unfold words. rewrite split_ws_no_white by exact N. simpl. rewrite T. reflexivity.
Qed.

(** Words joined by single spaces are read back as they were. *)
Lemma words_join l :
  Forall (fun w => is_word w = true) l -> words (join (lit " ") l) = l.
Proof.
  induction l as [|x [|y r] IH]; intros F.
  - reflexivity.
  - inversion F; subst. apply words_word. assumption.
  - inversion F as [|? ? X F']; subst.
    change (join (lit " ") (x :: y :: r))
      with (x ++ 32%N :: join (lit " ") (y :: r)).
    rewrite words_word_sep by (auto; reflexivity). f_equal. apply IH. exact F'.
Qed.

Lemma words_nonempty s : trim s <> [] -> words s <> [].
Proof.
  intros N. rewrite <- words_trim.
  destruct (trim_split s) as (_ & _ & _ & _ & _ & S & _).
  destruct (trim s) as [|c t]; [congruence|].
  simpl in S. apply negb_true_iff in S.
  destruct (split_ws_cons t) as (p & ps & E).
  unfold words. rewrite (split_ws_step c t p ps S E). discriminate.
Qed.

Lemma In_trim c s : In c (trim s) -> In c s.
Proof.
  destruct (trim_split s) as (a & b & E & _). intros H. rewrite E.
  apply in_app_iff. right. apply in_app_iff. left. exact H.
Qed.

Lemma splitAuthor_blank full :
  norm full = [] -> splitAuthor full = {| last := []; first := [] |}.
Proof. intros E. unfold splitAuthor. rewrite E. reflexivity. Qed.

(** X2.  A name without a comma is split at its last word: the family name
    is the last word of the input, the given names are the words before
    it, in their order and with one space between them.  No word is lost
    and none is invented. *)
Theorem splitAuthor_keeps_the_words :
  forall full,
    norm full <> [] -> ~ In 44%N full ->
    words full = words (first (splitAuthor full)) ++ [last (splitAuthor full)] /\
    is_word (last (splitAuthor full)) = true /\
    first (splitAuthor full) = join (lit " ") (words (first (splitAuthor full))).
Proof.
  intros full N C. unfold splitAuthor.
  destruct (truthy (norm full)) eqn:T;
    [|destruct (norm full); [congruence | discriminate T]].
  destruct (includes (norm full) (lit ",")) eqn:I.
  { exfalso. apply C. apply (In_trim _ full). apply includes_unit. exact I. }
  cbn [negb]. unfold norm. fold (words (trim full)). rewrite words_trim.
  pose proof (words_are_words full) as W.
  pose proof (words_nonempty full N) as NE.
  destruct (exists_last NE) as (l & x & E). rewrite E in *.
  apply Forall_app in W. destruct W as [Wl Wx]. inversion Wx as [|? ? X _]; subst.
  rewrite removelast_last.
  replace (length (l ++ [x]) - 1)%nat with (length l)
    by (rewrite length_app; simpl; lia).
  rewrite nth_middle.
  destruct (length (l ++ [x]) =? 1)%nat eqn:L.
  - apply Nat.eqb_eq in L. rewrite length_app in L. simpl in L.
    destruct l; [|simpl in L; lia]. cbn [nth app first last].
    repeat split. exact X.
  - cbn [first last]. rewrite words_join by exact Wl. repeat split. exact X.
Qed.

Lemma splitAuthor_keeps_the_words_witness :
  words (lit " Carlo  Emilio Gadda")
  = words (first (splitAuthor (lit " Carlo  Emilio Gadda")))
    ++ [last (splitAuthor (lit " Carlo  Emilio Gadda"))] /\
  is_word (last (splitAuthor (lit " Carlo  Emilio Gadda"))) = true /\
  first (splitAuthor (lit " Carlo  Emilio Gadda"))
  = join (lit " ") (words (first (splitAuthor (lit " Carlo  Emilio Gadda")))).
Proof.
  apply (splitAuthor_keeps_the_words (lit " Carlo  Emilio Gadda")).
  - vm_compute. discriminate.
  - vm_compute. intuition discriminate.
Defined.

Example splitAuthor_examples :
  splitAuthor (lit "Umberto Eco") = {| last := lit "Eco"; first := lit "Umberto" |} /\
  splitAuthor (lit " J. R. R.   Tolkien ")
  = {| last := lit "Tolkien"; first := lit "J. R. R." |} /\
  splitAuthor (lit "Eco") = {| last := lit "Eco"; first := [] |} /\
  splitAuthor (lit "Eco, Umberto") = {| last := lit "Eco"; first := lit "Umberto" |} /\
  splitAuthor (lit "De Mauro, Tullio, a cura di")
  = {| last := lit "De Mauro"; first := lit "Tullio" |} /\
  splitAuthor (lit "   ") = {| last := []; first := [] |}.
Proof. repeat split; reflexivity. Qed.

Lemma trimStart_stop x c w :
  is_white_space c = false -> trimStart (x ++ c :: w) = trimStart x ++ c :: w.
Proof.
  intros W. induction x as [|d x IH]; simpl.
  - rewrite W. reflexivity.
  - destruct (is_white_space d); [exact IH | reflexivity].
Qed.

Lemma trimEnd_stop u c w :
  is_white_space c = false -> trimEnd (u ++ c :: w) = u ++ c :: trimEnd w.
Proof.
  intros W. unfold trimEnd. rewrite rev_app_distr. cbn [rev].
  rewrite <- app_assoc. cbn [app]. rewrite trimStart_stop by exact W.
  rewrite rev_app_distr. cbn [rev]. rewrite rev_involutive, <- app_assoc.
  reflexivity.
Qed.

Lemma split_stop sep u r :
  ~ In sep u -> split sep (u ++ sep :: r) = u :: split sep r.
Proof.
  induction u as [|c u IH]; simpl; intros N.
  - rewrite N.eqb_refl. reflexivity.
  - destruct (N.eqb_spec c sep) as [->|D]; [exfalso; apply N; left; reflexivity|].
    rewrite IH by (intros H; apply N; right; exact H). reflexivity.
Qed.

Lemma split_none sep u : ~ In sep u -> split sep u = [u].
Proof.
  induction u as [|c u IH]; simpl; intros N; [reflexivity|].
  destruct (N.eqb_spec c sep) as [->|D]; [exfalso; apply N; left; reflexivity|].
  rewrite IH by (intros H; apply N; right; exact H). reflexivity.
Qed.

Lemma In_trimEnd c s : In c (trimEnd s) -> In c s.
Proof.
  destruct (trimEnd_split s) as (b & E & _). intros H. rewrite E.
  apply in_app_iff. left. exact H.
Qed.

Lemma In_trimStart c s : In c (trimStart s) -> In c s.
Proof.
  destruct (trimStart_split s) as (a & E & _). intros H. rewrite E.
  apply in_app_iff. right. exact H.
Qed.

Lemma splitAuthor_comma full l f rest :
  In 44%N (norm full) ->
  List.map norm (split 44%N (norm full)) = l :: f :: rest ->
  splitAuthor full = {| last := l; first := f |}.
Proof.
  intros I E. unfold splitAuthor. cbv zeta. rewrite E.
  assert (T : truthy (norm full) = true)
    by (destruct (norm full); [destruct I | reflexivity]).
  rewrite T. cbn [negb].
  apply includes_unit in I. change [44%N] with (lit ",") in I. rewrite I.
  reflexivity.
Qed.

(** X3.  A name with a comma is read as "family name, given names": the
    text before the first comma and the text between the first and the
    second comma, each without its surrounding white space.  What follows
    a second comma is dropped. *)
Theorem splitAuthor_comma_form :
  forall x y z : jsstring,
    ~ In 44%N x -> ~ In 44%N y ->
    splitAuthor (x ++ lit "," ++ y) = {| last := norm x; first := norm y |} /\
    splitAuthor (x ++ lit "," ++ y ++ lit "," ++ z)
    = {| last := norm x; first := norm y |}.
Proof.
  intros x y z Nx Ny.
  assert (W : is_white_space 44%N = false) by reflexivity.
  assert (K : forall w : jsstring,
             (exists y' rest, split 44%N (trimEnd w) = y' :: rest /\ trim y' = trim y) ->
             splitAuthor (x ++ 44%N :: w) = {| last := norm x; first := norm y |}).
  { intros w (y' & rest & E & Ey).
    assert (E0 : norm (x ++ 44%N :: w) = trimStart x ++ 44%N :: trimEnd w).
    { unfold norm, trim. rewrite trimStart_stop, trimEnd_stop by exact W.
      reflexivity. }
    apply splitAuthor_comma with (rest := List.map norm rest); rewrite E0.
    - apply in_app_iff. right. left. reflexivity.
    - rewrite split_stop by (intros H; apply Nx; apply In_trimStart; exact H).
      rewrite E. cbn [List.map]. unfold norm.
      rewrite trim_trimStart, Ey. reflexivity. }
  split; apply K.
  - exists (trimEnd y), []. split; [|apply trim_trimEnd].
    apply split_none. intros H. apply Ny. apply In_trimEnd. exact H.
  - exists y, (split 44%N (trimEnd z)). split; [|reflexivity].
    change (lit "," ++ z) with (44%N :: z).
    rewrite trimEnd_stop by exact W. apply split_stop. exact Ny.
Qed.

Lemma splitAuthor_comma_form_witness :
  splitAuthor (lit " Calvino " ++ lit "," ++ lit "  Italo")
  = {| last := norm (lit " Calvino "); first := norm (lit "  Italo") |} /\
  splitAuthor (lit " Calvino " ++ lit "," ++ lit "  Italo" ++ lit "," ++ lit " ed.")
  = {| last := norm (lit " Calvino "); first := norm (lit "  Italo") |}.
Proof.
  apply (splitAuthor_comma_form (lit " Calvino ") (lit "  Italo") (lit " ed.")).
  - vm_compute. intuition discriminate.
  - vm_compute. intuition discriminate.
Defined.

End AuthorFacts.

(** ** Searching the catalogue *)

Section SearchFacts.
Import JS Isbn Text Catalog.

Variable toLowerCase : jsstring -> jsstring.

Lemma filter_all {A} (f : A -> bool) l :
  (forall x, In x l -> f x = true) -> List.filter f l = l.
Proof.
  induction l as [|a l IH]; simpl; intros H; [reflexivity|].
  rewrite (H a) by (left; reflexivity). f_equal. apply IH.
  intros x I. apply H. right. exact I.
Qed.

Lemma filter_sublist_mono {A} (f g : A -> bool) l :
  (forall x, f x = true -> g x = true) ->
  sublist (List.filter f l) (List.filter g l).
Proof.
  intros H. induction l as [|a l IH]; simpl; [constructor|].
  destruct (f a) eqn:F.
  - rewrite (H a F). constructor. exact IH.
  - destruct (g a); [constructor|]; exact IH.
Qed.

Lemma filter_sublist {A} (h : A -> bool) l1 l2 :
  sublist l1 l2 -> sublist (List.filter h l1) (List.filter h l2).
Proof.
  induction 1 as [|a l1 l2 S IH|a l1 l2 S IH]; simpl.
  - constructor.
  - destruct (h a); [constructor|]; exact IH.
  - destruct (h a); [constructor|]; exact IH.
Qed.

Lemma matches_blank b q :
  toLowerCase [] = [] -> norm q = [] -> matches toLowerCase b q = true.
Proof.
  intros L E. unfold matches. destruct (truthy q); [|reflexivity].
  cbn [negb]. cbv zeta. unfold normKey. cbn [str]. rewrite E, L.
  rewrite includes_empty. reflexivity.
Qed.

(** X4.  A query of white space only, with no location and no archive
    selected, lists every book, in the order of the catalogue. *)
Theorem blank_query_lists_every_book :
  toLowerCase [] = [] ->
  forall books q,
    norm q = [] -> visible toLowerCase books q [] [] = books.
Proof.
  intros L books q E. unfold visible. cbn [truthy].
  rewrite !filter_all; auto.
  intros b _. apply matches_blank; assumption.
Qed.

Lemma matches_narrow b q q' :
  truthy q = true ->
  includes (normKey toLowerCase (Some q)) (normKey toLowerCase (Some q')) = true ->
  matches toLowerCase b q = true -> matches toLowerCase b q' = true.
Proof.
  intros T I. unfold matches. rewrite T. cbn [negb]. cbv zeta.
  destruct (truthy q'); [|reflexivity]. cbn [negb].
  rewrite !orb_true_iff.
  intros H; repeat (destruct H as [H|H]);
    [do 5 left | do 4 left; right | do 3 left; right
     | do 2 left; right | left; right | right];
    exact (includes_trans _ _ _ H I).
Qed.

(** X5.  A query that contains another one (both trimmed and in lower case)
    lists no book that the other does not list: typing more of a word
    only removes books from the list, and keeps the order of the rest. *)
Theorem narrower_query_lists_fewer_books :
  forall books q q' filterLocation filterArchive,
    truthy q = true ->
    includes (normKey toLowerCase (Some q)) (normKey toLowerCase (Some q')) = true ->
    sublist (visible toLowerCase books q filterLocation filterArchive)
            (visible toLowerCase books q' filterLocation filterArchive).
Proof.
  intros books q q' fl fa T I. unfold visible.
  do 2 apply filter_sublist. apply filter_sublist_mono.
  intros b. apply matches_narrow; assumption.
Qed.

End SearchFacts.

Section SearchExamples.
Import JS Isbn Text Catalog.

Lemma blank_query_lists_every_book_witness :
  toLowerCase_basic_latin [] = [] /\
  norm (lit "  ") = [] /\
  visible toLowerCase_basic_latin
    [{| id := Some (lit "a-1"); authorLast := Some (lit "Eco");
        authorFirst := Some (lit "Umberto");
        title := Some (lit "Il nome della rosa");
        isbn := Some (lit "9788845278655"); location := Some (lit "studio");
        archive := None; notes := None; personalCoverDataUrl := None;
        catalogCoverUrl := None; createdAt := Some 1%Z; updatedAt := Some 1%Z |}]
    (lit "  ") [] []
  = [{| id := Some (lit "a-1"); authorLast := Some (lit "Eco");
        authorFirst := Some (lit "Umberto");
        title := Some (lit "Il nome della rosa");
        isbn := Some (lit "9788845278655"); location := Some (lit "studio");
        archive := None; notes := None; personalCoverDataUrl := None;
        catalogCoverUrl := None; createdAt := Some 1%Z; updatedAt := Some 1%Z |}].
Proof.
  split; [reflexivity|]. split; [reflexivity|].
  apply (blank_query_lists_every_book toLowerCase_basic_latin);
    reflexivity.
Defined.

Lemma narrower_query_lists_fewer_books_witness :
  truthy (lit " Rosa") = true /\
  includes (normKey toLowerCase_basic_latin (Some (lit " Rosa")))
           (normKey toLowerCase_basic_latin (Some (lit "ros"))) = true /\
  sublist
    (visible toLowerCase_basic_latin
       [{| id := Some (lit "a-1"); authorLast := Some (lit "Eco");
           authorFirst := Some (lit "Umberto");
           title := Some (lit "Il nome della rosa");
           isbn := Some (lit "9788845278655"); location := Some (lit "studio");
           archive := None; notes := None; personalCoverDataUrl := None;
           catalogCoverUrl := None; createdAt := Some 1%Z; updatedAt := Some 1%Z |}]
       (lit " Rosa") (lit "studio") [])
    (visible toLowerCase_basic_latin
       [{| id := Some (lit "a-1"); authorLast := Some (lit "Eco");
           authorFirst := Some (lit "Umberto");
           title := Some (lit "Il nome della rosa");
           isbn := Some (lit "9788845278655"); location := Some (lit "studio");
           archive := None; notes := None; personalCoverDataUrl := None;
           catalogCoverUrl := None; createdAt := Some 1%Z; updatedAt := Some 1%Z |}]
       (lit "ros") (lit "studio") []).
Proof.
  split; [reflexivity|]. split; [reflexivity|].
  apply (narrower_query_lists_fewer_books toLowerCase_basic_latin);
    reflexivity.
Defined.

End SearchExamples.

(** ** Looking a book up *)

Section LookupFacts.
Import JS Isbn Text Catalog Lookup.

Lemma isValidISBN_clean x : isValidISBN (cleanISBN x) = isValidISBN x.
Proof. unfold isValidISBN. rewrite cleanISBN_idempotent. reflexivity. Qed.

Lemma request_valid i t a :
  isValidISBN (str i) = true ->
  request i t a = Some (lit "isbn:" ++ cleanISBN (str i)).
Proof.
  intros V. unfold request, query. rewrite isValidISBN_clean, V. reflexivity.
Qed.

Lemma request_invalid i t a :
  isValidISBN (str i) = false -> request i t a = request None t a.
Proof.
  intros V. unfold request, query. rewrite isValidISBN_clean, V. reflexivity.
Qed.

Lemma request_clean i t a : request (Some (cleanISBN (str i))) t a = request i t a.
Proof.
  unfold request, query. cbn [str]. rewrite cleanISBN_idempotent. reflexivity.
Qed.

(** X6.  [googleBooksSearch] asks by ISBN whenever the ISBN is valid,
    whatever the title and the author are; it sends no request exactly
    when the ISBN is not valid and title and author are blank; and cleaning
    the ISBN before the call changes nothing. *)
Theorem request_by_isbn_or_by_text :
  forall i t a,
    (isValidISBN (str i) = true ->
     request i t a = Some (lit "isbn:" ++ cleanISBN (str i))) /\
    (request i t a = None <->
     isValidISBN (str i) = false /\ norm (str t) = [] /\ norm (str a) = []) /\
    request (Some (cleanISBN (str i))) t a = request i t a.
Proof.
  intros i t a. split; [apply request_valid|]. split; [|apply request_clean].
  destruct (isValidISBN (str i)) eqn:V.
  - rewrite request_valid by exact V. split; [discriminate | intros [D _]; discriminate D].
  - unfold request, query. rewrite isValidISBN_clean, V.
    destruct (norm (str t)) as [|c1 r1]; destruct (norm (str a)) as [|c2 r2];
      cbn; split; try discriminate; try (intros (_ & D1 & D2); discriminate);
      auto.
Qed.

Example request_examples :
  request (Some (lit "978-0-13-110362-7")) (Some (lit "C")) None
  = Some (lit "isbn:9780131103627") /\
  request (Some (lit "12345")) (Some (lit " Il nome della rosa ")) (Some (lit "Eco"))
  = Some (lit "Il nome della rosa Eco") /\
  request (Some (lit "12345")) None (Some (lit " ")) = None.
Proof. repeat split; reflexivity. Qed.

End LookupFacts.

(** ** The form of a book *)

Section FormFacts.
Import JS Isbn Text Catalog Lookup Form.

Ltac form_simpl :=
  cbn [BookForm field_or saveBook touched str
       id authorLast authorFirst title isbn location archive notes
       personalCoverDataUrl catalogCoverUrl createdAt updatedAt
       f_authorLast f_authorFirst f_title f_isbn f_location f_archive f_notes
       f_personalCoverDataUrl f_catalogCoverUrl scannerOpen initial].

(** X7.  What the scanner hands over reaches the form as it is: the ISBN
    field is set to the scanned string without any further change, and the
    search is by ISBN when the string has 10 or 13 characters, and by the
    title and author of the form otherwise. *)
Theorem scanned_value_fills_the_form :
  forall evs s acts v f,
    Session.run Session.initial evs = Some (s, acts) ->
    In (Session.OnDetected v) acts ->
    fst (onDetectedISBN f v) = setIsbn (setScannerOpen f false) v /\
    snd (onDetectedISBN f v)
    = (if isValidISBN v then Some (lit "isbn:" ++ v)
       else request None (Some (f_title f)) (Some (author_of f))).
Proof.
  intros evs s acts v f H Hv.
  destruct (detected_twice _ _ _ _ H Hv)
    as (evs1 & e & evs2 & s1 & acts1 & s2 & older & _ & _ & _ & Dec & _).
  destruct (decoded_clean _ _ Dec) as (Ne & Cl & _ & _).
  unfold onDetectedISBN. rewrite Cl.
  assert (T : truthy v = true) by (apply truthy_nonempty; exact Ne).
  rewrite T. cbn [fst snd]. split; [reflexivity|].
  destruct (isValidISBN v) eqn:V.
  - rewrite request_valid by exact V. cbn [str]. rewrite Cl. reflexivity.
  - apply request_invalid. exact V.
Qed.

(** X8.  "Cerca" sends the request of the ISBN as typed (cleaning it first
    makes no difference), and leaves the cleaned ISBN in the field unless
    nothing of it would remain. *)
Theorem searchGoogle_cleans_the_field :
  forall f,
    snd (searchGoogle f)
    = request (Some (f_isbn f)) (Some (f_title f)) (Some (author_of f)) /\
    (cleanISBN (f_isbn f) <> [] ->
     fst (searchGoogle f) = setIsbn f (cleanISBN (f_isbn f))) /\
    (cleanISBN (f_isbn f) = [] -> fst (searchGoogle f) = f).
Proof.
  intros f. unfold searchGoogle. cbn [fst snd].
  destruct (cleanISBN (f_isbn f)) as [|c r] eqn:E.
  - cbn. repeat split; congruence.
  - cbn [truthy andb]. split; [rewrite <- E; apply (request_clean (Some (f_isbn f)))|].
    split; [|discriminate]. intros _.
    destruct (eqb (c :: r) (f_isbn f)) eqn:Q; cbn [negb]; [|reflexivity].
    apply eqb_eq in Q. rewrite Q. destruct f; reflexivity.
Qed.

Lemma makeId_truthy r c : truthy (makeId r c) = true.
Proof. unfold makeId. destruct r; reflexivity. Qed.

Lemma canSave_title f : canSave f = true -> norm (f_title f) <> [].
Proof.
  unfold canSave. destruct (norm (f_title f)); [discriminate | discriminate].
Qed.

Lemma norm_idempotent s : norm (norm s) = norm s.
Proof. apply trim_idempotent. Qed.

(** X9.  A book saved from the form has every text field present and
    trimmed, a title that is not blank, an ISBN that [cleanISBN] leaves as
    it is (at most 13 digits or X, possibly none: the ISBN is not checked
    for validity), an identifier that is not empty, and the time of the
    save as its modification time; its creation time is that of the book
    being edited, if it has one. *)
Theorem saved_book_is_normalised :
  forall f now random clock now',
    canSave f = true ->
    let b := saveBook (save_payload f now) (makeId random clock) now' in
    save_click f now = Some (save_payload f now) /\
    (exists t, title b = Some t /\ t <> [] /\ norm t = t) /\
    (exists i, isbn b = Some i /\ cleanISBN i = i /\ (length i <= 13)%nat) /\
    normalised (authorLast b) /\ normalised (authorFirst b) /\
    normalised (location b) /\ normalised (archive b) /\ normalised (notes b) /\
    (exists k, id b = Some k /\ k <> []) /\
    (exists c, createdAt b = Some c /\
               forall i c', initial f = Some i -> createdAt i = Some c' -> c = c') /\
    updatedAt b = Some now'.
Proof.
  intros f now random clock now' C b. subst b.
  split; [unfold save_click; rewrite C; reflexivity|].
  unfold saveBook, save_payload, normalised. form_simpl.
  split. { eexists. split; [reflexivity|].
           split; [apply canSave_title; exact C | apply norm_idempotent]. }
  split. { eexists. split; [reflexivity|].
           split; [apply cleanISBN_idempotent | apply cleanISBN_length]. }
  do 5 (split; [eexists; split; [reflexivity | apply norm_idempotent]|]).
  split. { eexists. split; [reflexivity|]. apply truthy_nonempty.
           destruct (truthy (str _)) eqn:T; [exact T | apply makeId_truthy]. }
  split; [|reflexivity].
  eexists. split; [reflexivity|].
  intros i c' -> ->. reflexivity.
Qed.

(** X10.  Opening a saved book in the form and saving it again, with nothing
    typed, changes its modification time and nothing else. *)
Theorem saving_again_changes_only_updatedAt :
  forall f now random clock now' locations now2 random2 clock2 now3,
    canSave f = true ->
    let b := saveBook (save_payload f now) (makeId random clock) now' in
    canSave (BookForm locations (Some b)) = true /\
    saveBook (save_payload (BookForm locations (Some b)) now2)
             (makeId random2 clock2) now3
    = touched b now3.
Proof.
  intros f now random clock now' locations now2 random2 clock2 now3 C b.
  subst b. split.
  { unfold canSave in *. unfold saveBook, save_payload. form_simpl.
    rewrite norm_idempotent. exact C. }
  unfold saveBook, save_payload, touched. form_simpl.
  rewrite !norm_idempotent, cleanISBN_idempotent.
  assert (T : truthy (if truthy (str match initial f with
                                       | Some b => id b
                                       | None => None
                                       end)
                      then str match initial f with
                               | Some b => id b
                               | None => None
                               end
                      else makeId random clock) = true).
  { destruct (truthy (str _)) eqn:T; [exact T | apply makeId_truthy]. }
  rewrite T. reflexivity.
Qed.

End FormFacts.

Section FormExamples.
Import JS Isbn Text Catalog Lookup Form.

Lemma saved_book_is_normalised_witness :
  canSave a_form = true /\
  let b := saveBook (save_payload a_form 1000) (makeId (lit "3fa2") (lit "18c")) 1001 in
  save_click a_form 1000 = Some (save_payload a_form 1000) /\
  (exists t, title b = Some t /\ t <> [] /\ norm t = t) /\
  (exists i, isbn b = Some i /\ cleanISBN i = i /\ (length i <= 13)%nat) /\
  normalised (authorLast b) /\ normalised (authorFirst b) /\
  normalised (location b) /\ normalised (archive b) /\ normalised (notes b) /\
  (exists k, id b = Some k /\ k <> []) /\
  (exists c, createdAt b = Some c /\
             forall i c', initial a_form = Some i -> createdAt i = Some c' -> c = c') /\
  updatedAt b = Some 1001%Z.
Proof.
  split; [reflexivity|].
  apply (saved_book_is_normalised a_form 1000 (lit "3fa2") (lit "18c") 1001).
  reflexivity.
Defined.

Lemma saving_again_changes_only_updatedAt_witness :
  canSave a_form = true /\
  let b := saveBook (save_payload a_form 1000) (makeId (lit "3fa2") (lit "18c")) 1001 in
  canSave (BookForm [lit "salone"] (Some b)) = true /\
  saveBook (save_payload (BookForm [lit "salone"] (Some b)) 2000)
           (makeId (lit "77") (lit "18d")) 2001
  = touched b 2001.
Proof.
  split; [reflexivity|].
  apply (saving_again_changes_only_updatedAt a_form 1000 (lit "3fa2") (lit "18c")
           1001 [lit "salone"] 2000 (lit "77") (lit "18d") 2001).
  reflexivity.
Defined.

End FormExamples.

Lemma scanned_value_fills_the_form_witness :
  fst (Form.onDetectedISBN (Form.BookForm [JS.lit "studio"] None) Scenario.isbn_a)
  = Form.setIsbn (Form.setScannerOpen (Form.BookForm [JS.lit "studio"] None) false)
      Scenario.isbn_a /\
  snd (Form.onDetectedISBN (Form.BookForm [JS.lit "studio"] None) Scenario.isbn_a)
  = (if Isbn.isValidISBN Scenario.isbn_a
     then Some (JS.lit "isbn:" ++ Scenario.isbn_a)
     else Lookup.request None
            (Some (Form.f_title (Form.BookForm [JS.lit "studio"] None)))
            (Some (Form.author_of (Form.BookForm [JS.lit "studio"] None)))).
Proof.
  apply (scanned_value_fills_the_form Scenario.scenario_A _ _ Scenario.isbn_a
           (Form.BookForm [JS.lit "studio"] None) eq_refl).
  vm_compute. do 5 right. left. reflexivity.
Defined.

(** ** The list of locations *)

Section LocationsFacts.
Import JS Isbn.

Lemma existsb_eqb v items : existsb (eqb v) items = true <-> In v items.
Proof.
  rewrite existsb_exists. split.
  - intros (x & I & E). apply eqb_eq in E. subst. exact I.
  - intros I. exists v. split; [exact I | apply eqb_eq; reflexivity].
Qed.

(** X11.  Adding to the list of locations keeps the list as it is and
    appends at most one entry; it never appends a blank entry nor one that
    the list already has, so a list without duplicates stays without. *)
Theorem add_keeps_locations_distinct :
  forall items newLoc,
    NoDup items ->
    NoDup (Locations.add items newLoc) /\
    (forall x, In x (Locations.add items newLoc) <->
               In x items \/ (x = norm newLoc /\ x <> [])) /\
    (Locations.add items newLoc = items \/
     Locations.add items newLoc = items ++ [norm newLoc]).
Proof.
  intros items newLoc N. unfold Locations.add.
  destruct (truthy (norm newLoc)) eqn:T; cbn [negb orb].
  - destruct (existsb (eqb (norm newLoc)) items) eqn:X.
    + split; [exact N|]. split; [|left; reflexivity].
      apply (proj1 (existsb_eqb _ _)) in X. intros x. split; [auto|].
      intros [I | [-> _]]; assumption.
    + assert (NI : ~ In (norm newLoc) items).
      { intros I. apply (proj2 (existsb_eqb _ _)) in I. congruence. }
      split. { apply NoDup_app. split; [exact N|]. split.
               - intros x I H. apply list_elem_of_singleton in H. subst x.
                 apply NI. apply list_elem_of_In. exact I.
               - apply NoDup_singleton. }
      split; [|right; reflexivity].
      intros x. rewrite in_app_iff. simpl. split.
      * intros [I | [<- | []]]; [left; exact I | right].
        split; [reflexivity | apply truthy_nonempty; exact T].
      * intros [I | [-> _]]; auto.
  - split; [exact N|]. split; [|left; reflexivity].
    intros x. split; [auto|]. intros [I | [-> Ne]]; [exact I|].
    apply truthy_nonempty in Ne. congruence.
Qed.

Lemma add_keeps_locations_distinct_witness :
  NoDup (Locations.add [lit "salone"; lit "studio"] (lit " cantina ")) /\
  (forall x, In x (Locations.add [lit "salone"; lit "studio"] (lit " cantina ")) <->
             In x [lit "salone"; lit "studio"]
             \/ (x = norm (lit " cantina ") /\ x <> [])) /\
  (Locations.add [lit "salone"; lit "studio"] (lit " cantina ")
   = [lit "salone"; lit "studio"] \/
   Locations.add [lit "salone"; lit "studio"] (lit " cantina ")
   = [lit "salone"; lit "studio"] ++ [norm (lit " cantina ")]).
Proof.
  apply (add_keeps_locations_distinct [lit "salone"; lit "studio"] (lit " cantina ")).
  apply NoDup_cons. split; [|apply NoDup_singleton].
  intros H. apply list_elem_of_singleton in H. discriminate H.
Defined.

Lemma remove_absent items loc : ~ In loc items -> Locations.remove items loc = items.
Proof.
  intros N. unfold Locations.remove. apply filter_all.
  intros x I. apply negb_true_iff. apply eqb_neq. intros ->. exact (N I).
Qed.

(** X12.  Removing a location deletes every entry equal to it and no other
    entry; removing a location that was just added gives the list back. *)
Theorem remove_deletes_the_location :
  forall items loc,
    ~ In loc (Locations.remove items loc) /\
    (forall x, x <> loc -> (In x (Locations.remove items loc) <-> In x items)) /\
    (forall newLoc, ~ In (norm newLoc) items ->
                    Locations.remove (Locations.add items newLoc) (norm newLoc) = items).
Proof.
  intros items loc. unfold Locations.remove at 1 2.
  split. { rewrite filter_In. intros [_ H]. apply negb_true_iff, eqb_neq in H.
           congruence. }
  split. { intros x D. rewrite filter_In. split; [intros [I _]; exact I|].
           intros I. split; [exact I|]. apply negb_true_iff, eqb_neq. exact D. }
  intros newLoc N. unfold Locations.add.
  destruct (negb (truthy (norm newLoc)) || existsb (eqb (norm newLoc)) items).
  - apply remove_absent. exact N.
  - unfold Locations.remove. rewrite List.filter_app. simpl.
    replace (eqb (norm newLoc) (norm newLoc)) with true
      by (symmetry; apply eqb_eq; reflexivity).
    simpl. rewrite app_nil_r. apply (remove_absent items (norm newLoc) N).
Qed.

End LocationsFacts.

(** ** Focus and zoom *)

Section FocusFacts.
Import JS Focus.

Lemma SFcompare_antisym a b c :
  SFcompare a b = Some c -> SFcompare b a = Some (CompOpp c).
Proof.
  destruct a as [sa|sa| |sa ma ea], b as [sb|sb| |sb mb eb]; simpl;
    try discriminate; intros E; injection E as <-;
    try (destruct sa); try (destruct sb); try reflexivity.
  - rewrite (Z.compare_antisym ea eb).
    destruct (ea ?= eb)%Z; simpl; try reflexivity.
    do 2 f_equal. symmetry. exact (Pos.compare_cont_antisym ma mb Eq).
  - rewrite (Z.compare_antisym ea eb).
    destruct (ea ?= eb)%Z; simpl; try reflexivity.
    f_equal. symmetry. exact (Pos.compare_cont_antisym ma mb Eq).
Qed.

Lemma SFcompare_defined a b :
  a <> S754_nan -> b <> S754_nan -> exists c, SFcompare a b = Some c.
Proof.
  destruct a, b; simpl; try congruence; eauto.
Qed.

Lemma SFcompare_some a b c :
  SFcompare a b = Some c -> a <> S754_nan /\ b <> S754_nan.
Proof. destruct a, b; simpl; try discriminate; split; discriminate. Qed.

Lemma SFcompare_refl a : a <> S754_nan -> SFcompare a a = Some Eq.
Proof.
  intros N. destruct (SFcompare_defined a a N N) as [c E].
  pose proof (SFcompare_antisym _ _ _ E) as E'.
  assert (K : Some c = Some (CompOpp c)) by congruence.
  destruct c; try discriminate K. exact E.
Qed.

Lemma is_nan_spec x : is_nan x = false <-> Prim2SF x <> S754_nan.
Proof.
  unfold is_nan. rewrite FloatAxioms.eqb_spec. unfold SFeqb. split.
  - intros H N. rewrite N in H. discriminate H.
  - intros N. rewrite SFcompare_refl by exact N. reflexivity.
Qed.

Lemma leb_not_nan x y :
  (x <=? y)%float = true -> is_nan x = false /\ is_nan y = false.
Proof.
  rewrite FloatAxioms.leb_spec. unfold SFleb. destruct (SFcompare _ _) as [c|] eqn:E;
    [|discriminate].
  intros _. apply SFcompare_some in E. rewrite !is_nan_spec. exact E.
Qed.

Lemma leb_refl x : is_nan x = false -> (x <=? x)%float = true.
Proof.
  intros N. apply is_nan_spec in N. rewrite FloatAxioms.leb_spec. unfold SFleb.
  rewrite SFcompare_refl by exact N. reflexivity.
Qed.

Lemma leb_not_ltb x y : (x <=? y)%float = true -> (y <? x)%float = false.
Proof.
  rewrite FloatAxioms.leb_spec, FloatAxioms.ltb_spec. unfold SFleb, SFltb.
  destruct (SFcompare (Prim2SF x) (Prim2SF y)) as [c|] eqn:E; [|discriminate].
  rewrite (SFcompare_antisym _ _ _ E). destruct c; simpl; congruence.
Qed.

Lemma not_ltb_leb x y :
  is_nan x = false -> is_nan y = false ->
  (x <? y)%float = false -> (y <=? x)%float = true.
Proof.
  intros Nx Ny. apply is_nan_spec in Nx, Ny.
  rewrite FloatAxioms.leb_spec, FloatAxioms.ltb_spec. unfold SFleb, SFltb.
  destruct (SFcompare_defined _ _ Nx Ny) as [c E]. rewrite E.
  rewrite (SFcompare_antisym _ _ _ E). destruct c; simpl; congruence.
Qed.

Lemma ltb_leb x y : (x <? y)%float = true -> (x <=? y)%float = true.
Proof.
  rewrite FloatAxioms.leb_spec, FloatAxioms.ltb_spec. unfold SFleb, SFltb.
  destruct (SFcompare _ _) as [[| |]|]; congruence.
Qed.

(** A number above 1.2 is not a zero. *)
Lemma above_not_zero y :
  (1.2 <? y)%float = true -> is_pos_zero y = false.
Proof.
  unfold is_pos_zero. rewrite FloatAxioms.ltb_spec, FloatAxioms.classify_spec. unfold SFltb.
  destruct (Prim2SF y) as [[|]|[|]| |[|] m e]; cbn [SFcompare];
    try discriminate; intros _; unfold SF64classify, SFclassify;
    try reflexivity; destruct (_ =? _)%Z; reflexivity.
Qed.

(** X13.  The zoom asked of a camera whose range is in order is 1.2 brought
    into the range: the lower bound when that is above 1.2, the upper
    bound when that is below 1.2, and 1.2 otherwise.  It is never outside
    the range. *)
Theorem zoom_target_is_in_range :
  forall r,
    (or_one (min r) <=? or_one (max r))%float = true ->
    zoom_target r
    = (if (1.2 <? or_one (min r))%float then or_one (min r)
       else if (or_one (max r) <? 1.2)%float then or_one (max r)
       else 1.2%float) /\
    (or_one (min r) <=? zoom_target r)%float = true /\
    (zoom_target r <=? or_one (max r))%float = true.
Proof.
  intros r H. unfold zoom_target. cbv zeta.
  set (zmin := or_one (min r)) in *. set (zmax := or_one (max r)) in *.
  destruct (leb_not_nan _ _ H) as [Nmin Nmax].
  assert (N12 : is_nan 1.2 = false) by reflexivity.
  assert (Z12 : is_neg_zero 1.2 = false) by reflexivity.
  assert (P12 : is_pos_zero 1.2 = false) by reflexivity.
  assert (M : Math_max 1.2 zmin = if (1.2 <? zmin)%float then zmin else 1.2%float).
  { unfold Math_max. rewrite N12, Nmin, Z12, andb_false_r. reflexivity. }
  rewrite M. destruct (1.2 <? zmin)%float eqn:A.
  - assert (E : Math_min zmin zmax = zmin).
    { unfold Math_min. rewrite Nmin, Nmax, (above_not_zero _ A), andb_false_r.
      rewrite (leb_not_ltb _ _ H). reflexivity. }
    rewrite E. split; [reflexivity|]. split; [apply leb_refl; exact Nmin | exact H].
  - assert (E : Math_min 1.2 zmax = if (zmax <? 1.2)%float then zmax else 1.2%float).
    { unfold Math_min. rewrite N12, Nmax, P12, andb_false_r. reflexivity. }
    rewrite E. split; [reflexivity|].
    destruct (zmax <? 1.2)%float eqn:B.
    + split; [exact H | apply leb_refl; exact Nmax].
    + split; apply not_ltb_leb; assumption.
Qed.

Lemma zoom_target_is_in_range_witness :
  (or_one (min {| min := Some 2%float; max := Some 10%float |})
   <=? or_one (max {| min := Some 2%float; max := Some 10%float |}))%float = true /\
  zoom_target {| min := Some 2%float; max := Some 10%float |}
  = (if (1.2 <? or_one (min {| min := Some 2%float; max := Some 10%float |}))%float
     then or_one (min {| min := Some 2%float; max := Some 10%float |})
     else if (or_one (max {| min := Some 2%float; max := Some 10%float |}) <? 1.2)%float
          then or_one (max {| min := Some 2%float; max := Some 10%float |})
          else 1.2%float) /\
  (or_one (min {| min := Some 2%float; max := Some 10%float |})
   <=? zoom_target {| min := Some 2%float; max := Some 10%float |})%float = true /\
  (zoom_target {| min := Some 2%float; max := Some 10%float |}
   <=? or_one (max {| min := Some 2%float; max := Some 10%float |}))%float = true.
Proof.
  split; [reflexivity|].
  apply (zoom_target_is_in_range {| min := Some 2%float; max := Some 10%float |}).
  reflexivity.
Defined.

Example zoom_examples :
  zoom_target {| min := Some 1%float; max := Some 5%float |} = 1.2%float /\
  zoom_target {| min := Some 2%float; max := Some 10%float |} = 2%float /\
  zoom_target {| min := None; max := None |} = 1%float /\
  zoom_target {| min := Some 3%float; max := Some 1%float |} = 1%float.
Proof. repeat split; reflexivity. Qed.

(** X14.  Every constraint that [tryApplyFocus] asks for is one the camera
    reports: a focus mode of its list, "continuous" when the list has it
    and "auto" only when it has not; a zoom only when the camera reports a
    range, and only when it differs from the current zoom.  At most one
    focus mode and one zoom are asked for, the focus mode first. *)
Theorem advanced_constraints_are_supported :
  forall caps st,
    (forall m, In (FocusModeOf m) (advanced caps st) ->
       exists modes, focusMode caps = Some modes /\ In m modes /\
         (m = lit "continuous" \/ (m = lit "auto" /\ ~ In (lit "continuous") modes))) /\
    (forall z, In (ZoomOf z) (advanced caps st) ->
       exists r, zoom caps = Some r /\ z = zoom_target r /\
                 (z =? or_one (zoom_now st))%float = false) /\
    (exists f z, advanced caps st = f ++ z /\
       (f = [] \/ exists m, f = [FocusModeOf m]) /\
       (z = [] \/ exists v, z = [ZoomOf v])).
Proof.
  intros caps st. unfold advanced.
  set (F := match focusMode caps with Some _ => _ | None => _ end).
  set (Zm := match zoom caps with Some _ => _ | None => _ end).
  assert (HF : forall m, In (FocusModeOf m) F ->
     exists modes, focusMode caps = Some modes /\ In m modes /\
       (m = lit "continuous" \/ (m = lit "auto" /\ ~ In (lit "continuous") modes))).
  { subst F. intros m. destruct (focusMode caps) as [modes|]; [|intros []].
    destruct (existsb (eqb (lit "continuous")) modes) eqn:C.
    - intros [E|[]]. injection E as <-. exists modes.
      apply (proj1 (existsb_eqb _ _)) in C. auto.
    - destruct (existsb (eqb (lit "auto")) modes) eqn:A; [|intros []].
      intros [E|[]]. injection E as <-. exists modes.
      apply (proj1 (existsb_eqb _ _)) in A.
      split; [reflexivity|]. split; [exact A|]. right. split; [reflexivity|].
      intros I. apply (proj2 (existsb_eqb _ _)) in I. congruence. }
  assert (HZ : forall z, In (ZoomOf z) Zm ->
     exists r, zoom caps = Some r /\ z = zoom_target r /\
               (z =? or_one (zoom_now st))%float = false).
  { subst Zm. intros z. destruct (zoom caps) as [r|]; [|intros []]. cbv zeta.
    destruct (zoom_target r =? or_one (zoom_now st))%float eqn:Q; cbn [negb];
      [intros []|].
    intros [E|[]]. injection E as <-. exists r. auto. }
  assert (NF : forall z, ~ In (ZoomOf z) F).
  { subst F. intros z. destruct (focusMode caps) as [modes|]; [|intros []].
    destruct (existsb _ modes); [intros [E|[]]; discriminate E|].
    destruct (existsb _ modes); [intros [E|[]]; discriminate E | intros []]. }
  assert (NZ : forall m, ~ In (FocusModeOf m) Zm).
  { subst Zm. intros m. destruct (zoom caps) as [r|]; [|intros []]. cbv zeta.
    destruct (negb _); [intros [E|[]]; discriminate E | intros []]. }
  split. { intros m I. apply in_app_iff in I. destruct I as [I|I];
             [apply HF; exact I | destruct (NZ _ I)]. }
  split. { intros z I. apply in_app_iff in I. destruct I as [I|I];
             [destruct (NF _ I) | apply HZ; exact I]. }
  exists F, Zm. split; [reflexivity|]. split.
  - subst F. destruct (focusMode caps) as [modes|]; [|left; reflexivity].
    destruct (existsb _ modes); [right; eauto|].
    destruct (existsb _ modes); [right; eauto | left; reflexivity].
  - subst Zm. destruct (zoom caps) as [r|]; [|left; reflexivity]. cbv zeta.
    destruct (negb _); [right; eauto | left; reflexivity].
Qed.

Example tryApplyFocus_examples :
  tryApplyFocus phone {| zoom_now := Some 1%float |}
  = Some [FocusModeOf (lit "continuous"); ZoomOf 1.2%float] /\
  tryApplyFocus tele {| zoom_now := Some 2%float |}
  = Some [FocusModeOf (lit "auto")] /\
  tryApplyFocus {| focusMode := None; zoom := None |} {| zoom_now := None |} = None.
Proof. repeat split; reflexivity. Qed.

End FocusFacts.

(** ** The store of [data.js] *)

Section DataFacts.
Import JS Text Data.

Context {V : Type}.
Variable sort_it : list (book V) -> list (book V).
Hypothesis sort_it_permutes : forall l, sort_it l ≡ₚ l.

Implicit Types (st : store V) (b d : book V) (k i : jsstring).

Lemma getLocations_nonempty st : fst (getLocations st) <> [].
Proof.
  unfold getLocations. destruct (meta st) as [[[|x l]|]|]; discriminate.
Qed.

(** X15.  [getLocations] never returns an empty list: a store without
    settings gets the six default locations written to it, and an empty
    stored list reads as ["salone"].  It leaves the books alone, a second
    call returns the same list and writes nothing, and a list that is not
    empty is read back as [setLocations] stored it. *)
Theorem getLocations_is_never_empty :
  forall st,
    fst (getLocations st) <> [] /\
    books (snd (getLocations st)) = books st /\
    getLocations (snd (getLocations st))
    = (fst (getLocations st), snd (getLocations st)) /\
    (meta st = None -> getLocations st = (defaults, setLocations st defaults)) /\
    (meta st = Some None \/ meta st = Some (Some []) ->
     getLocations st = ([lit "salone"], st)) /\
    (forall l, l <> [] ->
               getLocations (setLocations st l) = (l, setLocations st l)).
Proof.
  intros st. unfold getLocations.
  destruct (meta st) as [[[|x l]|]|] eqn:M; cbn [fst snd];
    repeat split; try discriminate; try reflexivity;
    try (rewrite M; reflexivity);
    try (intros [N|N]; discriminate N);
    intros [|y l'] N; try congruence; reflexivity.
Qed.

Lemma union_self (m : gmap jsstring V) : m ∪ m = m.
Proof.
  apply map_eq. intros f. rewrite lookup_union.
  destruct (m !! f); reflexivity.
Qed.

Lemma upsertBook_inv st b st' :
  upsertBook st b = Some st' ->
  exists i, id b = Some i /\ truthy i = true /\
            st' = {| books := <[i := merge_doc b (books st !! i)]> (books st);
                     meta := meta st |}.
Proof.
  unfold upsertBook. destruct (id b) as [i|]; [|discriminate].
  destruct (truthy i) eqn:T; [|discriminate].
  intros E. injection E as <-. exists i. auto.
Qed.

Lemma deleteBook_inv st o st' :
  deleteBook st o = Some st' ->
  exists i, o = Some i /\ truthy i = true /\
            st' = {| books := delete i (books st); meta := meta st |}.
Proof.
  unfold deleteBook. destruct o as [i|]; [|discriminate].
  destruct (truthy i) eqn:T; [|discriminate].
  intros E. injection E as <-. exists i. auto.
Qed.

(** *** The identifiers *)

Lemma upsertBook_consistent st b st' :
  consistent st -> upsertBook st b = Some st' -> consistent st'.
Proof.
  intros C U. destruct (upsertBook_inv _ _ _ U) as (i & E & T & ->).
  intros k d. cbn [books]. rewrite lookup_insert.
  destruct (decide (i = k)) as [->|N].
  - intros [= <-]. split; [exact E | exact T].
  - apply C.
Qed.

Lemma deleteBook_consistent st o st' :
  consistent st -> deleteBook st o = Some st' -> consistent st'.
Proof.
  intros C U. destruct (deleteBook_inv _ _ _ U) as (i & E & T & ->).
  intros k d. cbn [books]. rewrite lookup_delete.
  destruct (decide (i = k)); [discriminate | apply C].
Qed.

Lemma delete_each_consistent l : forall st st',
  consistent st -> delete_each st l = Some st' -> consistent st'.
Proof.
  induction l as [|b l IH]; intros st st' C; simpl.
  - intros [= <-]. exact C.
  - destruct (deleteBook st (id b)) as [st1|] eqn:D; [|discriminate].
    apply IH. eapply deleteBook_consistent; eassumption.
Qed.

Lemma upsert_each_consistent l : forall st st',
  consistent st -> upsert_each st l = Some st' -> consistent st'.
Proof.
  induction l as [|b l IH]; intros st st' C; simpl.
  - intros [= <-]. exact C.
  - destruct (negb (truthy (str (id b)))); [apply IH; exact C|].
    destruct (upsertBook st b) as [st1|] eqn:U; [|discriminate].
    apply IH. eapply upsertBook_consistent; eassumption.
Qed.

Lemma setLocations_consistent st l : consistent st -> consistent (setLocations st l).
Proof. intros C. exact C. Qed.

(** The entries of [listBooks] are the documents, each under its own
    identifier. *)
Lemma listBooks_elem st b :
  consistent st ->
  (b ∈ listBooks sort_it st <-> exists k, id b = Some k /\ books st !! k = Some b).
Proof.
  intros C. unfold listBooks. rewrite sort_it_permutes.
  rewrite list_elem_of_In, in_map_iff. split.
  - intros ([k d] & E & I). apply list_elem_of_In, elem_of_map_to_list in I.
    destruct (C _ _ I) as [Ei _]. cbn [fst snd] in E. subst b. exists k.
    unfold listed. rewrite Ei. split; [reflexivity|].
    rewrite I. destruct d; cbn in *. congruence.
  - intros (k & E & L). exists (k, b). split.
    + cbn [fst snd]. unfold listed. rewrite E. destruct b; cbn in *. congruence.
    + apply list_elem_of_In, elem_of_map_to_list. exact L.
Qed.

Lemma delete_each_spec l : forall st,
  (forall b, b ∈ l -> exists i, id b = Some i /\ truthy i = true) ->
  exists st', delete_each st l = Some st' /\ meta st' = meta st /\
    (forall k, (exists b, b ∈ l /\ id b = Some k) -> books st' !! k = None) /\
    (forall k, books st !! k = None -> books st' !! k = None) /\
    (forall k, (forall b, b ∈ l -> id b <> Some k) -> books st' !! k = books st !! k).
Proof.
  induction l as [|b l IH]; intros st H.
  - exists st. repeat split; auto.
    intros k (b & I & _). inversion I.
  - destruct (H b) as (i & E & T); [left|].
    cbn [delete_each]. unfold deleteBook. rewrite E, T.
    set (st1 := {| books := delete i (books st); meta := meta st |}).
    destruct (IH st1) as (st' & D & M & Gone & Still & Same).
    { intros b' I. apply H. right. exact I. }
    exists st'. split; [exact D|]. split; [exact M|]. split; [|split].
    + intros k (b' & I & E'). inversion I; subst.
      * assert (i = k) by congruence. subst. apply Still.
        cbn [st1 books]. apply lookup_delete_eq.
      * apply Gone. eauto.
    + intros k N. apply Still. cbn [st1 books]. rewrite lookup_delete.
      destruct (decide (i = k)); [reflexivity | exact N].
    + intros k N. rewrite Same.
      * cbn [st1 books]. apply lookup_delete_ne. intros ->.
        apply (N b); [left | exact E].
      * intros b' I'. apply N. right. exact I'.
Qed.

Lemma delete_listed st :
  consistent st ->
  exists st', delete_each st (listBooks sort_it st) = Some st' /\
              books st' = ∅ /\ meta st' = meta st.
Proof.
  intros C.
  destruct (delete_each_spec (listBooks sort_it st) st)
    as (st' & D & M & Gone & Still & _).
  { intros b I. apply (listBooks_elem _ _ C) in I. destruct I as (k & E & L).
    exists k. split; [exact E|]. apply (C _ _ L). }
  exists st'. split; [exact D|]. split; [|exact M].
  apply map_eq. intros k. rewrite lookup_empty.
  destruct (books st !! k) as [d|] eqn:L.
  - apply Gone. exists d. split; [|apply (C _ _ L)].
    apply (listBooks_elem _ _ C). exists k. split; [apply (C _ _ L) | exact L].
  - apply Still. exact L.
Qed.

Lemma elem_of_written (l : list (book V)) k :
  k ∈ written l <-> exists b, b ∈ l /\ id b = Some k /\ truthy k = true.
Proof.
  unfold written. rewrite list_elem_of_omap. split.
  - intros (b & I & E). exists b. split; [exact I|].
    destruct (id b) as [i|]; [|discriminate].
    destruct (truthy i) eqn:T; [|discriminate]. injection E as ->. auto.
  - intros (b & I & E & T). exists b. split; [exact I|]. rewrite E, T. reflexivity.
Qed.

Lemma written_cons b (l : list (book V)) :
  written (b :: l)
  = match id b with
    | Some i => if truthy i then i :: written l else written l
    | None => written l
    end.
Proof.
  unfold written. cbn. destruct (id b) as [i|]; [|reflexivity].
  destruct (truthy i); reflexivity.
Qed.

Lemma upsert_each_step b l st :
  upsert_each st (b :: l)
  = match id b with
    | Some i =>
        if truthy i
        then upsert_each {| books := <[i := merge_doc b (books st !! i)]> (books st);
                            meta := meta st |} l
        else upsert_each st l
    | None => upsert_each st l
    end.
Proof.
  cbn [upsert_each]. unfold upsertBook.
  destruct (id b) as [i|]; cbn [str]; [|reflexivity].
  destruct (truthy i); reflexivity.
Qed.

(** The loop of [importBackupJSON] always completes: it changes no
    document but those it writes, and deletes none. *)
Lemma upsert_each_spec l : forall st,
  exists st', upsert_each st l = Some st' /\ meta st' = meta st /\
    (forall k, k ∉ written l -> books st' !! k = books st !! k) /\
    (forall k, k ∈ written l -> is_Some (books st' !! k)) /\
    (forall k, is_Some (books st !! k) -> is_Some (books st' !! k)).
Proof.
  induction l as [|b l IH]; intros st.
  - exists st. repeat split; auto. intros k I. inversion I.
  - rewrite upsert_each_step, written_cons. destruct (id b) as [i|]; [|apply IH].
    destruct (truthy i) eqn:T; [|apply IH].
    set (st1 := {| books := _; meta := _ |}).
    destruct (IH st1) as (st' & U & M & Same & New & Kept).
    exists st'. split; [exact U|]. split; [exact M|]. split; [|split].
    + intros k N. rewrite Same by (intros I; apply N; right; exact I).
      cbn [st1 books]. apply lookup_insert_ne. intros ->. apply N. left.
    + intros k I. inversion I; subst.
      * apply Kept. cbn [st1 books]. rewrite lookup_insert_eq. eauto.
      * apply New. assumption.
    + intros k S. apply Kept. cbn [st1 books]. rewrite lookup_insert.
      destruct (decide (i = k)); [eauto | exact S].
Qed.

(** When no identifier occurs twice, each book written is merged into the
    document that the store had before the loop. *)
Lemma upsert_each_fresh l : forall st st',
  NoDup (written l) -> upsert_each st l = Some st' ->
  forall b k, b ∈ l -> id b = Some k -> truthy k = true ->
              books st' !! k = Some (merge_doc b (books st !! k)).
Proof.
  induction l as [|b l IH]; intros st st' N U b' k I E T.
  - inversion I.
  - rewrite upsert_each_step in U. rewrite written_cons in N.
    apply elem_of_cons in I. destruct I as [->|I'].
    + rewrite E, T in U, N. apply NoDup_cons in N. destruct N as [Nk N].
      destruct (upsert_each_spec l
                  {| books := <[k := merge_doc b (books st !! k)]> (books st);
                     meta := meta st |})
        as (st'' & U' & _ & Same & _).
      rewrite U in U'. injection U' as <-.
      rewrite (Same k Nk). cbn [books]. apply lookup_insert_eq.
    + destruct (id b) as [i|] eqn:Eb; [|eapply IH; eassumption].
      destruct (truthy i) eqn:Ti; [|eapply IH; eassumption].
      apply NoDup_cons in N. destruct N as [Ni N].
      rewrite (IH _ _ N U b' k I' E T). cbn [books].
      rewrite lookup_insert_ne; [reflexivity|].
      intros ->. apply Ni. apply elem_of_written. eauto.
Qed.

Lemma written_listed (l : list (jsstring * book V)) :
  Forall (fun kd => id (snd kd) = Some (fst kd) /\ truthy (fst kd) = true) l ->
  written (List.map (fun kd => listed (fst kd) (snd kd)) l) = l.*1.
Proof.
  induction 1 as [|[k d] l [E T] _ IH]; [reflexivity|].
  cbn [List.map]. rewrite written_cons. cbn [fst snd] in *.
  unfold listed at 1. cbn [id]. rewrite E, T, IH. reflexivity.
Qed.

Lemma written_listBooks st :
  consistent st -> written (listBooks sort_it st) ≡ₚ (map_to_list (books st)).*1.
Proof.
  intros C. unfold listBooks, written. rewrite sort_it_permutes.
  fold (written (List.map (fun kd => listed (fst kd) (snd kd))
                          (map_to_list (books st)))).
  rewrite written_listed; [reflexivity|].
  apply Forall_forall. intros [k d] I. apply elem_of_map_to_list in I.
  apply (C _ _ I).
Qed.

Lemma NoDup_written_listBooks st :
  consistent st -> NoDup (written (listBooks sort_it st)).
Proof.
  intros C. rewrite (written_listBooks _ C). apply NoDup_fst_map_to_list.
Qed.

(** X18.  [clearAllData] deletes every book and stores the six default
    locations, which [getLocations] then returns. *)
Theorem clearAllData_empties_the_store :
  forall st,
    consistent st ->
    exists st',
      clearAllData sort_it st = Some st' /\
      books st' = ∅ /\ listBooks sort_it st' = [] /\
      getLocations st' = (defaults, st').
Proof.
  intros st C. destruct (delete_listed st C) as (st1 & D & B & M).
  exists (setLocations st1 defaults). unfold clearAllData. rewrite D.
  split; [reflexivity|]. split; [exact B|]. split; [|reflexivity].
  unfold listBooks. cbn [setLocations books]. rewrite B, map_to_list_empty.
  apply Permutation_nil_r. apply (sort_it_permutes []).
Qed.

(** X21.  A backup restores the books: importing what [exportBackupJSON]
    returned, in the mode "replace" and into any store, gives the books
    and the locations of the store that was exported; importing it in
    another mode into the exported store itself changes no book. *)
Theorem backup_round_trip :
  forall st now st0 mode,
    consistent st -> consistent st0 ->
    eqb mode (lit "replace") = false ->
    (exists st2,
        importBackupJSON sort_it (Some (fst (exportBackupJSON sort_it st now)))
                         (lit "replace") st0 = Some st2 /\
        books st2 = books st /\
        fst (getLocations st2) = fst (getLocations st)) /\
    (exists st3,
        importBackupJSON sort_it (Some (fst (exportBackupJSON sort_it st now)))
                         mode (snd (exportBackupJSON sort_it st now)) = Some st3 /\
        books st3 = books st /\
        fst (getLocations st3) = fst (getLocations st)).
Proof.
  intros st now st0 mode C C0 R.
  unfold exportBackupJSON. cbv zeta.
  destruct (getLocations st) as [locs st1] eqn:G. cbn [fst snd].
  assert (NL : locs <> []).
  { pose proof (getLocations_nonempty st) as H. rewrite G in H. exact H. }
  assert (B1 : books st1 = books st).
  { unfold getLocations in G. destruct (meta st); injection G as <- <-; reflexivity. }
  set (p := Some {| version := 2; exportedAt := now;
                    libraryId := lit "biblioteca-scott";
                    locations := Some locs;
                    p_books := Some (listBooks sort_it st) |}).
  assert (K : forall s s',
             upsert_each s (listBooks sort_it st) = Some s' ->
             (forall k d, books st !! k = Some d ->
                          merge_doc d (books s !! k) = d) ->
             (forall k, books st !! k = None -> books s !! k = None) ->
             books s' = books st).
  { intros s s' U Hm Hn. apply map_eq. intros k.
    destruct (books st !! k) as [d|] eqn:L.
    - assert (I : d ∈ listBooks sort_it st).
      { apply (listBooks_elem _ _ C). exists k. split; [apply (C _ _ L) | exact L]. }
      rewrite (upsert_each_fresh _ _ _ (NoDup_written_listBooks _ C) U d k I);
        [|apply (C _ _ L) | apply (C _ _ L)].
      rewrite (Hm k d L). reflexivity.
    - destruct (upsert_each_spec (listBooks sort_it st) s) as (s'' & U' & _ & Same & _).
      rewrite U in U'. injection U' as <-. rewrite Same; [apply Hn; exact L|].
      intros I. apply elem_of_written in I. destruct I as (b & I & E & _).
      apply (listBooks_elem _ _ C) in I. destruct I as (k' & E' & L').
      assert (k' = k) by congruence. subst. congruence. }
  split.
  - unfold importBackupJSON. cbv zeta. subst p. cbn [incomingLocs incoming locations p_books].
    change (eqb (lit "replace") (lit "replace")) with true. cbv iota.
    destruct locs as [|x locs]; [congruence|].
    destruct (delete_listed (setLocations st0 (x :: locs)) C0) as (s & D & B & M).
    rewrite D.
    destruct (upsert_each_spec (listBooks sort_it st) s) as (st2 & U & M2 & _).
    exists st2. split; [exact U|]. split.
    + apply (K s st2 U).
      * intros k d L. rewrite B, lookup_empty. unfold merge_doc.
        rewrite (right_id_L ∅ (∪)). destruct d; reflexivity.
      * intros k _. rewrite B. apply lookup_empty.
    + unfold getLocations. rewrite M2, M. reflexivity.
  - unfold importBackupJSON. cbv zeta. subst p. cbn [incomingLocs incoming locations p_books].
    rewrite R.
    destruct locs as [|x locs]; [congruence|].
    destruct (upsert_each_spec (listBooks sort_it st) (setLocations st1 (x :: locs)))
      as (st3 & U & M3 & _).
    exists st3. split; [exact U|]. split.
    + apply (K _ st3 U); cbn [setLocations books]; rewrite B1.
      * intros k d L. rewrite L. unfold merge_doc. cbn.
        rewrite union_self. destruct d; reflexivity.
      * auto.
    + unfold getLocations. rewrite M3. reflexivity.
Qed.

Lemma upsert_each_lookup l : forall st st' k,
  upsert_each st l = Some st' ->
  books st' !! k = written_under k l (books st !! k).
Proof.
  induction l as [|b l IH]; intros st st' k U.
  - injection U as <-. reflexivity.
  - rewrite upsert_each_step in U. cbn [written_under].
    destruct (id b) as [i|]; [|apply IH; exact U].
    destruct (truthy i); cbn [andb]; [|apply IH; exact U].
    rewrite (IH _ _ k U). cbn [books].
    destruct (eqb i k) eqn:Q.
    + apply eqb_eq in Q. subst. rewrite lookup_insert_eq. reflexivity.
    + apply eqb_neq in Q. rewrite lookup_insert_ne by exact Q. reflexivity.
Qed.

Lemma merge_doc_assoc (a b : book V) o :
  merge_doc a (Some (merge_doc b o)) = merge_doc (merge_doc a (Some (merge_doc b None))) o.
Proof.
  unfold merge_doc. cbn [id fields]. f_equal.
  rewrite (right_id_L ∅ (∪)), (assoc_L (∪)). reflexivity.
Qed.

Lemma merge_doc_none (b : book V) o :
  merge_doc b o = merge_doc (merge_doc b None) o.
Proof.
  unfold merge_doc. cbn [id fields]. rewrite (right_id_L ∅ (∪)). reflexivity.
Qed.

(** The writes under one identifier amount to one write, of the document
    they leave on an empty place. *)
Lemma written_under_once k (l : list (book V)) : forall o : option (book V),
  written_under k l o
  = match written_under k l None with
    | Some a => Some (merge_doc a o)
    | None => o
    end.
Proof.
  induction l as [|b l IH]; intros o; cbn [written_under]; [reflexivity|].
  destruct (id b) as [i|]; [|apply IH].
  destruct (truthy i && eqb i k); [|apply IH].
  rewrite (IH (Some (merge_doc b o))), (IH (Some (merge_doc b None))).
  destruct (written_under k l None) as [a|].
  - f_equal. apply merge_doc_assoc.
  - f_equal. apply merge_doc_none.
Qed.

Lemma written_under_twice k (l : list (book V)) (o : option (book V)) :
  written_under k l (written_under k l o) = written_under k l o.
Proof.
  rewrite (written_under_once k l (written_under k l o)).
  rewrite (written_under_once k l o).
  destruct (written_under k l None) as [a|]; [|reflexivity].
  f_equal. unfold merge_doc. cbn [id fields]. f_equal.
  rewrite (assoc_L (∪)), union_self. reflexivity.
Qed.

Lemma store_eq st st' : books st = books st' -> meta st = meta st' -> st = st'.
Proof. destruct st, st'. cbn. congruence. Qed.

(** X22.  Importing the same backup a second time, in the same mode,
    changes nothing: the store after the first import is the store after
    the second, also when an identifier occurs twice in the backup. *)
Theorem import_twice_is_import_once :
  forall p mode st st',
    consistent st ->
    importBackupJSON sort_it p mode st = Some st' ->
    importBackupJSON sort_it p mode st' = Some st'.
Proof.
  intros p mode st st' C. unfold importBackupJSON. cbv zeta.
  set (st1 := match incomingLocs p with [] => st | _ :: _ => _ end).
  assert (C1 : consistent st1) by (subst st1; destruct (incomingLocs p); exact C).
  assert (Again : forall s : store V, meta s = meta st1 ->
            match incomingLocs p with [] => s | _ :: _ => setLocations s (incomingLocs p) end
            = s).
  { intros s M. subst st1. destruct (incomingLocs p) as [|x l]; [reflexivity|].
    apply store_eq; [reflexivity | symmetry; exact M]. }
  destruct (eqb mode (lit "replace")).
  - destruct (delete_listed st1 C1) as (st2 & D & B & M). rewrite D. intros U.
    destruct (upsert_each_spec (incoming p) st2) as (s & U' & M' & _).
    rewrite U in U'. injection U' as <-.
    rewrite Again by congruence.
    assert (C' : consistent st').
    { eapply upsert_each_consistent; [|exact U].
      eapply delete_each_consistent; eassumption. }
    destruct (delete_listed st' C') as (st3 & D3 & B3 & M3). rewrite D3.
    replace st3 with st2; [exact U|].
    apply store_eq; congruence.
  - intros U.
    destruct (upsert_each_spec (incoming p) st1) as (s & U' & M' & _).
    rewrite U in U'. injection U' as <-.
    rewrite Again by exact M'.
    destruct (upsert_each_spec (incoming p) st') as (st'' & U2 & M2 & _).
    rewrite U2. f_equal. apply store_eq; [|exact M2].
    apply map_eq. intros k.
    rewrite (upsert_each_lookup _ _ _ k U2), (upsert_each_lookup _ _ _ k U).
    apply written_under_twice.
Qed.

End DataFacts.

Section DataExamples.
Import JS Text Data.

Lemma as_stored_permutes : forall l, as_stored l ≡ₚ l.
Proof. reflexivity. Qed.

Lemma shelf_consistent : consistent shelf.
Proof.
  intros k d L. unfold shelf in L. cbn [books] in L.
  apply lookup_singleton_Some in L. destruct L as [<- <-].
  split; reflexivity.
Qed.

Lemma empty_consistent : consistent (V := jsstring) empty.
Proof. intros k d L. cbn in L. rewrite lookup_empty in L. discriminate L. Qed.

Lemma clearAllData_empties_the_store_witness :
  exists st',
    clearAllData as_stored shelf = Some st' /\
    books st' = ∅ /\ listBooks as_stored st' = [] /\
    getLocations st' = (defaults, st').
Proof.
  apply (clearAllData_empties_the_store as_stored as_stored_permutes shelf).
  exact shelf_consistent.
Defined.

Lemma backup_round_trip_witness :
  (exists st2,
      importBackupJSON as_stored (Some (fst (exportBackupJSON as_stored shelf 0)))
                       (lit "replace") empty = Some st2 /\
      books st2 = books shelf /\
      fst (getLocations st2) = fst (getLocations shelf)) /\
  (exists st3,
      importBackupJSON as_stored (Some (fst (exportBackupJSON as_stored shelf 0)))
                       (lit "merge") (snd (exportBackupJSON as_stored shelf 0))
      = Some st3 /\
      books st3 = books shelf /\
      fst (getLocations st3) = fst (getLocations shelf)).
Proof.
  apply (backup_round_trip as_stored as_stored_permutes shelf 0 empty (lit "merge")).
  - exact shelf_consistent.
  - exact empty_consistent.
  - reflexivity.
Defined.

Lemma import_twice_is_import_once_witness :
  importBackupJSON as_stored (Some (fst (exportBackupJSON as_stored shelf 0)))
    (lit "merge")
    (match importBackupJSON as_stored
             (Some (fst (exportBackupJSON as_stored shelf 0))) (lit "merge") shelf with
     | Some st' => st'
     | None => shelf
     end)
  = Some (match importBackupJSON as_stored
                  (Some (fst (exportBackupJSON as_stored shelf 0))) (lit "merge") shelf with
          | Some st' => st'
          | None => shelf
          end).
Proof.
  apply (import_twice_is_import_once as_stored as_stored_permutes
           (Some (fst (exportBackupJSON as_stored shelf 0))) (lit "merge") shelf).
  - exact shelf_consistent.
  - vm_compute. reflexivity.
Defined.

End DataExamples.

(** ** The local database *)

Section SortFacts.
Import LocalDB.

Context {A : Type} (before : A -> A -> bool) (R : A -> A -> Prop).
Hypothesis before_R : forall a b, before a b = true -> R a b.
Hypothesis not_before_R : forall a b, before a b = false -> R b a.
Hypothesis R_trans : forall a b c, R a b -> R b c -> R a c.

Lemma insert_permutes x l : insert before x l ≡ₚ x :: l.
Proof.
  induction l as [|y r IH]; simpl; [reflexivity|].
  destruct (before x y); [reflexivity|].
  rewrite IH. apply perm_swap.
Qed.

Lemma sort_permutes l : sort before l ≡ₚ l.
Proof.
  induction l as [|x l IH]; simpl; [reflexivity|].
  rewrite insert_permutes, IH. reflexivity.
Qed.

Lemma insert_ordered x l : ordered R l -> ordered R (insert before x l).
Proof.
  induction l as [|y r IH]; simpl; [auto|].
  intros [Fy O]. destruct (before x y) eqn:E; simpl.
  - split; [|split; assumption].
    constructor; [apply before_R; exact E|].
    eapply Forall_impl; [exact Fy|]. intros z Ryz.
    eapply R_trans; [apply before_R; exact E | exact Ryz].
  - split; [|apply IH; exact O].
    rewrite insert_permutes. constructor; [apply not_before_R; exact E | exact Fy].
Qed.

Lemma sort_ordered l : ordered R (sort before l).
Proof.
  induction l as [|x l IH]; simpl; [exact I|].
  apply insert_ordered. exact IH.
Qed.

End SortFacts.

Section LocalFacts.
Import JS Text LocalDB.

Context {B blob : Type}.
Variable dataURLToBlob : jsstring -> option blob.

Implicit Types (d : db B blob) (c : content B blob) (inb : exported B)
               (i k : jsstring).

Lemma local_listBooks_permutes d :
  listBooks d ≡ₚ List.map (fun kc => {| id := Some (fst kc); data := snd kc |})
                          (map_to_list (books d)).
Proof.
  unfold listBooks, getAll. rewrite sort_permutes.
  apply Permutation_map. apply sort_permutes.
Qed.

Lemma local_listBooks_elem d b :
  b ∈ listBooks d <->
  exists i c, books d !! i = Some c /\ b = {| id := Some i; data := c |}.
Proof.
  rewrite local_listBooks_permutes, list_elem_of_In, in_map_iff. split.
  - intros ([i c] & E & I). apply list_elem_of_In, elem_of_map_to_list in I.
    exists i, c. auto.
  - intros (i & c & L & ->). exists (i, c). split; [reflexivity|].
    apply list_elem_of_In, elem_of_map_to_list. exact L.
Qed.

(** X23.  [listBooks] returns the stored books, each once and under its own
    [id], the newest first: no book comes after one that was created
    earlier (a book without creation time counts as created at time 0). *)
Theorem listBooks_newest_first :
  forall d,
    ordered (fun a b => (or_zero (createdAt (data b))
                         <= or_zero (createdAt (data a)))%Z) (listBooks d) /\
    listBooks d ≡ₚ List.map (fun kc => {| id := Some (fst kc); data := snd kc |})
                            (map_to_list (books d)) /\
    (forall b, b ∈ listBooks d <->
               exists i c, books d !! i = Some c /\ b = {| id := Some i; data := c |}).
Proof.
  intros d. split; [|split; [apply local_listBooks_permutes | apply local_listBooks_elem]].
  unfold listBooks. apply sort_ordered.
  - intros a b H. apply Z.leb_le in H. lia.
  - intros a b H. apply Z.leb_gt in H. lia.
  - intros a b c H1 H2. lia.
Qed.

(** X24.  A book with an [id] is stored under it and read back as it was
    written, in place of the book that had this [id]; the other books do
    not change, and deleting the book removes it.  A book without [id] is
    refused. *)
Theorem stored_book_is_read_back :
  forall d b,
    match upsertBook d b with
    | Some d' =>
        exists i, id b = Some i /\
          getBook d' i = Some b /\
          (forall k, k <> i -> getBook d' k = getBook d k) /\
          b ∈ listBooks d' /\
          getBook (deleteBook d' i) i = None /\
          getLocations d' = getLocations d
    | None => id b = None
    end.
Proof.
  intros d [[i|] c]; cbn; [|reflexivity].
  exists i. split; [reflexivity|]. unfold getBook, deleteBook. cbn [books].
  split; [rewrite lookup_insert_eq; reflexivity|].
  split; [intros k N; rewrite lookup_insert_ne by congruence; reflexivity|].
  split. { apply local_listBooks_elem. exists i, c. cbn [books].
           rewrite lookup_insert_eq. auto. }
  split; [rewrite lookup_delete_eq; reflexivity | reflexivity].
Qed.

(** *** Importing a backup *)

Lemma import_each_locations M m l : forall d,
  locations (fst (import_each dataURLToBlob M m d l)) = locations d.
Proof.
  induction l as [|inb r IH]; intros d; cbn [import_each]; [reflexivity|].
  destruct (cover_of dataURLToBlob inb) as [cv|]; [|reflexivity].
  destruct (skipped M m inb); [apply IH|].
  unfold upsertBook. cbn [restored id]. destruct (e_id inb) as [i|]; [|reflexivity].
  rewrite IH. reflexivity.
Qed.

Lemma import_each_not_invalid M m l : forall d,
  snd (import_each dataURLToBlob M m d l) <> Invalid.
Proof.
  induction l as [|inb r IH]; intros d; cbn [import_each]; [discriminate|].
  destruct (cover_of dataURLToBlob inb) as [cv|]; [|discriminate].
  destruct (skipped M m inb); [apply IH|].
  destruct (upsertBook d (restored inb cv)); [apply IH | discriminate].
Qed.

Lemma import_each_untouched M m l : forall d k,
  Some k ∉ ids l ->
  books (fst (import_each dataURLToBlob M m d l)) !! k = books d !! k.
Proof.
  induction l as [|inb r IH]; intros d k N; cbn [import_each]; [reflexivity|].
  unfold ids in N. cbn [List.map] in N. fold (ids r) in N.
  apply not_elem_of_cons in N. destruct N as [N1 N2].
  destruct (cover_of dataURLToBlob inb) as [cv|]; [|reflexivity].
  destruct (skipped M m inb); [apply IH; exact N2|].
  unfold upsertBook. cbn [restored id]. destruct (e_id inb) as [i|]; [|reflexivity].
  rewrite IH by exact N2. cbn [books]. apply lookup_insert_ne. congruence.
Qed.

(** What the loop keeps, in the mode "merge": each book of [currentMap]
    is still stored, as it was or in a version modified later. *)
Lemma import_each_forward M l : forall d,
  (forall i c, M !! i = Some c ->
     exists c', books d !! i = Some c' /\
       (c' = c \/ (or_zero (updatedAt c) < or_zero (updatedAt c'))%Z)) ->
  forall i c, M !! i = Some c ->
     exists c', books (fst (import_each dataURLToBlob M true d l)) !! i = Some c' /\
       (c' = c \/ (or_zero (updatedAt c) < or_zero (updatedAt c'))%Z).
Proof.
  induction l as [|inb r IH]; intros d Inv; cbn [import_each]; [exact Inv|].
  destruct (cover_of dataURLToBlob inb) as [cv|]; [|exact Inv].
  destruct (skipped M true inb) eqn:S; [apply IH; exact Inv|].
  unfold upsertBook. cbn [restored id]. destruct (e_id inb) as [k|] eqn:Ek; [|exact Inv].
  apply IH. intros i c L. cbn [books].
  destruct (decide (k = i)) as [->|N].
  - rewrite lookup_insert_eq. eexists. split; [reflexivity|]. right.
    unfold skipped in S. rewrite Ek, L in S. cbn [andb] in S.
    apply Z.leb_gt in S. cbn [updatedAt]. exact S.
  - rewrite lookup_insert_ne by exact N. apply Inv. exact L.
Qed.

(** X26.  An import in the mode "merge" deletes no book and never puts an
    older version, or one of the same time, in the place of a stored
    book: every book stored before is stored afterwards, as it was or in
    a version whose modification time is later.  This holds also when
    the import fails on the way. *)
Theorem merge_import_never_goes_back :
  forall p d i c,
    books d !! i = Some c ->
    exists c',
      books (fst (importBackupJSON dataURLToBlob p (lit "merge") d)) !! i = Some c' /\
      (c' = c \/ (or_zero (updatedAt c) < or_zero (updatedAt c'))%Z).
Proof.
  intros p d i c L. unfold importBackupJSON.
  destruct (valid p); cbn [negb fst]; [|eauto]. cbv zeta.
  change (eqb (lit "merge") (lit "merge")) with true.
  apply import_each_forward; [|exact L].
  intros k c0 L0. cbn [setLocations books] in *. eauto.
Qed.

(** *** The locations *)

Lemma Set_from_elem l x : x ∈ Set_from l <-> x ∈ l.
Proof.
  induction l as [|y l IH]; cbn [Set_from]; [reflexivity|].
  rewrite !elem_of_cons, list_elem_of_In, filter_In, <- list_elem_of_In, IH.
  rewrite negb_true_iff, eqb_neq.
  destruct (decide (x = y)) as [->|N]; [tauto|]. tauto.
Qed.

Lemma NoDup_filter {X} (f : X -> bool) l : NoDup l -> NoDup (List.filter f l).
Proof.
  induction 1 as [|x l N _ IH]; simpl; [constructor|].
  destruct (f x); [|exact IH]. constructor; [|exact IH].
  rewrite list_elem_of_In, filter_In, <- list_elem_of_In. tauto.
Qed.

Lemma Set_from_NoDup l : NoDup (Set_from l).
Proof.
  induction l as [|y l IH]; cbn [Set_from]; constructor.
  - rewrite list_elem_of_In, filter_In. intros [_ H].
    apply negb_true_iff, eqb_neq in H. congruence.
  - apply NoDup_filter. exact IH.
Qed.

Lemma filter_keeps_all {X} (f : X -> bool) l :
  (forall x, x ∈ l -> f x = true) -> List.filter f l = l.
Proof.
  intros H. apply filter_all. intros x I. apply H. apply list_elem_of_In. exact I.
Qed.

Lemma filter_comm {X} (f g : X -> bool) l :
  List.filter f (List.filter g l) = List.filter g (List.filter f l).
Proof.
  induction l as [|x l IH]; simpl; [reflexivity|].
  destruct (g x) eqn:G, (f x) eqn:F; simpl; rewrite ?G, ?F, IH; reflexivity.
Qed.

Lemma filter_twice {X} (f : X -> bool) l :
  List.filter f (List.filter f l) = List.filter f l.
Proof.
  induction l as [|x l IH]; simpl; [reflexivity|].
  destruct (f x) eqn:F; simpl; rewrite ?F, IH; reflexivity.
Qed.

Lemma Set_from_filter y l :
  List.filter (fun z => negb (eqb z y)) (Set_from l)
  = Set_from (List.filter (fun z => negb (eqb z y)) l).
Proof.
  induction l as [|z r IH]; [reflexivity|]. cbn [Set_from List.filter].
  destruct (negb (eqb z y)) eqn:Z.
  - cbn [Set_from]. f_equal. rewrite filter_comm, IH. reflexivity.
  - apply negb_false_iff, eqb_eq in Z. subst z.
    rewrite filter_twice. exact IH.
Qed.

(** A list without repetition absorbs what it already has. *)
Lemma Set_from_absorbs l more :
  NoDup l -> (forall x, x ∈ more -> x ∈ l) -> Set_from (l ++ more) = l.
Proof.
  revert more. induction l as [|y l IH]; intros more N H.
  - destruct more as [|x more]; [reflexivity|].
    exfalso. specialize (H x (list_elem_of_here _ _)). inversion H.
  - apply NoDup_cons in N. destruct N as [Ny N]. cbn [app Set_from]. f_equal.
    rewrite Set_from_filter, List.filter_app.
    rewrite (filter_keeps_all _ l).
    + apply IH; [exact N|].
      intros x I. rewrite list_elem_of_In, filter_In, <- list_elem_of_In in I.
      destruct I as [I D]. apply negb_true_iff, eqb_neq in D.
      specialize (H x I). apply elem_of_cons in H. destruct H; congruence.
    + intros x I. apply negb_true_iff, eqb_neq. congruence.
Qed.

Lemma merged_locations_elem cur inc x :
  x ∈ merged_locations cur inc <->
  x <> [] /\ exists y, y ∈ cur ++ inc /\ x = trim y.
Proof.
  unfold merged_locations, filter_Boolean.
  rewrite Set_from_elem, list_elem_of_In, filter_In, in_map_iff, truthy_nonempty.
  split.
  - intros [(y & E & I) N]. split; [exact N|]. exists y.
    split; [apply list_elem_of_In; exact I | auto].
  - intros [N (y & I & E)]. split; [|exact N]. exists y.
    split; [auto | apply list_elem_of_In; exact I].
Qed.

Lemma merged_locations_again cur inc :
  merged_locations (merged_locations cur inc) inc = merged_locations cur inc.
Proof.
  set (L := merged_locations cur inc).
  assert (F : forall x, x ∈ L -> truthy x = true /\ trim x = x).
  { intros x I. apply merged_locations_elem in I. destruct I as [N (y & _ & ->)].
    split; [apply truthy_nonempty; exact N | apply trim_idempotent]. }
  unfold merged_locations at 1. unfold filter_Boolean.
  rewrite List.map_app, List.filter_app.
  assert (E1 : List.filter truthy (List.map trim L) = L).
  { clear -F. induction L as [|x l IH]; [reflexivity|]. cbn [List.map List.filter].
    destruct (F x (list_elem_of_here _ _)) as [T E]. rewrite E, T. f_equal.
    apply IH. intros y I. apply F. apply list_elem_of_further. exact I. }
  rewrite E1. apply Set_from_absorbs; [apply Set_from_NoDup|].
  intros x I. rewrite list_elem_of_In, filter_In, in_map_iff in I.
  destruct I as [(y & E & I) T]. apply merged_locations_elem.
  split; [apply truthy_nonempty; exact T|]. exists y.
  split; [|auto]. apply elem_of_app. right. apply list_elem_of_In. exact I.
Qed.

(** X27.  After an import that got past the check, the locations are those
    stored before (the six defaults when none were stored) followed by
    those of the backup, each trimmed, without the blank ones, and each
    once: no location is lost and none occurs twice. *)
Theorem import_merges_the_locations :
  forall q l mode d,
    schemaVersion q = Some 1%Z -> p_books q = Some l ->
    let inc := match p_locations q with Some x => x | None => [] end in
    let after := getLocations (fst (importBackupJSON dataURLToBlob (Some q) mode d)) in
    after = merged_locations (getLocations d) inc /\
    NoDup after /\
    (forall x, x ∈ after <->
               x <> [] /\ exists y, y ∈ getLocations d ++ inc /\ x = trim y) /\
    (locations d = None ->
     forall y, y ∈ defaults -> y ∈ after).
Proof.
  intros q l mode d S Bk inc after.
  assert (E : after = merged_locations (getLocations d) inc).
  { subst after. unfold importBackupJSON, valid. rewrite S, Bk. cbn [negb]. cbv zeta.
    unfold getLocations at 1. rewrite import_each_locations. reflexivity. }
  split; [exact E|]. rewrite E. split; [apply Set_from_NoDup|].
  split; [intros x; apply merged_locations_elem|].
  intros N y I. apply merged_locations_elem.
  assert (Ty : y <> [] /\ trim y = y).
  { unfold defaults in I. repeat (apply elem_of_cons in I; destruct I as [->|I]);
      [split; [discriminate | reflexivity] ..|inversion I]. }
  split; [apply Ty|]. exists y. split; [|symmetry; apply Ty].
  apply elem_of_app. left. unfold getLocations. rewrite N. exact I.
Qed.

(** *** Importing twice *)

Lemma import_each_settles M l : forall d d',
  NoDup (ids l) ->
  (forall k, Some k ∈ ids l -> books d !! k = M !! k) ->
  import_each dataURLToBlob M true d l = (d', Fulfilled) ->
  forall inb, inb ∈ l ->
    is_Some (cover_of dataURLToBlob inb) /\
    exists k c', e_id inb = Some k /\ books d' !! k = Some c' /\
                 (or_zero (e_updatedAt inb) <= or_zero (updatedAt c'))%Z.
Proof.
  induction l as [|inb r IH]; intros d d' N Same Run inb' I; [inversion I|].
  unfold ids in N, Same. cbn [List.map] in N, Same. fold (ids r) in N, Same.
  apply NoDup_cons in N. destruct N as [Ni N].
  cbn [import_each] in Run.
  destruct (cover_of dataURLToBlob inb) as [cv|] eqn:Cv; [|discriminate Run].
  destruct (skipped M true inb) eqn:Sk.
  - apply elem_of_cons in I. destruct I as [->|I].
    + split; [rewrite Cv; eauto|].
      unfold skipped in Sk. destruct (e_id inb) as [k|] eqn:Ek; [|discriminate Sk].
      destruct (M !! k) as [ex|] eqn:Mk; [|discriminate Sk]. cbn [andb] in Sk.
      apply Z.leb_le in Sk. exists k, ex. split; [reflexivity|]. split; [|exact Sk].
      pose proof (import_each_untouched M true r d k Ni) as U. rewrite Run in U.
      cbn [fst] in U. rewrite U, Same by left. exact Mk.
    + apply (IH d d' N); auto. intros k Ik. apply Same. right. exact Ik.
  - unfold upsertBook in Run. cbn [restored id] in Run.
    destruct (e_id inb) as [k|] eqn:Ek; [|discriminate Run].
    apply elem_of_cons in I. destruct I as [->|I].
    + split; [rewrite Cv; eauto|].
      eexists k, _. split; [exact Ek|].
      pose proof (import_each_untouched M true r
                    {| books := <[k := data (restored inb cv)]> (books d);
                       locations := locations d |} k Ni) as U.
      rewrite Run in U. cbn [fst books] in U. rewrite U, lookup_insert_eq.
      split; [reflexivity|]. cbn. lia.
    + refine (IH _ d' N _ Run inb' I). intros k' Ik. cbn [books].
      rewrite lookup_insert_ne; [apply Same; right; exact Ik|].
      intros ->. apply Ni. exact Ik.
Qed.

Lemma import_each_nothing_new l : forall d,
  (forall inb, inb ∈ l ->
     is_Some (cover_of dataURLToBlob inb) /\
     exists k c', e_id inb = Some k /\ books d !! k = Some c' /\
                  (or_zero (e_updatedAt inb) <= or_zero (updatedAt c'))%Z) ->
  import_each dataURLToBlob (books d) true d l = (d, Fulfilled).
Proof.
  intros d. induction l as [|inb r IH]; intros H; cbn [import_each]; [reflexivity|].
  destruct (H inb (list_elem_of_here _ _)) as ([cv Cv] & k & c' & Ek & L & Le).
  rewrite Cv. unfold skipped. rewrite Ek, L. cbn [andb].
  apply Z.leb_le in Le. rewrite Le. apply IH.
  intros inb' I. apply H. apply list_elem_of_further. exact I.
Qed.

(** X28.  Importing the same backup a second time, in the mode "merge",
    changes nothing, provided no two books of the backup have the same
    [id].  (With the same [id] twice it may: see
    [import_twice_with_a_repeated_id].) *)
Theorem merge_import_is_idempotent :
  forall q l d d',
    p_books q = Some l -> NoDup (ids l) ->
    importBackupJSON dataURLToBlob (Some q) (lit "merge") d = (d', Fulfilled) ->
    importBackupJSON dataURLToBlob (Some q) (lit "merge") d' = (d', Fulfilled).
Proof.
  intros q l d d' Bk N Run. unfold importBackupJSON in *.
  destruct (valid (Some q)) eqn:V; cbn [negb] in *; [|discriminate Run].
  cbv zeta in *. rewrite Bk in *.
  change (eqb (lit "merge") (lit "merge")) with true in *.
  set (inc := match p_locations q with Some x => x | None => [] end) in *.
  set (d1 := setLocations d (merged_locations (getLocations d) inc)) in *.
  assert (Ld' : locations d' = Some (merged_locations (getLocations d) inc)).
  { pose proof (import_each_locations (books d1) true l d1) as E.
    rewrite Run in E. exact E. }
  assert (E1 : setLocations d' (merged_locations (getLocations d') inc) = d').
  { unfold getLocations at 1. rewrite Ld', merged_locations_again.
    destruct d' as [bk lc]. cbn in Ld'. subst lc. reflexivity. }
  rewrite E1. apply import_each_nothing_new.
  apply (import_each_settles (books d1) l d1 d' N); [reflexivity | exact Run].
Qed.

End LocalFacts.

Section LocalExamples.
Import JS Text LocalDB.

(** With the same [id] twice in a backup, a second import differs from
    the first: both versions are newer than the stored one, so the first
    import leaves the last of them, and the second import then takes the
    other, which is newer than that. *)
Example import_twice_with_a_repeated_id :
  let p := backup [version_of 9; version_of 7] in
  let once := fst (importBackupJSON no_fetch p (lit "merge") one_book) in
  let twice := fst (importBackupJSON no_fetch p (lit "merge") once) in
  (updatedAt <$> books once !! lit "b1") = Some (Some 7%Z) /\
  (updatedAt <$> books twice !! lit "b1") = Some (Some 9%Z).
Proof. split; vm_compute; reflexivity. Qed.

Example import_examples :
  getLocations (fst (importBackupJSON no_fetch (backup []) (lit "merge") one_book))
  = [lit "Studio"; lit "Cantina"] /\
  getLocations (fst (importBackupJSON no_fetch (backup []) (lit "merge")
                       (empty (B := unit) (blob := jsstring))))
  = [lit "Salone"; lit "Camera matrimoniale"; lit "Camera Niki";
     lit "Camera Francesco"; lit "Camera Cecilia"; lit "Studio"; lit "Cantina"] /\
  importBackupJSON no_fetch None (lit "merge") one_book = (one_book, Invalid).
Proof. repeat split; vm_compute; reflexivity. Qed.

Lemma merge_import_never_goes_back_witness :
  exists c',
    books (fst (importBackupJSON no_fetch (backup [version_of 3; version_of 9])
                  (lit "merge") one_book)) !! lit "b1" = Some c' /\
    (c' = {| createdAt := Some 1%Z; updatedAt := Some 5%Z;
             coverBlob := None; other := tt |}
     \/ (or_zero (updatedAt {| createdAt := Some 1%Z; updatedAt := Some 5%Z;
                               coverBlob := None (A := jsstring); other := tt |})
         < or_zero (updatedAt c'))%Z).
Proof.
  apply (merge_import_never_goes_back no_fetch
           (backup [version_of 3; version_of 9]) one_book (lit "b1")).
  reflexivity.
Defined.

Lemma import_merges_the_locations_witness :
  let q := {| schemaVersion := Some 1%Z;
              p_locations := Some [lit " Cantina "; lit "Studio"];
              p_books := Some [version_of 9] |} in
  let inc := match p_locations q with Some x => x | None => [] end in
  let after := getLocations
                 (fst (importBackupJSON no_fetch (Some q) (lit "merge") one_book)) in
  after = merged_locations (getLocations one_book) inc /\
  NoDup after /\
  (forall x, x ∈ after <->
             x <> [] /\ exists y, y ∈ getLocations one_book ++ inc /\ x = trim y) /\
  (locations one_book = None ->
   forall y, y ∈ defaults -> y ∈ after).
Proof.
  apply (import_merges_the_locations no_fetch
           {| schemaVersion := Some 1%Z;
              p_locations := Some [lit " Cantina "; lit "Studio"];
              p_books := Some [version_of 9] |}
           [version_of 9] (lit "merge") one_book); reflexivity.
Defined.

Lemma merge_import_is_idempotent_witness :
  importBackupJSON no_fetch (backup [version_of 9]) (lit "merge")
    (fst (importBackupJSON no_fetch (backup [version_of 9]) (lit "merge") one_book))
  = (fst (importBackupJSON no_fetch (backup [version_of 9]) (lit "merge") one_book),
     Fulfilled).
Proof.
  apply (merge_import_is_idempotent no_fetch
           {| schemaVersion := Some 1%Z;
              p_locations := Some [lit " Cantina "; lit "Studio"];
              p_books := Some [version_of 9] |}
           [version_of 9] one_book).
  - reflexivity.
  - apply NoDup_singleton.
  - vm_compute. reflexivity.
Defined.

End LocalExamples.

(** ** The order of what a session does *)

Section TraceFacts.
Import JS Isbn Gate Conditioner Acquire Session Trace.

Ltac turn_cases H :=
  unfold step, cleanup, start_resume, play_resume, loop, decodeLoop,
    loop_resume, decodeLoop_resume, on_cleaned in H;
  cbv zeta in H;
  repeat match type of H with
         | context [match ?x with _ => _ end] =>
             destruct x eqn:?; try discriminate H
         | context [if ?x then _ else _] =>
             destruct x eqn:?; try discriminate H
         end;
  simplify_eq.

Lemma none_app p a b : none p (a ++ b) = none p a && none p b.
Proof. apply forallb_app. Qed.

Lemma none_stops p l :
  (forall t, p (StopTrack t) = false) -> none p (List.map StopTrack l) = true.
Proof.
  intros H. induction l as [|t l IH]; simpl; [reflexivity|].
  rewrite H. exact IH.
Qed.





Lemma step_one_loop s e s' acts before :
  step s e = Some (s', acts) ->
  one_loop (at_ s) before = true -> one_loop (at_ s') (before ++ acts) = true.
Proof.
  intros H I.
  assert (St : forall l, none is_native (List.map StopTrack l) = true /\
                         none is_software (List.map StopTrack l) = true).
  { intros l. split; apply none_stops; reflexivity. }
  destruct e; unfold step in H; [| | | | |
    injection H as <- <-; unfold cleanup; cbv zeta; cbn [fst snd at_];
    match goal with
    | |- context [List.map StopTrack ?l] => destruct (St l) as [N1 N2]
    end;
    destruct (at_ s); unfold one_loop in *; rewrite ?none_app;
    rewrite ?N1, ?N2, ?andb_true_r; exact I];
    destruct (at_ s) eqn:A; try discriminate H;
    turn_cases H; cbn [at_ goto set_last set_stream];
    unfold one_loop in *; rewrite ?none_app; cbn;
    destruct (none is_native before), (none is_software before);
    try discriminate I; reflexivity.
Qed.

Lemma run_one_loop evs : forall s s' acts before,
  run s evs = Some (s', acts) ->
  one_loop (at_ s) before = true -> one_loop (at_ s') (before ++ acts) = true.
Proof.
  induction evs as [|e evs IH]; intros s s' acts before H I.
  - injection H as <- <-. rewrite app_nil_r. exact I.
  - apply run_cons in H. destruct H as (s1 & a1 & a2 & Hs & Hr & ->).
    rewrite app_assoc. eapply IH; [exact Hr|].
    eapply step_one_loop; eassumption.
Qed.

(** X30.  A session runs one of the two loops, chosen when [video.play()]
    has settled, and never the other: it either takes no frame for the
    native detector or never calls the software decoder. *)
Theorem session_runs_one_loop :
  forall evs s acts,
    run initial evs = Some (s, acts) ->
    none is_software acts = true \/ none is_native acts = true.
Proof.
  intros evs s acts H.
  pose proof (run_one_loop evs _ _ _ [] H eq_refl) as I. cbn [app] in I.
  unfold one_loop in I. destruct (at_ s);
    try (apply andb_true_iff in I; destruct I); try (apply orb_true_iff in I); auto.
Qed.

End TraceFacts.

Section TraceExamples.
Import JS Session Scenario Trace.


Lemma session_runs_one_loop_witness :
  none is_software [Decode; SetTimeout; Decode; OnDetected (lit "12345")] = true \/
  none is_native [Decode; SetTimeout; Decode; OnDetected (lit "12345")] = true.
Proof.
  apply (session_runs_one_loop short_code
           (match run initial short_code with
            | Some (s, _) => s
            | None => initial
            end)
           [Decode; SetTimeout; Decode; OnDetected (lit "12345")]).
  vm_compute. reflexivity.
Defined.

End TraceExamples.
